(** * Video editor core: timeline (EDL) store, playback store, timeline
      geometry, mask lookup and the synchronous prefix of the exporter.

    Numbers.  The program computes with JavaScript numbers.  Times in
    seconds and pixel offsets are embedded as exact rationals [Q]: [+], [-],
    [*], [/], [Math.max], [Math.min], [Math.abs] and the comparisons are the
    rational ones, [===] on numbers is [Qeq_bool].  Rounding, NaN and the
    infinities are outside this model.  Pixel dimensions of a video
    ([videoWidth], [videoHeight]) are integers and are embedded as [Z];
    bytes of a [Uint8Array] are embedded as [Z] in 0..255.

    Identifiers.  [generateId()] draws a random UUID; every operation that
    calls it takes the drawn identifier as an explicit argument.

    Ambient stores.  [useSourceStore.getState().getSource] is a lookup
    function; it is a section variable of the timeline store below and an
    argument of the exporter, as in the source. *)

From Stdlib Require Import QArith Qabs Qminmax Qround Lqa ZArith Lia List Bool
  String Permutation Sorted.
From Stdlib Require Floats.
Import ListNotations.

Local Open Scope Q_scope.

(* ------------------------------------------------------------------ *)
(** ** JavaScript number primitives on [Q] *)

Module JsNum.

(** [a < b] *)
Definition ltb (a b : Q) : bool := negb (Qle_bool b a).
(** [a <= b] *)
Definition leb (a b : Q) : bool := Qle_bool a b.
(** [a === b] on numbers *)
Definition eqb (a b : Q) : bool := Qeq_bool a b.

(** One tenth of a second, the literal [0.1]. *)
Definition tenth : Q := 1 # 10.
(** The literal [0.001]. *)
Definition thousandth : Q := 1 # 1000.

End JsNum.

Infix "<?" := JsNum.ltb (at level 70, no associativity) : Q_scope.
Infix "<=?" := JsNum.leb (at level 70, no associativity) : Q_scope.
Infix "=?" := JsNum.eqb (at level 70, no associativity) : Q_scope.

(* ------------------------------------------------------------------ *)
(** ** Data model (types/index.ts) *)

(** [VideoSource]; the [file] and [objectUrl] handles carry no data the
    modelled functions read and are left out. *)
Record VideoSource := mkVideoSource {
  vs_id : string;
  durationInSeconds : Q;
  fileName : string;
  widthInPixels : option Z;
  heightInPixels : option Z;
  frameRate : Q
}.

Record TrimmedRegions := mkTrimmed {
  startSeconds : Q;
  endSeconds : Q
}.

Record TimelineClip := mkClip {
  id : string;
  sourceId : string;
  sourceInPointSeconds : Q;
  sourceOutPointSeconds : Q;
  timelinePositionSeconds : Q;
  trimmed : TrimmedRegions
}.

Record MaskData := mkMask {
  data : list Z;
  width : Z;
  height : Z
}.

Record FrameMask := mkFrameMask {
  frameTimeSeconds : Q;
  mask : MaskData
}.

Record ColorRegion := mkRegion {
  cr_id : string;
  clipId : string;
  frameMasks : list FrameMask;
  isProcessing : bool;
  totalFrames : Z;
  processedFrames : Z
}.

(** Object spread with one field replaced. *)
Definition with_timelinePosition (c : TimelineClip) (p : Q) : TimelineClip :=
  mkClip (id c) (sourceId c) (sourceInPointSeconds c) (sourceOutPointSeconds c)
         p (trimmed c).

(* ------------------------------------------------------------------ *)
(** ** Playback store (stores/playbackStore.ts) *)

Record PlaybackStore := mkPlayback {
  currentTime : Q;
  isPlaying : bool
}.

Module Playback.

Definition initial : PlaybackStore := mkPlayback 0 false.

Definition setCurrentTime (time : Q) (s : PlaybackStore) : PlaybackStore :=
  mkPlayback (Qmax 0 time) (isPlaying s).

Definition play (s : PlaybackStore) : PlaybackStore :=
  mkPlayback (currentTime s) true.

Definition pause (s : PlaybackStore) : PlaybackStore :=
  mkPlayback (currentTime s) false.

Definition toggle (s : PlaybackStore) : PlaybackStore :=
  mkPlayback (currentTime s) (negb (isPlaying s)).

Definition seek (time : Q) (s : PlaybackStore) : PlaybackStore :=
  mkPlayback (Qmax 0 time) false.

Definition seekRelative (delta : Q) (s : PlaybackStore) : PlaybackStore :=
  let current := currentTime s in
  mkPlayback (Qmax 0 (current + delta)) false.

End Playback.

(* ------------------------------------------------------------------ *)
(** ** Timeline store: clip slice (stores/slices/clipSlice.ts) *)

Record TimelineStore := mkTimeline {
  clips : list TimelineClip;
  selectedClipId : option string;
  pixelsPerSecond : Q;
  colorRegions : list ColorRegion
}.

(** The clip slice writes the playback store while trimming, so its
    operations act on both stores at once. *)
Record Editor := mkEditor {
  timeline : TimelineStore;
  playback : PlaybackStore
}.

Definition getClipDuration (clip : TimelineClip) : Q :=
  sourceOutPointSeconds clip - sourceInPointSeconds clip.

(** [clips.map] with the running [currentPosition], started at [cur]. *)
Fixpoint recalculateFrom (currentPosition : Q) (cs : list TimelineClip)
  : list TimelineClip :=
  match cs with
  | [] => []
  | clip :: rest =>
      with_timelinePosition clip currentPosition
        :: recalculateFrom (currentPosition + getClipDuration clip) rest
  end.

Definition recalculatePositions (cs : list TimelineClip) : list TimelineClip :=
  recalculateFrom 0 cs.

Definition calculateTotalDuration (cs : list TimelineClip) : Q :=
  fold_left (fun total clip => total + getClipDuration clip) cs 0.

Definition getSourceTimeForPlayhead (clip : TimelineClip) (currentTime : Q)
  : option Q :=
  let clipDuration := getClipDuration clip in
  let clipEnd := timelinePositionSeconds clip + clipDuration in
  if (currentTime <? timelinePositionSeconds clip) || (clipEnd <? currentTime)
  then None
  else
    let offsetInClip := currentTime - timelinePositionSeconds clip in
    Some (sourceInPointSeconds clip + offsetInClip).

Definition has_id (clipId : string) (c : TimelineClip) : bool :=
  String.eqb (id c) clipId.

Definition adjustPlayheadForTrim (clipId : string)
    (oldClips newClips : list TimelineClip) (pb : PlaybackStore)
  : PlaybackStore :=
  let currentTime := currentTime pb in
  match find (has_id clipId) oldClips, find (has_id clipId) newClips with
  | Some oldClip, Some newClip =>
      match getSourceTimeForPlayhead oldClip currentTime with
      | None => pb
      | Some sourceTimeBeforeTrim =>
          let isStillInBounds :=
            (sourceInPointSeconds newClip <=? sourceTimeBeforeTrim)
            && (sourceTimeBeforeTrim <=? sourceOutPointSeconds newClip) in
          if isStillInBounds then
            let newTimelineTime :=
              timelinePositionSeconds newClip
              + (sourceTimeBeforeTrim - sourceInPointSeconds newClip) in
            if JsNum.thousandth <? Qabs (newTimelineTime - currentTime)
            then Playback.setCurrentTime newTimelineTime pb
            else pb
          else if sourceTimeBeforeTrim <? sourceInPointSeconds newClip then
            Playback.setCurrentTime (timelinePositionSeconds newClip) pb
          else
            let newClipDuration := getClipDuration newClip in
            Playback.setCurrentTime
              (timelinePositionSeconds newClip + newClipDuration) pb
      end
  | _, _ => pb
  end.

Definition clampTrimStart (clip : TimelineClip) (newSourceInPointSeconds : Q)
  : Q :=
  Qmax 0 (Qmin newSourceInPointSeconds
               (sourceOutPointSeconds clip - JsNum.tenth)).

Definition clampTrimEnd (clip : TimelineClip) (newSourceOutPointSeconds : Q)
    (sourceDuration : Q) : Q :=
  Qmin sourceDuration
       (Qmax newSourceOutPointSeconds
             (sourceInPointSeconds clip + JsNum.tenth)).

Definition createSplitClips (clip : TimelineClip) (atTimelineTimeSeconds : Q)
    (newId : string) : option (TimelineClip * TimelineClip) :=
  let clipDuration := getClipDuration clip in
  let clipEnd := timelinePositionSeconds clip + clipDuration in
  if (atTimelineTimeSeconds <=? timelinePositionSeconds clip)
     || (clipEnd <=? atTimelineTimeSeconds)
  then None
  else
    let splitOffset := atTimelineTimeSeconds - timelinePositionSeconds clip in
    let sourceSplitTime := sourceInPointSeconds clip + splitOffset in
    let firstClip :=
      mkClip (id clip) (sourceId clip) (sourceInPointSeconds clip)
             sourceSplitTime (timelinePositionSeconds clip)
             (mkTrimmed (startSeconds (trimmed clip)) 0) in
    let secondClip :=
      mkClip newId (sourceId clip) sourceSplitTime
             (sourceOutPointSeconds clip) atTimelineTimeSeconds
             (mkTrimmed 0 (endSeconds (trimmed clip))) in
    Some (firstClip, secondClip).

(** [Array.prototype.findIndex]; [None] stands for [-1]. *)
Fixpoint findIndex {A} (f : A -> bool) (l : list A) : option nat :=
  match l with
  | [] => None
  | x :: r => if f x then Some O
              else match findIndex f r with
                   | Some i => Some (S i)
                   | None => None
                   end
  end.

(** [l.splice(i, 1)]: the list without its element at [i]. *)
Definition spliceOut {A} (i : nat) (l : list A) : list A :=
  firstn i l ++ skipn (S i) l.

(** [l.splice(i, 0, x)]: [x] inserted before index [i] (at the end when
    [i] exceeds the length). *)
Definition spliceIn {A} (i : nat) (x : A) (l : list A) : list A :=
  firstn i l ++ x :: skipn i l.

Definition set_clips (t : TimelineStore) (cs : list TimelineClip)
  : TimelineStore :=
  mkTimeline cs (selectedClipId t) (pixelsPerSecond t) (colorRegions t).

Definition MIN_PIXELS_PER_SECOND : Q := 10.
Definition MAX_PIXELS_PER_SECOND : Q := 200.

Section ClipSlice.

Variable getSource : string -> option VideoSource.

Definition initialTimeline : TimelineStore := mkTimeline [] None 50 [].

Definition initialEditor : Editor :=
  mkEditor initialTimeline Playback.initial.

Definition getDuration (e : Editor) : Q :=
  calculateTotalDuration (clips (timeline e)).

Definition addClip (sourceId newId : string) (e : Editor) : Editor :=
  match getSource sourceId with
  | None => e
  | Some source =>
      let newClip :=
        mkClip newId sourceId 0 (durationInSeconds source) 0
               (mkTrimmed 0 0) in
      let updatedClips := clips (timeline e) ++ [newClip] in
      mkEditor (set_clips (timeline e) (recalculatePositions updatedClips))
               (playback e)
  end.

Definition removeClip (clipId : string) (e : Editor) : Editor :=
  let state := timeline e in
  let filteredClips :=
    filter (fun c => negb (has_id clipId c)) (clips state) in
  let updatedClips := recalculatePositions filteredClips in
  mkEditor
    (mkTimeline updatedClips
       (match selectedClipId state with
        | Some sel => if String.eqb sel clipId then None else Some sel
        | None => None
        end)
       (pixelsPerSecond state) (colorRegions state))
    (playback e).

Definition reorderClips (activeId overId : string) (e : Editor) : Editor :=
  if String.eqb activeId overId then e
  else
    let state := timeline e in
    match findIndex (has_id activeId) (clips state),
          findIndex (has_id overId) (clips state) with
    | Some oldIndex, Some newIndex =>
        match nth_error (clips state) oldIndex with
        | Some movedClip =>
            let newClips :=
              spliceIn newIndex movedClip
                       (spliceOut oldIndex (clips state)) in
            mkEditor (set_clips state (recalculatePositions newClips))
                     (playback e)
        | None => e
        end
    | _, _ => e
    end.

(** The callback of [state.clips.map] in [trimClipStart]. *)
Definition trimStartOf (clipId : string) (newSourceInPointSeconds : Q)
    (clip : TimelineClip) : TimelineClip :=
  if negb (has_id clipId clip) then clip
  else
    let clampedInPoint := clampTrimStart clip newSourceInPointSeconds in
    let minAllowedInPoint :=
      sourceInPointSeconds clip - startSeconds (trimmed clip) in
    let finalInPoint := Qmax minAllowedInPoint clampedInPoint in
    let delta := finalInPoint - sourceInPointSeconds clip in
    if delta =? 0 then clip
    else
      mkClip (id clip) (sourceId clip) finalInPoint
             (sourceOutPointSeconds clip) (timelinePositionSeconds clip)
             (mkTrimmed (Qmax 0 (startSeconds (trimmed clip) + delta))
                        (endSeconds (trimmed clip))).

Definition trimClipStart (clipId : string) (newSourceInPointSeconds : Q)
    (e : Editor) : Editor :=
  let state := timeline e in
  let oldClips := clips state in
  let updatedClips :=
    recalculatePositions
      (map (trimStartOf clipId newSourceInPointSeconds) (clips state)) in
  mkEditor (set_clips state updatedClips)
           (adjustPlayheadForTrim clipId oldClips updatedClips (playback e)).

(** The callback of [state.clips.map] in [trimClipEnd]. *)
Definition trimEndOf (clipId : string) (newSourceOutPointSeconds : Q)
    (clip : TimelineClip) : TimelineClip :=
  if negb (has_id clipId clip) then clip
  else
    match getSource (sourceId clip) with
    | None => clip
    | Some source =>
        let clampedOutPoint :=
          clampTrimEnd clip newSourceOutPointSeconds
                       (durationInSeconds source) in
        let maxAllowedOutPoint :=
          sourceOutPointSeconds clip + endSeconds (trimmed clip) in
        let finalOutPoint := Qmin maxAllowedOutPoint clampedOutPoint in
        let delta := sourceOutPointSeconds clip - finalOutPoint in
        if delta =? 0 then clip
        else
          mkClip (id clip) (sourceId clip) (sourceInPointSeconds clip)
                 finalOutPoint (timelinePositionSeconds clip)
                 (mkTrimmed (startSeconds (trimmed clip))
                            (Qmax 0 (endSeconds (trimmed clip) + delta)))
    end.

Definition trimClipEnd (clipId : string) (newSourceOutPointSeconds : Q)
    (e : Editor) : Editor :=
  let state := timeline e in
  let oldClips := clips state in
  let updatedClips :=
    recalculatePositions
      (map (trimEndOf clipId newSourceOutPointSeconds) (clips state)) in
  mkEditor (set_clips state updatedClips)
           (adjustPlayheadForTrim clipId oldClips updatedClips (playback e)).

Definition splitClip (clipId : string) (atTimelineTimeSeconds : Q)
    (newId : string) (e : Editor) : Editor :=
  match find (has_id clipId) (clips (timeline e)) with
  | None => e
  | Some clip =>
      match createSplitClips clip atTimelineTimeSeconds newId with
      | None => e
      | Some (firstClip, secondClip) =>
          let newClips :=
            flat_map (fun c => if has_id clipId c
                               then [firstClip; secondClip] else [c])
                     (clips (timeline e)) in
          mkEditor (set_clips (timeline e) (recalculatePositions newClips))
                   (playback e)
      end
  end.

Definition selectClip (clipId : option string) (e : Editor) : Editor :=
  mkEditor (mkTimeline (clips (timeline e)) clipId
                       (pixelsPerSecond (timeline e))
                       (colorRegions (timeline e)))
           (playback e).

Definition getClip (clipId : string) (e : Editor) : option TimelineClip :=
  find (has_id clipId) (clips (timeline e)).

Definition setPixelsPerSecond (pps : Q) (e : Editor) : Editor :=
  mkEditor (mkTimeline (clips (timeline e)) (selectedClipId (timeline e))
              (Qmax MIN_PIXELS_PER_SECOND (Qmin MAX_PIXELS_PER_SECOND pps))
              (colorRegions (timeline e)))
           (playback e).

Definition clearClips (e : Editor) : Editor :=
  mkEditor (mkTimeline [] None (pixelsPerSecond (timeline e))
                       (colorRegions (timeline e)))
           (playback e).

(** One call of the mutation API; the identifiers drawn by [generateId]
    are part of the call. *)
Inductive Mutation :=
| AddClip (sourceId newId : string)
| RemoveClip (clipId : string)
| ReorderClips (activeId overId : string)
| SplitClip (clipId : string) (atTimelineTimeSeconds : Q) (newId : string)
| TrimClipStart (clipId : string) (newSourceInPointSeconds : Q)
| TrimClipEnd (clipId : string) (newSourceOutPointSeconds : Q)
| ClearClips.

Definition apply_mutation (m : Mutation) (e : Editor) : Editor :=
  match m with
  | AddClip s n => addClip s n e
  | RemoveClip c => removeClip c e
  | ReorderClips a o => reorderClips a o e
  | SplitClip c t n => splitClip c t n e
  | TrimClipStart c p => trimClipStart c p e
  | TrimClipEnd c p => trimClipEnd c p e
  | ClearClips => clearClips e
  end.

(** The mutations applied in order, first to last. *)
Definition run (ms : list Mutation) (e : Editor) : Editor :=
  fold_left (fun e m => apply_mutation m e) ms e.

End ClipSlice.

(* ------------------------------------------------------------------ *)
(** ** Timeline store: colour slice (stores/slices/colorSlice.ts) *)

Module ColorSlice.

Definition set_colorRegions (t : TimelineStore) (rs : list ColorRegion)
  : TimelineStore :=
  mkTimeline (clips t) (selectedClipId t) (pixelsPerSecond t) rs.

Definition addColorRegion (region : ColorRegion) (state : TimelineStore)
  : TimelineStore :=
  set_colorRegions state (colorRegions state ++ [region]).

Definition removeColorRegion (regionId : string) (state : TimelineStore)
  : TimelineStore :=
  set_colorRegions state
    (filter (fun r => negb (String.eqb (cr_id r) regionId))
            (colorRegions state)).

Definition updateColorRegionProgress (regionId : string)
    (processed : Z) (frameMask : option FrameMask) (state : TimelineStore)
  : TimelineStore :=
  set_colorRegions state
    (map (fun r =>
            if negb (String.eqb (cr_id r) regionId) then r
            else
              mkRegion (cr_id r) (clipId r)
                       (match frameMask with
                        | Some fm => frameMasks r ++ [fm]
                        | None => frameMasks r
                        end)
                       (isProcessing r) (totalFrames r) processed)
         (colorRegions state)).

Definition setColorRegionComplete (regionId : string)
    (state : TimelineStore) : TimelineStore :=
  set_colorRegions state
    (map (fun r =>
            if negb (String.eqb (cr_id r) regionId) then r
            else
              mkRegion (cr_id r) (clipId r) (frameMasks r) false
                       (totalFrames r) (processedFrames r))
         (colorRegions state)).

End ColorSlice.

(* ------------------------------------------------------------------ *)
(** ** Timeline geometry (lib/utils.ts) *)

Definition getClipTrimAmounts (clip : TimelineClip) : Q * Q :=
  (startSeconds (trimmed clip), endSeconds (trimmed clip)).

(** The way the [for] loop of [calculateTimelineTimeFromVisualPosition]
    ends: by a [return], or by running off the clip array. *)
Inductive LoopExit :=
| Returned (value : Q)
| FellThrough (accumulatedTrimOffset : Q).

Section Geometry.

Variable pixelsPerSecond : Q.

(** The [for] loop of [calculatePlayheadVisualPosition] from the clip at
    the head of [cs] on; the value is what the function returns.
    [isLastClip] is [i === clips.length - 1]. *)
Fixpoint playheadLoop (timelineTimeSeconds visualOffset : Q)
    (cs : list TimelineClip) : Q :=
  match cs with
  | [] => (timelineTimeSeconds + visualOffset) * pixelsPerSecond
  | clip :: rest =>
      let clipDuration :=
        sourceOutPointSeconds clip - sourceInPointSeconds clip in
      let clipEnd := timelinePositionSeconds clip + clipDuration in
      let '(trimmedStart, trimmedEnd) := getClipTrimAmounts clip in
      let isLastClip := match rest with [] => true | _ => false end in
      if clipEnd <=? timelineTimeSeconds then
        if isLastClip then
          (clipEnd + (visualOffset + trimmedStart)) * pixelsPerSecond
        else
          playheadLoop timelineTimeSeconds
                       (visualOffset + (trimmedStart + trimmedEnd)) rest
      else if timelinePositionSeconds clip <=? timelineTimeSeconds then
        (timelineTimeSeconds + (visualOffset + trimmedStart))
        * pixelsPerSecond
      else
        (timelineTimeSeconds + visualOffset) * pixelsPerSecond
  end.

Definition calculatePlayheadVisualPosition (timelineTimeSeconds : Q)
    (cs : list TimelineClip) : Q :=
  match cs with
  | [] => timelineTimeSeconds * pixelsPerSecond
  | _ => playheadLoop timelineTimeSeconds 0 cs
  end.

(** The [for ... of] loop of [calculateTimelineTimeFromVisualPosition]. *)
Fixpoint timeLoop (visualSeconds accumulatedVisualTime
                   accumulatedTrimOffset : Q) (cs : list TimelineClip)
  : LoopExit :=
  match cs with
  | [] => FellThrough accumulatedTrimOffset
  | clip :: rest =>
      let clipDuration :=
        sourceOutPointSeconds clip - sourceInPointSeconds clip in
      let '(trimmedStart, trimmedEnd) := getClipTrimAmounts clip in
      let clipVisualStart := accumulatedVisualTime + trimmedStart in
      let clipVisualEnd := clipVisualStart + clipDuration in
      let clipVisualFullEnd := clipVisualEnd + trimmedEnd in
      if visualSeconds <? clipVisualStart then
        Returned (timelinePositionSeconds clip)
      else if (clipVisualStart <=? visualSeconds)
              && (visualSeconds <? clipVisualEnd) then
        let offsetInClip := visualSeconds - clipVisualStart in
        Returned (timelinePositionSeconds clip + offsetInClip)
      else if (clipVisualEnd <=? visualSeconds)
              && (visualSeconds <? clipVisualFullEnd) then
        Returned (timelinePositionSeconds clip + clipDuration)
      else
        timeLoop visualSeconds clipVisualFullEnd
                 (accumulatedTrimOffset + (trimmedStart + trimmedEnd)) rest
  end.

Definition calculateTimelineTimeFromVisualPosition (visualPixels : Q)
    (cs : list TimelineClip) : Q :=
  match cs with
  | [] => visualPixels / pixelsPerSecond
  | _ =>
      if pixelsPerSecond =? 0 then visualPixels / pixelsPerSecond
      else
        let visualSeconds := visualPixels / pixelsPerSecond in
        match timeLoop visualSeconds 0 0 cs with
        | Returned v => v
        | FellThrough accumulatedTrimOffset =>
            match last (map Some cs) None with
            | Some lastClip =>
                let lastClipDuration :=
                  sourceOutPointSeconds lastClip
                  - sourceInPointSeconds lastClip in
                timelinePositionSeconds lastClip + lastClipDuration
            | None => visualSeconds - accumulatedTrimOffset
            end
        end
  end.

End Geometry.

(** The ruler's pointer handler clamps before it seeks
    ([seekToPointerPosition] in components/Timeline.tsx). *)
Definition clampToTimeline (timeSeconds totalDurationSeconds : Q) : Q :=
  Qmax 0 (Qmin timeSeconds totalDurationSeconds).

(* ------------------------------------------------------------------ *)
(** ** Mask lookup (lib/tracking/clipProcessor.ts) and mask combination
       (components/SegmentOverlay.tsx) *)

Definition closerMask (timeSeconds : Q) (acc : FrameMask * Q) (fm : FrameMask)
  : FrameMask * Q :=
  let '(closest, closestDiff) := acc in
  let diff := Qabs (timeSeconds - frameTimeSeconds fm) in
  if diff <? closestDiff then (fm, diff) else (closest, closestDiff).

Definition getMaskForTime (frameMasks : list FrameMask) (timeSeconds : Q)
  : option FrameMask :=
  match frameMasks with
  | [] => None
  | [only] => Some only
  | first :: _ =>
      let closestDiff := Qabs (timeSeconds - frameTimeSeconds first) in
      Some (fst (fold_left (closerMask timeSeconds) frameMasks
                           (first, closestDiff)))
  end.

(** One mask's pass over [combined]: [combined[i] = 1] wherever
    [mask.data[i] > 0]; a typed array ignores writes past its end. *)
Fixpoint orInto (combined maskData : list Z) : list Z :=
  match combined, maskData with
  | c :: cs, d :: ds => (if (0 <? d)%Z then 1%Z else c) :: orInto cs ds
  | cs, [] => cs
  | [], _ => []
  end.

Definition combineMasks (masks : list MaskData) : option MaskData :=
  match masks with
  | [] => None
  | [only] => Some only
  | first :: _ =>
      let combined :=
        fold_left (fun combined m => orInto combined (data m)) masks
                  (repeat 0%Z (List.length (data first))) in
      Some (mkMask combined (width first) (height first))
  end.

(** The masks the preview overlay collects for the current source time,
    one per region that has any. *)
Fixpoint masksAtTime (regions : list ColorRegion) (sourceTime : Q)
  : list MaskData :=
  match regions with
  | [] => []
  | region :: rest =>
      if (0 <? List.length (frameMasks region))%nat then
        match getMaskForTime (frameMasks region) sourceTime with
        | Some frameMask => mask frameMask :: masksAtTime rest sourceTime
        | None => masksAtTime rest sourceTime
        end
      else masksAtTime rest sourceTime
  end.

(** What the preview overlay hands to the renderer ([renderOnEachFrame],
    outside click-preview mode). *)
Definition overlayMask (clipRegions : list ColorRegion) (sourceTime : Q)
  : option MaskData :=
  combineMasks (masksAtTime clipRegions sourceTime).

(* ------------------------------------------------------------------ *)
(** ** Exporter (lib/export/videoExporter.ts) *)

Fixpoint getMaskForClip (regions : list ColorRegion) (sourceTime : Q)
  : option MaskData :=
  match regions with
  | [] => None
  | region :: rest =>
      if (0 <? List.length (frameMasks region))%nat then
        match getMaskForTime (frameMasks region) sourceTime with
        | Some frameMask => Some (mask frameMask)
        | None => getMaskForClip rest sourceTime
        end
      else getMaskForClip rest sourceTime
  end.

(** The renderer calls one frame makes in [renderWithMask]. *)
Inductive RenderCall :=
| RenderIsolation (m : MaskData)
| RenderPassthrough.

Definition renderWithMask (regions : list ColorRegion) (sourceTime : Q)
  : RenderCall :=
  match getMaskForClip regions sourceTime with
  | Some m => RenderIsolation m
  | None => RenderPassthrough
  end.

Definition DEFAULT_FRAME_RATE : Q := 30.

Inductive ExportError :=
| NoClipsToExport
| NoValidVideoSources
| RendererFailed (message : string)
| FailedToLoadVideo (file : string)
| NoSupportedFormat.

(** The resources [setupExportResources] acquires, in the order it does. *)
Inductive Acquisition :=
| AcquireCanvas (w h : Z)
| AcquireRenderer
| AcquireVideoElement (source : string)
| AcquireCanvasStream (rate : Q)
| AcquireAudioContext
| AcquireRecorder (mimeType : string).

(** What the exporter asks of the browser: [MediaRecorder.isTypeSupported],
    whether a video element reaches [loadeddata], and what
    [new ColorIsolationRenderer] throws on a canvas, if it throws (no WebGL2
    context, a shader that does not compile, a program that does not
    link). *)
Record Browser := mkBrowser {
  isTypeSupported : string -> bool;
  videoLoads : VideoSource -> bool;
  rendererError : option string
}.

(** Exceptions and the log of acquired resources. *)
Module ExportM.

Definition t (A : Type) : Type :=
  list Acquisition -> list Acquisition * (ExportError + A).

Definition ret {A} (a : A) : t A := fun log => (log, inr a).

Definition throw {A} (e : ExportError) : t A := fun log => (log, inl e).

Definition bind {A B} (m : t A) (k : A -> t B) : t B :=
  fun log =>
    match m log with
    | (log', inl e) => (log', inl e)
    | (log', inr a) => k a log'
    end.

Definition acquire (r : Acquisition) : t unit :=
  fun log => (log ++ [r], inr tt).

(** Run from an empty log. *)
Definition exec {A} (m : t A) : list Acquisition * (ExportError + A) :=
  m [].

End ExportM.

Notation "x <- m ;; k" := (ExportM.bind m (fun x => k))
  (at level 61, m at next level, right associativity).
Notation "m ;;; k" := (ExportM.bind m (fun _ => k))
  (at level 61, right associativity).

Record ClipBoundary := mkBoundary {
  cb_clip : TimelineClip;
  cb_start : Q;
  cb_end : Q;
  cb_regions : list ColorRegion
}.

(** The arguments [recordTimeline] is called with; the recording loop
    itself is paced by the wall clock and is not embedded. *)
Record RecordingJob := mkJob {
  job_mimeType : string;
  job_videoElements : list string;
  job_clipBoundaries : list ClipBoundary;
  job_totalDuration : Q
}.

(** [new Set(ids)] iterated: first occurrences, in order. *)
Fixpoint uniqueInOrder (seen ids : list string) : list string :=
  match ids with
  | [] => []
  | x :: rest =>
      if existsb (String.eqb x) seen then uniqueInOrder seen rest
      else x :: uniqueInOrder (x :: seen) rest
  end.

(** JavaScript truthiness of an optional number. *)
Definition truthyZ (v : option Z) : option Z :=
  match v with
  | Some n => if (n =? 0)%Z then None else Some n
  | None => None
  end.

Section Exporter.

Variable browser : Browser.
Variable getSource : string -> option VideoSource.

Definition validateClips (cs : list TimelineClip) : ExportM.t unit :=
  match cs with
  | [] => ExportM.throw NoClipsToExport
  | _ => ExportM.ret tt
  end.

Definition validateResolution (w h : Z) : ExportM.t unit :=
  if ((w =? 0) || (h =? 0))%Z then ExportM.throw NoValidVideoSources
  else ExportM.ret tt.

Definition exportTotalDuration (cs : list TimelineClip) : Q :=
  fold_left
    (fun total clip =>
       total + (sourceOutPointSeconds clip - sourceInPointSeconds clip))
    cs 0.

(** The body of the loop of [getOutputResolution], on the running
    [maxWidth] and [maxHeight]. *)
Definition widen (acc : Z * Z) (clip : TimelineClip) : Z * Z :=
  let '(maxWidth, maxHeight) := acc in
  match getSource (sourceId clip) with
  | Some source =>
      match truthyZ (widthInPixels source),
            truthyZ (heightInPixels source) with
      | Some w, Some h => (Z.max maxWidth w, Z.max maxHeight h)
      | _, _ => (maxWidth, maxHeight)
      end
  | None => (maxWidth, maxHeight)
  end.

Definition maxDimensions (cs : list TimelineClip) : Z * Z :=
  fold_left widen cs (0%Z, 0%Z).

Definition getOutputResolution (cs : list TimelineClip) : Z * Z :=
  let '(maxWidth, maxHeight) := maxDimensions cs in
  ((maxWidth / 2) * 2, (maxHeight / 2) * 2)%Z.

Definition getMaxFrameRate (cs : list TimelineClip) : Q :=
  let maxFrameRate :=
    fold_left
      (fun maxFrameRate clip =>
         match getSource (sourceId clip) with
         | Some source =>
             if frameRate source =? 0 then maxFrameRate
             else Qmax maxFrameRate (frameRate source)
         | None => maxFrameRate
         end)
      cs 0 in
  if 0 <? maxFrameRate then maxFrameRate else DEFAULT_FRAME_RATE.

Definition getSupportedMimeType : ExportM.t string :=
  let types := ["video/webm;codecs=vp9,opus"; "video/webm;codecs=vp8,opus";
                "video/webm"]%string in
  match find (isTypeSupported browser) types with
  | Some type => ExportM.ret type
  | None => ExportM.throw NoSupportedFormat
  end.

Definition loadVideoElement (source : VideoSource) : ExportM.t unit :=
  ExportM.acquire (AcquireVideoElement (vs_id source)) ;;;
  if videoLoads browser source then ExportM.ret tt
  else ExportM.throw (FailedToLoadVideo (fileName source)).

Fixpoint loadEach (ids : list string) : ExportM.t (list string) :=
  match ids with
  | [] => ExportM.ret []
  | sid :: rest =>
      match getSource sid with
      | None => loadEach rest
      | Some source =>
          loadVideoElement source ;;;
          elements <- loadEach rest ;;
          ExportM.ret (sid :: elements)
      end
  end.

Definition prepareVideoElements (cs : list TimelineClip)
  : ExportM.t (list string) :=
  loadEach (uniqueInOrder [] (map sourceId cs)).

(** [new ColorIsolationRenderer(canvas)]. *)
Definition createRenderer : ExportM.t unit :=
  match rendererError browser with
  | Some message => ExportM.throw (RendererFailed message)
  | None => ExportM.acquire AcquireRenderer
  end.

Definition setupExportResources (cs : list TimelineClip) (w h : Z)
    (rate : Q) : ExportM.t (list string * string) :=
  ExportM.acquire (AcquireCanvas w h) ;;;
  createRenderer ;;;
  videoElements <- prepareVideoElements cs ;;
  ExportM.acquire (AcquireCanvasStream rate) ;;;
  ExportM.acquire AcquireAudioContext ;;;
  mimeType <- getSupportedMimeType ;;
  ExportM.acquire (AcquireRecorder mimeType) ;;;
  ExportM.ret (videoElements, mimeType).

Definition precomputeClipBoundaries (cs : list TimelineClip)
    (regions : list ColorRegion) : list ClipBoundary :=
  map (fun clip =>
         let duration :=
           sourceOutPointSeconds clip - sourceInPointSeconds clip in
         mkBoundary clip (timelinePositionSeconds clip)
                    (timelinePositionSeconds clip + duration)
                    (filter (fun r => String.eqb (clipId r) (id clip))
                            regions))
      cs.

(** [exportVideo] up to its call of [recordTimeline]. *)
Definition exportVideo (cs : list TimelineClip)
    (regions : list ColorRegion) : ExportM.t RecordingJob :=
  validateClips cs ;;;
  let totalDuration := exportTotalDuration cs in
  let '(w, h) := getOutputResolution cs in
  let rate := getMaxFrameRate cs in
  validateResolution w h ;;;
  resources <- setupExportResources cs w h rate ;;
  let clipBoundaries := precomputeClipBoundaries cs regions in
  ExportM.ret (mkJob (snd resources) (fst resources) clipBoundaries
                     totalDuration).

End Exporter.

(* ------------------------------------------------------------------ *)
(** ** Undo history of the timeline store (stores/timelineStore.ts) *)

(** What [partialize] keeps of a colour region. *)
Record RegionSummary := mkSummary {
  rs_id : string;
  rs_clipId : string;
  rs_isProcessing : bool
}.

Record Snapshot := mkSnapshot {
  snap_clips : list TimelineClip;
  snap_colorRegions : list RegionSummary
}.

(** The callback of [state.colorRegions.map] in [partialize]. *)
Definition summary (r : ColorRegion) : RegionSummary :=
  mkSummary (cr_id r) (clipId r) (isProcessing r).

Definition partialize (state : TimelineStore) : Snapshot :=
  mkSnapshot (clips state) (map summary (colorRegions state)).

(** Two clips print to the same JSON text: the same strings and the same
    numbers, field by field. *)
Definition clipJsonEqual (a b : TimelineClip) : bool :=
  String.eqb (id a) (id b)
  && String.eqb (sourceId a) (sourceId b)
  && (sourceInPointSeconds a =? sourceInPointSeconds b)
  && (sourceOutPointSeconds a =? sourceOutPointSeconds b)
  && (timelinePositionSeconds a =? timelinePositionSeconds b)
  && (startSeconds (trimmed a) =? startSeconds (trimmed b))
  && (endSeconds (trimmed a) =? endSeconds (trimmed b)).

(** [JSON.stringify(a) === JSON.stringify(b)] on clip arrays. *)
Fixpoint clipsJsonEqual (a b : list TimelineClip) : bool :=
  match a, b with
  | [], [] => true
  | x :: a', y :: b' => clipJsonEqual x y && clipsJsonEqual a' b'
  | _, _ => false
  end.

(** The [for] loop of [shallowEqualColorRegions], run once the lengths
    are known to agree. *)
Fixpoint regionsLoop (a b : list RegionSummary) : bool :=
  match a, b with
  | regionA :: a', regionB :: b' =>
      if negb (String.eqb (rs_id regionA) (rs_id regionB))
         || negb (String.eqb (rs_clipId regionA) (rs_clipId regionB))
         || negb (Bool.eqb (rs_isProcessing regionA) (rs_isProcessing regionB))
      then false
      else regionsLoop a' b'
  | _, _ => true
  end.

Definition shallowEqualColorRegions (a b : Snapshot) : bool :=
  if negb (clipsJsonEqual (snap_clips a) (snap_clips b)) then false
  else if negb (List.length (snap_colorRegions a)
                =? List.length (snap_colorRegions b))%nat then false
  else regionsLoop (snap_colorRegions a) (snap_colorRegions b).

Definition HISTORY_LIMIT : nat := 50.

(** Modelled from the spec: the [temporal] middleware that keeps the undo
    history is the zundo package, which is not under src/; timelineStore.ts
    only configures it with [partialize], [equality] and [limit].  Following
    the specification (every mutation is snapshotted; the history is
    bounded, the oldest entries being evicted past the depth of 50; equal
    snapshots add nothing to the undo log; a new mutation after an undo
    discards the stale future), a [set] pushes the snapshot taken before it
    on [pastStates] unless [equality] holds of it and the snapshot taken
    after; a push at the limit first drops the oldest entry and always
    empties [futureStates]. *)
Module Temporal.

Record History := mkHistory {
  pastStates : list Snapshot;
  futureStates : list Snapshot
}.

Definition handleSet (pastState : Snapshot) (h : History) : History :=
  let kept :=
    if (HISTORY_LIMIT <=? List.length (pastStates h))%nat
    then tl (pastStates h) else pastStates h in
  mkHistory (kept ++ [pastState]) [].

Definition temporalHandleSet (before after : TimelineStore) (h : History)
  : History :=
  let pastState := partialize before in
  let currentState := partialize after in
  if shallowEqualColorRegions pastState currentState then h
  else handleSet pastState h.

End Temporal.

(* ------------------------------------------------------------------ *)
(** ** Active clip lookup (lib/utils.ts) *)

Record ActiveClipPlaybackInfo := mkActive {
  ac_clip : TimelineClip;
  currentSourceTimeSeconds : Q;
  ac_source : VideoSource
}.

(** The predicate of [clips.find] in [getActiveClipAtTime]. *)
Definition spansTime (timeSeconds : Q) (c : TimelineClip) : bool :=
  let clipDurationSeconds :=
    sourceOutPointSeconds c - sourceInPointSeconds c in
  (timelinePositionSeconds c <=? timeSeconds)
  && (timeSeconds <=? timelinePositionSeconds c + clipDurationSeconds).

Definition getActiveClipAtTime (timeSeconds : Q) (cs : list TimelineClip)
    (getSource : string -> option VideoSource)
  : option ActiveClipPlaybackInfo :=
  match find (spansTime timeSeconds) cs with
  | None => None
  | Some clip =>
      match getSource (sourceId clip) with
      | None => None
      | Some source =>
          let offsetInClipSeconds :=
            timeSeconds - timelinePositionSeconds clip in
          let currentSourceTimeSeconds :=
            sourceInPointSeconds clip + offsetInClipSeconds in
          Some (mkActive clip currentSourceTimeSeconds source)
      end
  end.

(* ------------------------------------------------------------------ *)
(** ** The render loop of the exporter (lib/export/videoExporter.ts) *)

Definition SEEK_THRESHOLD_SECONDS : Q := 1 # 10.

(** [Math.round]: the nearest integer, halves upwards. *)
Definition Math_round (x : Q) : Z := Qfloor (x + (1 # 2)).

Record ExportProgress := mkProgress {
  ep_currentTime : Q;
  ep_totalDuration : Q;
  ep_percentage : Z
}.

(** The value [reportProgress] hands to the callback. *)
Definition reportProgress (elapsed totalDuration : Q) : ExportProgress :=
  mkProgress elapsed totalDuration
    (Z.min 100 (Math_round ((elapsed / totalDuration) * 100))).

(** The [while] loop of [advanceClipIndex] over the boundaries from
    [index] on. *)
Fixpoint advanceFrom (rest : list ClipBoundary) (index : nat) (elapsed : Q)
  : nat :=
  match rest with
  | [] => index
  | boundary :: rest' =>
      if cb_end boundary <=? elapsed then advanceFrom rest' (S index) elapsed
      else index
  end.

Definition advanceClipIndex (currentIndex : nat)
    (boundaries : list ClipBoundary) (elapsed : Q) : nat :=
  advanceFrom (skipn currentIndex boundaries) currentIndex elapsed.

Definition calculateSourceTime (clipData : ClipBoundary) (elapsed : Q) : Q :=
  let clipOffset := elapsed - cb_start clipData in
  sourceInPointSeconds (cb_clip clipData) + clipOffset.

(** What the export reads and writes of an [HTMLVideoElement]. *)
Record VideoElement := mkVideoElement {
  ve_currentTime : Q;
  ve_paused : bool
}.

(** [syncVideoPlayback]: the element after the call.  It is sought only
    when it has drifted more than the threshold from the source time, and
    it is set playing if it was paused. *)
Definition syncVideoPlayback (video : VideoElement) (sourceTime : Q)
  : VideoElement :=
  let video :=
    if SEEK_THRESHOLD_SECONDS <? Qabs (ve_currentTime video - sourceTime)
    then mkVideoElement sourceTime (ve_paused video)
    else video in
  if ve_paused video then mkVideoElement (ve_currentTime video) false
  else video.

(** What one frame draws: nothing ([renderer.clear()]), or the current
    frame of a source's element as [syncVideoPlayback] leaves it
    ([renderer.updateVideo]), composited as [renderWithMask] says. *)
Inductive FrameAction :=
| ClearFrame
| DrawFrame (source : string) (video : VideoElement) (call : RenderCall).

(** [videoElements] is the map of loaded elements: its keys, and the
    element under each key. *)
Definition renderCurrentFrame (clipData : option ClipBoundary) (elapsed : Q)
    (videoElements : list string) (element : string -> VideoElement)
  : FrameAction :=
  match clipData with
  | None => ClearFrame
  | Some clipData =>
      if (elapsed <? cb_start clipData) || (cb_end clipData <=? elapsed)
      then ClearFrame
      else if existsb (String.eqb (sourceId (cb_clip clipData)))
                      videoElements
      then
        let video := element (sourceId (cb_clip clipData)) in
        let sourceTime := calculateSourceTime clipData elapsed in
        DrawFrame (sourceId (cb_clip clipData))
                  (syncVideoPlayback video sourceTime)
                  (renderWithMask (cb_regions clipData) sourceTime)
      else ClearFrame
  end.

(** One run of [renderFrame] at wall-clock time [elapsed]: the progress
    report, the new cursor, the frame drawn, and whether the loop stops. *)
Record FrameStep := mkFrameStep {
  fs_progress : ExportProgress;
  fs_index : nat;
  fs_action : FrameAction;
  fs_stop : bool
}.

Definition renderFrame (job : RecordingJob) (element : string -> VideoElement)
    (currentClipIndex : nat) (elapsed : Q) : FrameStep :=
  let index :=
    advanceClipIndex currentClipIndex (job_clipBoundaries job) elapsed in
  mkFrameStep
    (reportProgress elapsed (job_totalDuration job))
    index
    (renderCurrentFrame (nth_error (job_clipBoundaries job) index) elapsed
                        (job_videoElements job) element)
    (job_totalDuration job <=? elapsed).

(* ------------------------------------------------------------------ *)
(** ** Object tracking (lib/tracking/objectTracker.ts) *)

Module ObjectTracker.

Record BoundingBox := mkBox {
  x : Q;
  y : Q;
  width : Q;
  height : Q
}.

Record DetectedObject := mkObject {
  box : BoundingBox;
  category : string;
  score : Q
}.

Definition calculateIoU (box1 box2 : BoundingBox) : Q :=
  let x1 := Qmax (x box1) (x box2) in
  let y1 := Qmax (y box1) (y box2) in
  let x2 := Qmin (x box1 + width box1) (x box2 + width box2) in
  let y2 := Qmin (y box1 + height box1) (y box2 + height box2) in
  if (x2 <=? x1) || (y2 <=? y1) then 0
  else
    let intersection := (x2 - x1) * (y2 - y1) in
    let area1 := width box1 * height box1 in
    let area2 := width box2 * height box2 in
    let union := area1 + area2 - intersection in
    intersection / union.

Definition isPointInBox (px py : Q) (b : BoundingBox) : bool :=
  (x b <=? px) && (px <=? x b + width b)
  && (y b <=? py) && (py <=? y b + height b).

(** The callback of [containing.reduce]. *)
Definition smaller (smallest current : DetectedObject) : DetectedObject :=
  let smallestArea := width (box smallest) * height (box smallest) in
  let currentArea := width (box current) * height (box current) in
  if currentArea <? smallestArea then current else smallest.

Definition findObjectAtPoint (objects : list DetectedObject) (px py : Q)
  : option DetectedObject :=
  match filter (fun obj => isPointInBox px py (box obj)) objects with
  | [] => None
  | first :: rest => Some (fold_left smaller rest first)
  end.

Definition DEFAULT_IOU_THRESHOLD : Q := 3 # 10.

(** The loop of [trackObject] on [(bestMatch, bestIoU)]. *)
Definition betterMatch (previousBox : BoundingBox)
    (acc : option DetectedObject * Q) (obj : DetectedObject)
  : option DetectedObject * Q :=
  let '(bestMatch, bestIoU) := acc in
  let iou := calculateIoU previousBox (box obj) in
  if bestIoU <? iou then (Some obj, iou) else (bestMatch, bestIoU).

Definition trackObject (previousBox : BoundingBox)
    (currentFrameObjects : list DetectedObject) (iouThreshold : Q)
  : option DetectedObject :=
  match currentFrameObjects with
  | [] => None
  | _ =>
      fst (fold_left (betterMatch previousBox) currentFrameObjects
                     (None, iouThreshold))
  end.

Definition getBoxCenter (b : BoundingBox) : Q * Q :=
  (x b + width b / 2, y b + height b / 2).

End ObjectTracker.

(* ------------------------------------------------------------------ *)
(** ** Clip processing (lib/tracking/clipProcessor.ts)

    The frame grabber, the object detector and the segmentation model are
    outside the program; [processClip] is embedded over what they return.
    A frame's work is inside a [try]: a detector or a model that throws
    ends that frame only. *)

(** What [runSegment] does on one frame. *)
Inductive SegmentOutcome :=
| Segmented (m : MaskData)
| NothingFound
| SegmentFailed.

Section ClipProcessor.

Import ObjectTracker.

Variable Frame : Type.
Variable extractFrame : Q -> Frame.
(** [None]: the detector throws. *)
Variable detectObjects : Frame -> option (list DetectedObject).
Variable runSegment : Frame -> Q -> Q -> SegmentOutcome.

(** The body of the [for] loop at index [i]: the new [previousBox] and
    the frame mask pushed, if any. *)
Definition processFrame (startTimeSeconds frameInterval clickX clickY : Q)
    (previousBox : option BoundingBox) (i : nat)
  : option BoundingBox * option FrameMask :=
  let time := startTimeSeconds + inject_Z (Z.of_nat i) * frameInterval in
  let frameData := extractFrame time in
  match detectObjects frameData with
  | None => (previousBox, None)
  | Some objects =>
      let tracked :=
        match previousBox with
        | Some prev => trackObject prev objects DEFAULT_IOU_THRESHOLD
        | None => findObjectAtPoint objects clickX clickY
        end in
      let center :=
        match tracked with
        | Some t => getBoxCenter (box t)
        | None =>
            match previousBox with
            | Some prev => getBoxCenter prev
            | None => (clickX, clickY)
            end
        end in
      let previousBox' :=
        match tracked with
        | Some t => Some (box t)
        | None => previousBox
        end in
      match runSegment frameData (fst center) (snd center) with
      | Segmented m => (previousBox', Some (mkFrameMask time m))
      | NothingFound => (previousBox', None)
      | SegmentFailed => (previousBox', None)
      end
  end.

(** The [for] loop from index [i] for [n] more frames. *)
Fixpoint processFrames (startTimeSeconds frameInterval clickX clickY : Q)
    (n i : nat) (previousBox : option BoundingBox) : list FrameMask :=
  match n with
  | O => []
  | S n' =>
      let '(previousBox', pushed) :=
        processFrame startTimeSeconds frameInterval clickX clickY
                     previousBox i in
      match pushed with
      | Some fm =>
          fm :: processFrames startTimeSeconds frameInterval clickX clickY
                              n' (S i) previousBox'
      | None =>
          processFrames startTimeSeconds frameInterval clickX clickY
                        n' (S i) previousBox'
      end
  end.

Definition totalFramesOf (startTimeSeconds endTimeSeconds fps : Q) : Z :=
  Qceiling ((endTimeSeconds - startTimeSeconds) * fps).

Definition processClip (startTimeSeconds endTimeSeconds clickX clickY fps : Q)
  : list FrameMask :=
  let frameInterval := 1 / fps in
  let totalFrames := totalFramesOf startTimeSeconds endTimeSeconds fps in
  processFrames startTimeSeconds frameInterval clickX clickY
                (Z.to_nat totalFrames) O None.

End ClipProcessor.

(* ------------------------------------------------------------------ *)
(** ** Calls on the two stores, in sequence *)

(** One call of the playback store's API. *)
Inductive PlaybackCall :=
| SetCurrentTime (time : Q)
| Play
| Pause
| Toggle
| Seek (time : Q)
| SeekRelative (delta : Q).

Definition apply_playback (c : PlaybackCall) (s : PlaybackStore)
  : PlaybackStore :=
  match c with
  | SetCurrentTime t => Playback.setCurrentTime t s
  | Play => Playback.play s
  | Pause => Playback.pause s
  | Toggle => Playback.toggle s
  | Seek t => Playback.seek t s
  | SeekRelative d => Playback.seekRelative d s
  end.

(** One call on either store. *)
Inductive EditorCall :=
| OnTimeline (m : Mutation)
| OnPlayback (c : PlaybackCall).

Definition apply_call (getSource : string -> option VideoSource)
    (c : EditorCall) (e : Editor) : Editor :=
  match c with
  | OnTimeline m => apply_mutation getSource m e
  | OnPlayback p => mkEditor (timeline e) (apply_playback p (playback e))
  end.

Definition run_calls (getSource : string -> option VideoSource)
    (cs : list EditorCall) (e : Editor) : Editor :=
  fold_left (fun e c => apply_call getSource c e) cs e.

(* ------------------------------------------------------------------ *)
(** ** Scrubbing on the ruler (components/Timeline.tsx) *)

(** [seekToPointerPosition]: [clientX] is the pointer's position and
    [rectLeft] the left edge of the ruler. *)
Definition seekToPointerPosition (clientX rectLeft : Q) (e : Editor)
  : Editor :=
  let x := Qmax 0 (clientX - rectLeft) in
  let timeSeconds :=
    calculateTimelineTimeFromVisualPosition (pixelsPerSecond (timeline e)) x
      (clips (timeline e)) in
  mkEditor (timeline e)
    (Playback.seek (Qmax 0 (Qmin timeSeconds (getDuration e))) (playback e)).

(* ------------------------------------------------------------------ *)
(** ** Names for what the exporter acquires *)

(** The registered sources among [ids], in order. *)
Definition registeredSources (getSource : string -> option VideoSource)
    (ids : list string) : list VideoSource :=
  flat_map (fun sid => match getSource sid with
                       | Some s => [s]
                       | None => []
                       end) ids.

(** The identifiers among [ids] that are registered, in order. *)
Definition registeredIds (getSource : string -> option VideoSource)
    (ids : list string) : list string :=
  filter (fun sid => match getSource sid with
                     | Some _ => true
                     | None => false
                     end) ids.

(** The formats [getSupportedMimeType] tries, in its order. *)
Definition mimeTypePreference : list string :=
  ["video/webm;codecs=vp9,opus"; "video/webm;codecs=vp8,opus";
   "video/webm"]%string.


(* ------------------------------------------------------------------ *)
(** ** Dragging a trim handle (hooks/useClipTrim.ts) *)

Inductive TrimMode :=
| TrimStartMode
| TrimEndMode.

Record TrimState := mkTrimState {
  ts_mode : TrimMode;
  startX : Q;
  originalInPoint : Q;
  originalOutPoint : Q
}.

Record PendingTrim := mkPending {
  inPoint : Q;
  outPoint : Q
}.

(** The two pieces of state [handleTrimPointerDown] sets. *)
Definition handleTrimPointerDown (clip : TimelineClip) (clientX : Q)
    (mode : TrimMode) : TrimState * PendingTrim :=
  (mkTrimState mode clientX (sourceInPointSeconds clip)
               (sourceOutPointSeconds clip),
   mkPending (sourceInPointSeconds clip) (sourceOutPointSeconds clip)).

(** The pending trim after [handleTrimPointerMove]; without a trim state
    the handler returns at once. *)
Definition handleTrimPointerMove (pixelsPerSecond : Q)
    (trimState : option TrimState) (pendingTrim : option PendingTrim)
    (clientX sourceDuration : Q) : option PendingTrim :=
  match trimState with
  | None => pendingTrim
  | Some currentTrimState =>
      let deltaX := clientX - startX currentTrimState in
      let deltaSeconds := deltaX / pixelsPerSecond in
      match ts_mode currentTrimState with
      | TrimStartMode =>
          let newInPoint :=
            Qmax 0 (Qmin (originalInPoint currentTrimState + deltaSeconds)
                         (originalOutPoint currentTrimState - JsNum.tenth)) in
          Some (mkPending newInPoint (originalOutPoint currentTrimState))
      | TrimEndMode =>
          let newOutPoint :=
            Qmax (originalInPoint currentTrimState + JsNum.tenth)
                 (Qmin (originalOutPoint currentTrimState + deltaSeconds)
                       sourceDuration) in
          Some (mkPending (originalInPoint currentTrimState) newOutPoint)
      end
  end.

(** The store call of [finishTrim]. *)
Definition finishTrim (getSource : string -> option VideoSource)
    (clip : TimelineClip) (trimState : option TrimState)
    (pendingTrim : option PendingTrim) (e : Editor) : Editor :=
  match trimState, pendingTrim with
  | Some currentTrimState, Some currentPendingTrim =>
      match ts_mode currentTrimState with
      | TrimStartMode =>
          trimClipStart (id clip) (inPoint currentPendingTrim) e
      | TrimEndMode =>
          trimClipEnd getSource (id clip) (outPoint currentPendingTrim) e
      end
  | _, _ => e
  end.

(** What the clip shows while the handle is dragged. *)
Definition displayInPoint (clip : TimelineClip)
    (pendingTrim : option PendingTrim) : Q :=
  match pendingTrim with
  | Some p => inPoint p
  | None => sourceInPointSeconds clip
  end.

Definition displayOutPoint (clip : TimelineClip)
    (pendingTrim : option PendingTrim) : Q :=
  match pendingTrim with
  | Some p => outPoint p
  | None => sourceOutPointSeconds clip
  end.

Definition displayTrimmedStart (clip : TimelineClip)
    (pendingTrim : option PendingTrim) : Q :=
  let pendingTrimStartDelta :=
    match pendingTrim with
    | Some p => inPoint p - sourceInPointSeconds clip
    | None => 0
    end in
  Qmax 0 (startSeconds (trimmed clip) + pendingTrimStartDelta).

Definition displayTrimmedEnd (clip : TimelineClip)
    (pendingTrim : option PendingTrim) : Q :=
  let pendingTrimEndDelta :=
    match pendingTrim with
    | Some p => sourceOutPointSeconds clip - outPoint p
    | None => 0
    end in
  Qmax 0 (endSeconds (trimmed clip) + pendingTrimEndDelta).

(* ------------------------------------------------------------------ *)
(** ** Preview playback (hooks/useVideoPlayback.ts) and the Space key
       (hooks/useKeyboardShortcuts.ts) *)

Definition END_THRESHOLD_SECONDS : Q := 1 # 20.
Definition CLIP_TRANSITION_OFFSET_SECONDS : Q := 1 # 100.

(** One run of [updateTime]: the stores after it, whether it set the
    hook's [isEnded] flag, and whether it asked for another animation
    frame. *)
Record Tick := mkTick {
  tick_editor : Editor;
  tick_ended : bool;
  tick_again : bool
}.

(** [updateTime] for the active clip [clip], on the video element's
    [paused] and [currentTime]. *)
Definition updateTime (clip : TimelineClip) (videoPaused : bool)
    (videoCurrentTime : Q) (e : Editor) : Tick :=
  if videoPaused then mkTick e false false
  else
    let sourceTime := videoCurrentTime in
    let duration := getDuration e in
    let timelinePosition :=
      timelinePositionSeconds clip + (sourceTime - sourceInPointSeconds clip) in
    let clipEnded :=
      sourceOutPointSeconds clip - END_THRESHOLD_SECONDS <=? sourceTime in
    if clipEnded then
      let clipEndOnTimeline :=
        timelinePositionSeconds clip
        + (sourceOutPointSeconds clip - sourceInPointSeconds clip) in
      let isLastClip :=
        duration - END_THRESHOLD_SECONDS <=? clipEndOnTimeline in
      if isLastClip then
        mkTick (mkEditor (timeline e)
                  (Playback.setCurrentTime duration
                     (Playback.pause (playback e))))
               true false
      else
        mkTick (mkEditor (timeline e)
                  (Playback.setCurrentTime
                     (clipEndOnTimeline + CLIP_TRANSITION_OFFSET_SECONDS)
                     (playback e)))
               false false
    else
      mkTick (mkEditor (timeline e)
                (Playback.setCurrentTime timelinePosition (playback e)))
             false true.

(** What a play control does: the stores after it, whether it cleared
    the hook's [isEnded] flag, and whether it scheduled a [play()] for
    later. *)
Record PlayToggle := mkPlayToggle {
  toggled : Editor;
  clearsEnded : bool;
  playsLater : bool
}.

(** [handleSpaceKey] of the keyboard shortcuts. *)
Definition handleSpaceKey (getSource : string -> option VideoSource)
    (e : Editor) : PlayToggle :=
  let toggle :=
    mkPlayToggle (mkEditor (timeline e) (Playback.toggle (playback e)))
                 false false in
  if isPlaying (playback e) then toggle
  else if (List.length (clips (timeline e)) =? 0)%nat then
    mkPlayToggle e false false
  else
    match getActiveClipAtTime (currentTime (playback e)) (clips (timeline e))
                              getSource with
    | Some _ => toggle
    | None =>
        mkPlayToggle (mkEditor (timeline e) (Playback.seek 0 (playback e)))
                     false true
    end.

(** [handleTogglePlay] of the preview's play button. *)
Definition handleTogglePlay (getSource : string -> option VideoSource)
    (e : Editor) : PlayToggle :=
  let toggle :=
    mkPlayToggle (mkEditor (timeline e) (Playback.toggle (playback e)))
                 false false in
  if isPlaying (playback e) then toggle
  else
    match getActiveClipAtTime (currentTime (playback e)) (clips (timeline e))
                              getSource with
    | Some _ => toggle
    | None =>
        if (0 <? List.length (clips (timeline e)))%nat then
          mkPlayToggle (mkEditor (timeline e) (Playback.seek 0 (playback e)))
                       true true
        else mkPlayToggle e false false
    end.

(** The scheduled [play()], once its timer fires. *)
Definition afterTimers (r : PlayToggle) : Editor :=
  if playsLater r
  then mkEditor (timeline (toggled r)) (Playback.play (playback (toggled r)))
  else toggled r.

(* ------------------------------------------------------------------ *)
(** ** The arithmetic on IEEE doubles

    A JavaScript number is a binary64 float.  The definitions above compute
    on exact rationals; the theorems on them that are stated with the
    code's own expressions and comparisons only hold for either
    arithmetic.  Where rounding decides, the functions are embedded once
    more on the kernel's binary64 floats, every operation rounded as the
    processor rounds it. *)

Module Double.

Import PrimFloat.
Local Open Scope float_scope.

(** [Math.max] and [Math.min]: NaN if an argument is NaN; of two zeros
    [Math.max] takes +0 and [Math.min] takes -0. *)
Definition Math_max (a b : float) : float :=
  if is_nan a || is_nan b then nan
  else if a <? b then b
  else if b <? a then a
  else if get_sign a then b else a.

Definition Math_min (a b : float) : float :=
  if is_nan a || is_nan b then nan
  else if a <? b then a
  else if b <? a then b
  else if get_sign a then a else b.

(** The literals [0.1] and [0.7]: the doubles nearest to 1/10 and 7/10
    (a correctly rounded quotient of two exact integers). *)
Definition tenth : float := 1 / 10.
Definition seven_tenths : float := 7 / 10.

Record TrimmedRegions := mkTrimmed {
  startSeconds : float;
  endSeconds : float
}.

Record TimelineClip := mkClip {
  id : string;
  sourceId : string;
  sourceInPointSeconds : float;
  sourceOutPointSeconds : float;
  timelinePositionSeconds : float;
  trimmed : TrimmedRegions
}.

Definition getClipDuration (clip : TimelineClip) : float :=
  sourceOutPointSeconds clip - sourceInPointSeconds clip.

Fixpoint recalculateFrom (currentPosition : float) (cs : list TimelineClip)
  : list TimelineClip :=
  match cs with
  | [] => []
  | clip :: rest =>
      mkClip (id clip) (sourceId clip) (sourceInPointSeconds clip)
             (sourceOutPointSeconds clip) currentPosition (trimmed clip)
      :: recalculateFrom (currentPosition + getClipDuration clip) rest
  end.

Definition recalculatePositions (cs : list TimelineClip)
  : list TimelineClip :=
  recalculateFrom 0 cs.

Definition calculateTotalDuration (cs : list TimelineClip) : float :=
  fold_left (fun total clip => total + getClipDuration clip) cs 0.

Definition has_id (clipId : string) (c : TimelineClip) : bool :=
  String.eqb (id c) clipId.

Definition clampTrimStart (clip : TimelineClip)
    (newSourceInPointSeconds : float) : float :=
  Math_max 0 (Math_min newSourceInPointSeconds
                       (sourceOutPointSeconds clip - tenth)).

(** The callback of [state.clips.map] in [trimClipStart]. *)
Definition trimStartOf (clipId : string) (newSourceInPointSeconds : float)
    (clip : TimelineClip) : TimelineClip :=
  if negb (has_id clipId clip) then clip
  else
    let clampedInPoint := clampTrimStart clip newSourceInPointSeconds in
    let minAllowedInPoint :=
      sourceInPointSeconds clip - startSeconds (trimmed clip) in
    let finalInPoint := Math_max minAllowedInPoint clampedInPoint in
    let delta := finalInPoint - sourceInPointSeconds clip in
    if delta =? 0 then clip
    else
      mkClip (id clip) (sourceId clip) finalInPoint
             (sourceOutPointSeconds clip) (timelinePositionSeconds clip)
             (mkTrimmed (Math_max 0 (startSeconds (trimmed clip) + delta))
                        (endSeconds (trimmed clip))).

(** The [clips] array the store holds after [trimClipStart]. *)
Definition trimClipStart (clipId : string) (newSourceInPointSeconds : float)
    (cs : list TimelineClip) : list TimelineClip :=
  recalculatePositions (map (trimStartOf clipId newSourceInPointSeconds) cs).

Definition createSplitClips (clip : TimelineClip)
    (atTimelineTimeSeconds : float) (newId : string)
  : option (TimelineClip * TimelineClip) :=
  let clipDuration := getClipDuration clip in
  let clipEnd := timelinePositionSeconds clip + clipDuration in
  if (atTimelineTimeSeconds <=? timelinePositionSeconds clip)
     || (clipEnd <=? atTimelineTimeSeconds)
  then None
  else
    let splitOffset := atTimelineTimeSeconds - timelinePositionSeconds clip in
    let sourceSplitTime := sourceInPointSeconds clip + splitOffset in
    let firstClip :=
      mkClip (id clip) (sourceId clip) (sourceInPointSeconds clip)
             sourceSplitTime (timelinePositionSeconds clip)
             (mkTrimmed (startSeconds (trimmed clip)) 0) in
    let secondClip :=
      mkClip newId (sourceId clip) sourceSplitTime
             (sourceOutPointSeconds clip) atTimelineTimeSeconds
             (mkTrimmed 0 (endSeconds (trimmed clip))) in
    Some (firstClip, secondClip).

(** The [clips] array the store holds after [splitClip]. *)
Definition splitClip (clipId : string) (atTimelineTimeSeconds : float)
    (newId : string) (cs : list TimelineClip) : list TimelineClip :=
  match find (has_id clipId) cs with
  | None => cs
  | Some clip =>
      match createSplitClips clip atTimelineTimeSeconds newId with
      | None => cs
      | Some (firstClip, secondClip) =>
          recalculatePositions
            (flat_map (fun c => if has_id clipId c
                                then [firstClip; secondClip] else [c]) cs)
      end
  end.

Inductive LoopExit :=
| Returned (value : float)
| FellThrough (accumulatedTrimOffset : float).

Section Geometry.

Variable pixelsPerSecond : float.

Fixpoint playheadLoop (timelineTimeSeconds visualOffset : float)
    (cs : list TimelineClip) : float :=
  match cs with
  | [] => (timelineTimeSeconds + visualOffset) * pixelsPerSecond
  | clip :: rest =>
      let clipDuration :=
        sourceOutPointSeconds clip - sourceInPointSeconds clip in
      let clipEnd := timelinePositionSeconds clip + clipDuration in
      let trimmedStart := startSeconds (trimmed clip) in
      let trimmedEnd := endSeconds (trimmed clip) in
      let isLastClip := match rest with [] => true | _ => false end in
      if clipEnd <=? timelineTimeSeconds then
        if isLastClip then
          (clipEnd + (visualOffset + trimmedStart)) * pixelsPerSecond
        else
          playheadLoop timelineTimeSeconds
                       (visualOffset + (trimmedStart + trimmedEnd)) rest
      else if timelinePositionSeconds clip <=? timelineTimeSeconds then
        (timelineTimeSeconds + (visualOffset + trimmedStart))
        * pixelsPerSecond
      else
        (timelineTimeSeconds + visualOffset) * pixelsPerSecond
  end.

Definition calculatePlayheadVisualPosition (timelineTimeSeconds : float)
    (cs : list TimelineClip) : float :=
  match cs with
  | [] => timelineTimeSeconds * pixelsPerSecond
  | _ => playheadLoop timelineTimeSeconds 0 cs
  end.

Fixpoint timeLoop (visualSeconds accumulatedVisualTime
                   accumulatedTrimOffset : float) (cs : list TimelineClip)
  : LoopExit :=
  match cs with
  | [] => FellThrough accumulatedTrimOffset
  | clip :: rest =>
      let clipDuration :=
        sourceOutPointSeconds clip - sourceInPointSeconds clip in
      let trimmedStart := startSeconds (trimmed clip) in
      let trimmedEnd := endSeconds (trimmed clip) in
      let clipVisualStart := accumulatedVisualTime + trimmedStart in
      let clipVisualEnd := clipVisualStart + clipDuration in
      let clipVisualFullEnd := clipVisualEnd + trimmedEnd in
      if visualSeconds <? clipVisualStart then
        Returned (timelinePositionSeconds clip)
      else if (clipVisualStart <=? visualSeconds)
              && (visualSeconds <? clipVisualEnd) then
        let offsetInClip := visualSeconds - clipVisualStart in
        Returned (timelinePositionSeconds clip + offsetInClip)
      else if (clipVisualEnd <=? visualSeconds)
              && (visualSeconds <? clipVisualFullEnd) then
        Returned (timelinePositionSeconds clip + clipDuration)
      else
        timeLoop visualSeconds clipVisualFullEnd
                 (accumulatedTrimOffset + (trimmedStart + trimmedEnd)) rest
  end.

Definition calculateTimelineTimeFromVisualPosition (visualPixels : float)
    (cs : list TimelineClip) : float :=
  match cs with
  | [] => visualPixels / pixelsPerSecond
  | _ =>
      if pixelsPerSecond =? 0 then visualPixels / pixelsPerSecond
      else
        let visualSeconds := visualPixels / pixelsPerSecond in
        match timeLoop visualSeconds 0 0 cs with
        | Returned v => v
        | FellThrough accumulatedTrimOffset =>
            match last (map Some cs) None with
            | Some lastClip =>
                let lastClipDuration :=
                  sourceOutPointSeconds lastClip
                  - sourceInPointSeconds lastClip in
                timelinePositionSeconds lastClip + lastClipDuration
            | None => visualSeconds - accumulatedTrimOffset
            end
        end
  end.

End Geometry.

End Double.
(* ------------------------------------------------------------------ *)
(** ** Properties of the data model *)

(** Clips sit back to back from time 0: each clip starts where the
    durations of the clips before it end. *)
Definition contiguous (cs : list TimelineClip) : Prop :=
  forall i c,
    nth_error cs i = Some c ->
    timelinePositionSeconds c == calculateTotalDuration (firstn i cs).

(** The shape every clip of the data model has: a non-empty source range
    and non-negative trim memory. *)
Definition clip_shape (c : TimelineClip) : Prop :=
  sourceInPointSeconds c < sourceOutPointSeconds c
  /\ 0 <= startSeconds (trimmed c)
  /\ 0 <= endSeconds (trimmed c).

(** A clip of the data model over a source registry: its source range
    lies inside its source. *)
Definition clip_wf (getSource : string -> option VideoSource)
    (c : TimelineClip) : Prop :=
  0 <= sourceInPointSeconds c
  /\ clip_shape c
  /\ (forall s, getSource (sourceId c) = Some s ->
                sourceOutPointSeconds c <= durationInSeconds s).

(** No clip of [cs] carries the identifier [clipId]. *)
Definition id_absent (clipId : string) (cs : list TimelineClip) : Prop :=
  forall c, In c cs -> has_id clipId c = false.

(** The timeline time at which the clip [new] shows the source time that
    the clip [old] showed at timeline time [t]. *)
Definition translatedPlayhead (t : Q) (old new : TimelineClip) : Q :=
  timelinePositionSeconds new
  + ((sourceInPointSeconds old + (t - timelinePositionSeconds old))
     - sourceInPointSeconds new).

(** Playhead re-anchoring after a trim: [t] is the playhead before, [old]
    and [new] the trimmed clip before and after, [t'] the playhead after.
    Outside the old span of the clip the playhead stays.  Inside it, with
    the source time it showed still within the new in/out points, the
    playhead moves to the translated time if that is more than 0.001 s
    away and stays otherwise; with the source time below the new in-point
    it goes to the new start of the clip, above the new out-point to its
    new end. *)
Definition reanchored (t : Q) (old new : TimelineClip) (t' : Q) : Prop :=
  let start := timelinePositionSeconds old in
  let stop := timelinePositionSeconds old + getClipDuration old in
  let sourceTime := sourceInPointSeconds old + (t - start) in
  (t < start \/ stop < t -> t' = t)
  /\ (start <= t /\ t <= stop ->
      (sourceInPointSeconds new <= sourceTime
       /\ sourceTime <= sourceOutPointSeconds new ->
       (JsNum.thousandth < Qabs (translatedPlayhead t old new - t) ->
        t' == translatedPlayhead t old new)
       /\ (Qabs (translatedPlayhead t old new - t) <= JsNum.thousandth ->
           t' = t))
      /\ (sourceTime < sourceInPointSeconds new ->
          t' == timelinePositionSeconds new)
      /\ (sourceOutPointSeconds new < sourceTime ->
          t' == timelinePositionSeconds new + getClipDuration new)).

(** [cs] sits back to back from timeline time [p] on. *)
Fixpoint chained (p : Q) (cs : list TimelineClip) : Prop :=
  match cs with
  | [] => True
  | c :: rest =>
      timelinePositionSeconds c == p /\ chained (p + getClipDuration c) rest
  end.

(** The playhead's visual position in seconds: the loop of
    [calculatePlayheadVisualPosition] before the scaling by
    [pixelsPerSecond] (see [playheadLoop_scaled]). *)
Fixpoint playheadSeconds (timelineTimeSeconds visualOffset : Q)
    (cs : list TimelineClip) : Q :=
  match cs with
  | [] => timelineTimeSeconds + visualOffset
  | clip :: rest =>
      let clipEnd := timelinePositionSeconds clip + getClipDuration clip in
      if clipEnd <=? timelineTimeSeconds then
        match rest with
        | [] => clipEnd + (visualOffset + startSeconds (trimmed clip))
        | _ =>
            playheadSeconds timelineTimeSeconds
              (visualOffset
               + (startSeconds (trimmed clip) + endSeconds (trimmed clip)))
              rest
        end
      else if timelinePositionSeconds clip <=? timelineTimeSeconds then
        timelineTimeSeconds + (visualOffset + startSeconds (trimmed clip))
      else timelineTimeSeconds + visualOffset
  end.

(** Some clip of [cs] refers to a registered source whose width [w] and
    height [h] are both known and non-zero. *)
Definition usableDimensions (getSource : string -> option VideoSource)
    (cs : list TimelineClip) (w h : Z) : Prop :=
  exists c s,
    In c cs
    /\ getSource (sourceId c) = Some s
    /\ widthInPixels s = Some w
    /\ heightInPixels s = Some h
    /\ w <> 0%Z
    /\ h <> 0%Z.

(** Two colour regions agree on what the undo history keeps of them. *)
Definition same_identity (a b : ColorRegion) : Prop :=
  cr_id a = cr_id b /\ clipId a = clipId b /\ isProcessing a = isProcessing b.

(** A clip with its timeline position erased: what reordering carries
    along. *)
Definition unplaced (c : TimelineClip) : TimelineClip :=
  with_timelinePosition c 0.


(** [a] is the first of the elements of [l] with the smallest [key]. *)
Definition firstMin {A : Type} (key : A -> Q) (l : list A) (a : A) : Prop :=
  exists i,
    nth_error l i = Some a
    /\ (forall o, In o l -> key a <= key o)
    /\ (forall j o, (j < i)%nat -> nth_error l j = Some o -> key a < key o).

(** [a] is the first of the elements of [l] with the largest [key]. *)
Definition firstMax {A : Type} (key : A -> Q) (l : list A) (a : A) : Prop :=
  exists i,
    nth_error l i = Some a
    /\ (forall o, In o l -> key o <= key a)
    /\ (forall j o, (j < i)%nat -> nth_error l j = Some o -> key o < key a).

(** The area of a bounding box. *)
Definition boxArea (b : ObjectTracker.BoundingBox) : Q :=
  ObjectTracker.width b * ObjectTracker.height b.

(** The sampling instant of frame [i]. *)
Definition frameInstant (startTimeSeconds fps : Q) (i : nat) : Q :=
  startTimeSeconds + inject_Z (Z.of_nat i) * (1 / fps).

(** The identifier a mutation takes from [generateId], if it takes one. *)
Definition drawnId (m : Mutation) : option string :=
  match m with
  | AddClip _ newId => Some newId
  | SplitClip _ _ newId => Some newId
  | _ => None
  end.

(** The identifier the mutation draws is carried by no clip of [cs]. *)
Definition drawsFresh (m : Mutation) (cs : list TimelineClip) : Prop :=
  match drawnId m with
  | Some newId => ~ In newId (map id cs)
  | None => True
  end.

(** What no mutation takes below zero: the in-point and the two trim
    memories of a clip. *)
Definition clip_floor (c : TimelineClip) : Prop :=
  0 <= sourceInPointSeconds c
  /\ 0 <= startSeconds (trimmed c)
  /\ 0 <= endSeconds (trimmed c).
(* ------------------------------------------------------------------ *)
(** ** Sample data *)

Module Sample.

Definition source10 : VideoSource :=
  mkVideoSource "s10" 10 "ten.mp4" (Some 1920%Z) (Some 1080%Z) 30.

Definition source20 : VideoSource :=
  mkVideoSource "s20" 20 "twenty.mp4" (Some 1280%Z) (Some 720%Z) 60.

(** A video one pixel wide. *)
Definition sliver : VideoSource :=
  mkVideoSource "sliver" 3 "sliver.webm" (Some 1%Z) (Some 1080%Z) 30.

Definition registry (sourceId : string) : option VideoSource :=
  if String.eqb sourceId "s10" then Some source10
  else if String.eqb sourceId "s20" then Some source20
  else if String.eqb sourceId "sliver" then Some sliver
  else None.

(** One ten-second clip. *)
Definition oneClip : Editor :=
  addClip registry "s10" "a" initialEditor.

(** A ten-second clip followed by a twenty-second clip. *)
Definition twoClips : Editor :=
  run registry [AddClip "s10" "a"; AddClip "s20" "b"] initialEditor.

(** The first clip trimmed to source [2, 8], the second to [0, 15]. *)
Definition trimmedPair : Editor :=
  run registry
      [AddClip "s10" "a"; AddClip "s20" "b"; TrimClipStart "a" 2;
       TrimClipEnd "a" 8; TrimClipEnd "b" 15]
      initialEditor.

(** One clip on the one-pixel-wide source. *)
Definition sliverClip : TimelineClip :=
  mkClip "c" "sliver" 0 3 0 (mkTrimmed 0 0).

(** A browser that records every format and loads every video. *)
Definition browser : Browser :=
  mkBrowser (fun _ => true) (fun _ => true) None.

(** Two 2x2 masks: the top-left pixel, the bottom-right pixel. *)
Definition maskTopLeft : MaskData := mkMask [1; 0; 0; 0]%Z 2 2.
Definition maskBottomRight : MaskData := mkMask [0; 0; 0; 1]%Z 2 2.

(** Two finished regions on clip "a", each with one mask at 0 s. *)
Definition regionOne : ColorRegion :=
  mkRegion "r1" "a" [mkFrameMask 0 maskTopLeft] false 1 1.
Definition regionTwo : ColorRegion :=
  mkRegion "r2" "a" [mkFrameMask 0 maskBottomRight] false 1 1.
Definition twoRegions : list ColorRegion := [regionOne; regionTwo].

(** A timeline with a region still being tracked, no mask yet. *)
Definition tracking : TimelineStore :=
  ColorSlice.addColorRegion (mkRegion "r1" "a" [] true 10 0)
                            (timeline oneClip).

(** [oneClip] with the playhead at 5 s. *)
Definition oneClipAt5 : Editor :=
  mkEditor (timeline oneClip) (Playback.setCurrentTime 5 Playback.initial).

End Sample.

(** Timelines on doubles. *)
Module DoubleSample.

Import PrimFloat.
Local Open Scope float_scope.

(** The clips of [Sample.trimmedPair]: source [2, 8] of a ten-second source
    with 2 s trimmed off either end, then source [0, 15] of a
    twenty-second source with 5 s trimmed off its end. *)
Definition trimmedPair : list Double.TimelineClip :=
  [Double.mkClip "a" "s10" 2 8 0 (Double.mkTrimmed 2 2);
   Double.mkClip "b" "s20" 0 15 6 (Double.mkTrimmed 0 5)].

(** One untrimmed clip on a ten-second source. *)
Definition tenSeconds : list Double.TimelineClip :=
  [Double.mkClip "a" "s10" 0 10 0 (Double.mkTrimmed 0 0)].

(** One untrimmed clip on a source of 29.7 s. *)
Definition longClip : list Double.TimelineClip :=
  [Double.mkClip "a" "s30" 0 (297 / 10) 0 (Double.mkTrimmed 0 0)].

(** One clip on a ten-second source with its first 8 s trimmed off. *)
Definition lateClip : list Double.TimelineClip :=
  [Double.mkClip "a" "s10" 8 10 0 (Double.mkTrimmed 8 0)].

(** The literal [1e-16]. *)
Definition tiny : float := 1 / 10000000000000000.

(** The literal [4.1]. *)
Definition fourPointOne : float := 41 / 10.

Definition zero : float := 0.
Definition two : float := 2.
Definition eight : float := 8.
Definition ten : float := 10.
Definition twenty : float := 20.
Definition fifty : float := 50.

End DoubleSample.

(* ------------------------------------------------------------------ *)
(** * Proofs *)

Module JsNumFacts.
Import JsNum.

Lemma ltb_lt a b : ltb a b = true <-> a < b.
Proof.
  unfold ltb. rewrite negb_true_iff.
  split; intros H.
  - apply Qnot_le_lt. intros Hle. apply Qle_bool_iff in Hle. congruence.
  - destruct (Qle_bool b a) eqn:E; [|reflexivity].
    apply Qle_bool_iff in E. lra.
Qed.

Lemma ltb_ge a b : ltb a b = false <-> b <= a.
Proof.
  unfold ltb. rewrite negb_false_iff. apply Qle_bool_iff.
Qed.

Lemma leb_le a b : leb a b = true <-> a <= b.
Proof. apply Qle_bool_iff. Qed.

Lemma leb_gt a b : leb a b = false <-> b < a.
Proof.
  unfold leb. split; intros H.
  - apply Qnot_le_lt. intros Hle. apply Qle_bool_iff in Hle. congruence.
  - destruct (Qle_bool a b) eqn:E; [|reflexivity].
    apply Qle_bool_iff in E. lra.
Qed.

Lemma eqb_eq a b : eqb a b = true <-> a == b.
Proof. apply Qeq_bool_iff. Qed.

Lemma eqb_neq a b : eqb a b = false <-> ~ a == b.
Proof.
  unfold eqb. split; intros H.
  - intros E. apply Qeq_bool_iff in E. congruence.
  - destruct (Qeq_bool a b) eqn:E; [|reflexivity].
    apply Qeq_bool_iff in E. contradiction.
Qed.

Lemma max_cases a b : (a <= b /\ Qmax a b == b) \/ (b <= a /\ Qmax a b == a).
Proof.
  destruct (Q.max_spec a b) as [[H E]|[H E]]; [left|right]; split; auto; lra.
Qed.

Lemma min_cases a b : (a <= b /\ Qmin a b == a) \/ (b <= a /\ Qmin a b == b).
Proof.
  destruct (Q.min_spec a b) as [[H E]|[H E]]; [left|right]; split; auto; lra.
Qed.

Lemma abs_cases a : (0 <= a /\ Qabs a == a) \/ (a <= 0 /\ Qabs a == - a).
Proof.
  destruct (Qlt_le_dec a 0) as [H|H].
  - right. split; [lra|]. apply Qabs_neg. lra.
  - left. split; [assumption|]. apply Qabs_pos. assumption.
Qed.

End JsNumFacts.

(** Case split on every [Qmax], [Qmin] and [Qabs] of the goal and context,
    leaving linear rational arithmetic. *)
Ltac js_minmax :=
  repeat match goal with
  | |- context [Qmax ?a ?b] =>
      let H := fresh "Hmax" in let E := fresh "Emax" in
      destruct (JsNumFacts.max_cases a b) as [[H E]|[H E]];
      generalize dependent (Qmax a b); intros
  | |- context [Qmin ?a ?b] =>
      let H := fresh "Hmin" in let E := fresh "Emin" in
      destruct (JsNumFacts.min_cases a b) as [[H E]|[H E]];
      generalize dependent (Qmin a b); intros
  | |- context [Qabs ?a] =>
      let H := fresh "Habs" in let E := fresh "Eabs" in
      destruct (JsNumFacts.abs_cases a) as [[H E]|[H E]];
      generalize dependent (Qabs a); intros
  | H0 : context [Qmax ?a ?b] |- _ =>
      let H := fresh "Hmax" in let E := fresh "Emax" in
      destruct (JsNumFacts.max_cases a b) as [[H E]|[H E]];
      generalize dependent (Qmax a b); intros
  | H0 : context [Qmin ?a ?b] |- _ =>
      let H := fresh "Hmin" in let E := fresh "Emin" in
      destruct (JsNumFacts.min_cases a b) as [[H E]|[H E]];
      generalize dependent (Qmin a b); intros
  | H0 : context [Qabs ?a] |- _ =>
      let H := fresh "Habs" in let E := fresh "Eabs" in
      destruct (JsNumFacts.abs_cases a) as [[H E]|[H E]];
      generalize dependent (Qabs a); intros
  end.

(** Split conjunctions only. *)
Ltac split_and := repeat match goal with |- _ /\ _ => split end.

(** Split conjunctions, introduce premises and take conjunctions in the
    context apart, until neither applies. *)
Ltac split_cases :=
  repeat (split_and; intros;
          repeat match goal with H : _ /\ _ |- _ => destruct H end).

(** Turn boolean comparisons in the context into propositions. *)
Ltac js_reflect :=
  repeat match goal with
  | H : (_ <? _) = true |- _ => apply JsNumFacts.ltb_lt in H
  | H : (_ <? _) = false |- _ => apply JsNumFacts.ltb_ge in H
  | H : (_ <=? _) = true |- _ => apply JsNumFacts.leb_le in H
  | H : (_ <=? _) = false |- _ => apply JsNumFacts.leb_gt in H
  | H : (_ =? _) = true |- _ => apply JsNumFacts.eqb_eq in H
  | H : (_ =? _) = false |- _ => apply JsNumFacts.eqb_neq in H
  | H : (_ || _)%bool = true |- _ => apply orb_true_iff in H
  | H : (_ || _)%bool = false |- _ => apply orb_false_iff in H; destruct H
  | H : (_ && _)%bool = true |- _ => apply andb_true_iff in H; destruct H
  | H : (_ && _)%bool = false |- _ => apply andb_false_iff in H
  end.


(* ------------------------------------------------------------------ *)
(** ** Position recomputation *)

Section Recalculate.

Lemma total_from acc cs :
  fold_left (fun total clip => total + getClipDuration clip) cs acc
  == acc + calculateTotalDuration cs.
Proof.
  unfold calculateTotalDuration.
  revert acc. induction cs as [|c cs IH]; intros acc; simpl.
  - lra.
  - rewrite IH. rewrite (IH (0 + getClipDuration c)). lra.
Qed.

Lemma total_cons c cs :
  calculateTotalDuration (c :: cs)
  == getClipDuration c + calculateTotalDuration cs.
Proof.
  unfold calculateTotalDuration at 1. simpl. rewrite total_from. lra.
Qed.

Lemma total_app xs ys :
  calculateTotalDuration (xs ++ ys)
  == calculateTotalDuration xs + calculateTotalDuration ys.
Proof.
  induction xs as [|x xs IH]; simpl.
  - unfold calculateTotalDuration at 2. simpl. lra.
  - rewrite !total_cons, IH. lra.
Qed.

Lemma duration_with_position c p :
  getClipDuration (with_timelinePosition c p) = getClipDuration c.
Proof. reflexivity. Qed.

Lemma recalculateFrom_length p cs :
  List.length (recalculateFrom p cs) = List.length cs.
Proof.
  revert p. induction cs; intros p; simpl; [reflexivity|].
  now rewrite IHcs.
Qed.

Lemma recalculateFrom_nth cs : forall p i c,
  nth_error (recalculateFrom p cs) i = Some c ->
  timelinePositionSeconds c
  == p + calculateTotalDuration (firstn i (recalculateFrom p cs)).
Proof.
  induction cs as [|x cs IH]; intros p i c H.
  - destruct i; discriminate.
  - destruct i as [|i]; simpl in H |- *.
    + injection H as <-. simpl. unfold calculateTotalDuration. simpl. lra.
    + apply IH in H. rewrite H, total_cons, duration_with_position. lra.
Qed.

Lemma recalculate_contiguous cs : contiguous (recalculatePositions cs).
Proof.
  unfold recalculatePositions. intros i c H.
  apply recalculateFrom_nth in H. rewrite H. lra.
Qed.

Lemma nil_contiguous : contiguous [].
Proof. intros [|i] c H; discriminate. Qed.

End Recalculate.

(* ------------------------------------------------------------------ *)
(** ** C1: the mutation API keeps the clips contiguous *)

Section Contiguity.

Variable getSource : string -> option VideoSource.

Lemma apply_mutation_contiguous m e :
  contiguous (clips (timeline e)) ->
  contiguous (clips (timeline (apply_mutation getSource m e))).
Proof.
  intros He. destruct m; simpl.
  - unfold addClip. destruct (getSource sourceId0); [|assumption].
    apply recalculate_contiguous.
  - apply recalculate_contiguous.
  - unfold reorderClips.
    destruct (String.eqb activeId overId); [assumption|].
    destruct (findIndex _ _) as [oldIndex|]; [|assumption].
    destruct (findIndex _ _) as [newIndex|]; [|assumption].
    destruct (nth_error _ _); [|assumption].
    apply recalculate_contiguous.
  - unfold splitClip.
    destruct (find _ _) as [clip|]; [|assumption].
    destruct (createSplitClips _ _ _) as [[firstClip secondClip]|];
      [|assumption].
    apply recalculate_contiguous.
  - apply recalculate_contiguous.
  - apply recalculate_contiguous.
  - apply nil_contiguous.
Qed.

Lemma run_contiguous ms : forall e,
  contiguous (clips (timeline e)) ->
  contiguous (clips (timeline (run getSource ms e))).
Proof.
  induction ms as [|m ms IH]; intros e He; simpl; [assumption|].
  apply IH. now apply apply_mutation_contiguous.
Qed.

End Contiguity.

(** C1.  Whatever sequence of addClip, removeClip, reorderClips, splitClip,
    trimClipStart, trimClipEnd and clearClips calls is applied to the empty
    timeline, and whatever the source registry holds, the clip at every
    index [i] of the result starts at the sum of the durations
    (out-point minus in-point) of the clips at the indices below [i]. *)
Theorem mutations_keep_clips_contiguous :
  forall (getSource : string -> option VideoSource) (ms : list Mutation)
         (i : nat) (c : TimelineClip),
    nth_error (clips (timeline (run getSource ms initialEditor))) i = Some c ->
    timelinePositionSeconds c
    == fold_left
         (fun total clip =>
            total + (sourceOutPointSeconds clip - sourceInPointSeconds clip))
         (firstn i (clips (timeline (run getSource ms initialEditor)))) 0.
Proof.
  intros getSource ms i c H.
  apply (run_contiguous getSource ms initialEditor nil_contiguous i c H).
Qed.

Lemma mutations_keep_clips_contiguous_witness :
  timelinePositionSeconds (mkClip "b" "s20" 0 20 (0 + (10 - 0)) (mkTrimmed 0 0))
  == fold_left
       (fun total clip =>
          total + (sourceOutPointSeconds clip - sourceInPointSeconds clip))
       (firstn 1 (clips (timeline Sample.twoClips))) 0.
Proof.
  exact (mutations_keep_clips_contiguous Sample.registry
           [AddClip "s10" "a"; AddClip "s20" "b"] 1
           (mkClip "b" "s20" 0 20 (0 + (10 - 0)) (mkTrimmed 0 0)) eq_refl).
Defined.

(** The scenarios of the specification, run on the embedding. *)
Example scenario_two_clips :
  getDuration Sample.twoClips == 30
  /\ option_map timelinePositionSeconds (getClip "b" Sample.twoClips)
     = Some (0 + (10 - 0)).
Proof. split; [vm_compute|]; reflexivity. Qed.

Example scenario_trim_end :
  match clips (timeline (trimClipEnd Sample.registry "a" 6
                                     Sample.twoClips)) with
  | [a; b] =>
      timelinePositionSeconds b == 6 /\ endSeconds (trimmed a) == 4
      /\ sourceOutPointSeconds a == 6
  | _ => False
  end.
Proof. vm_compute. split_and; reflexivity. Qed.

Example scenario_split :
  match clips (timeline (splitClip "a" 4 "n" Sample.oneClip)) with
  | [first; second] =>
      sourceInPointSeconds first == 0 /\ sourceOutPointSeconds first == 4
      /\ sourceInPointSeconds second == 4 /\ sourceOutPointSeconds second == 10
      /\ timelinePositionSeconds first == 0
      /\ timelinePositionSeconds second == 4
      /\ id first = "a"%string /\ id second = "n"%string
  | _ => False
  end.
Proof. vm_compute. split_and; reflexivity. Qed.

(* ------------------------------------------------------------------ *)
(** ** C4: seeking *)

(** C4, as the code has it.  [seek] never fails, always pauses, and clamps
    the target at 0 only: a target at or below 0 gives 0, any target at or
    above 0 is stored as it is, however long the timeline; so the result
    agrees with clamping into [0, duration] exactly when the target does
    not exceed the duration.  [seekRelative] is [seek] at the current time
    plus the offset. *)
Theorem seek_pauses_and_clamps_at_zero (t : Q) (s : PlaybackStore) :
  isPlaying (Playback.seek t s) = false
  /\ (t <= 0 -> currentTime (Playback.seek t s) == 0)
  /\ (0 <= t -> currentTime (Playback.seek t s) == t)
  /\ (forall duration, t <= duration ->
        currentTime (Playback.seek t s) == clampToTimeline t duration)
  /\ (forall delta,
        Playback.seekRelative delta s
        = Playback.seek (currentTime s + delta) s).
Proof.
  unfold Playback.seek, Playback.seekRelative, clampToTimeline; simpl.
  repeat split; intros; try reflexivity; js_minmax; lra.
Qed.

Lemma seek_pauses_and_clamps_at_zero_witness :
  currentTime (Playback.seek 100 (playback Sample.oneClip)) == 100.
Proof.
  apply (proj1 (proj2 (proj2
           (seek_pauses_and_clamps_at_zero 100 (playback Sample.oneClip))))).
  lra.
Defined.

(** C4 fails as stated: on a ten-second timeline a seek to 100 s leaves
    the playhead at 100 s, not at the duration. *)
Lemma seek_past_end_not_clamped :
  getDuration Sample.oneClip == 10
  /\ ~ currentTime (Playback.seek 100 (playback Sample.oneClip))
       == clampToTimeline 100 (getDuration Sample.oneClip).
Proof.
  split.
  - vm_compute. reflexivity.
  - vm_compute. discriminate.
Qed.

(* ------------------------------------------------------------------ *)
(** ** Lists of clips and identifiers *)

Section ClipLists.

Lemma has_id_true cid c : has_id cid c = true <-> id c = cid.
Proof. apply String.eqb_eq. Qed.

Lemma has_id_false cid c : has_id cid c = false <-> id c <> cid.
Proof. apply String.eqb_neq. Qed.

Lemma recalculateFrom_app l1 l2 : forall p,
  recalculateFrom p (l1 ++ l2)
  = recalculateFrom p l1
    ++ recalculateFrom
         (fold_left (fun total clip => total + getClipDuration clip) l1 p)
         l2.
Proof.
  induction l1 as [|c l1 IH]; intros p; simpl; [reflexivity|].
  now rewrite IH.
Qed.

Lemma total_recalculateFrom cs : forall p,
  calculateTotalDuration (recalculateFrom p cs) == calculateTotalDuration cs.
Proof.
  induction cs as [|c cs IH]; intros p; simpl; [reflexivity|].
  rewrite !total_cons, IH, duration_with_position. reflexivity.
Qed.

Lemma flat_map_absent cid (pair : list TimelineClip) l :
  id_absent cid l ->
  flat_map (fun c => if has_id cid c then pair else [c]) l = l.
Proof.
  induction l as [|c l IH]; intros H; simpl; [reflexivity|].
  rewrite (H c (or_introl eq_refl)). simpl. f_equal.
  apply IH. intros x Hx. apply H. now right.
Qed.

Lemma find_first cid l1 c l2 :
  id_absent cid l1 -> has_id cid c = true ->
  find (has_id cid) (l1 ++ c :: l2) = Some c.
Proof.
  induction l1 as [|x l1 IH]; intros H Hc; simpl.
  - now rewrite Hc.
  - rewrite (H x (or_introl eq_refl)). apply IH; [|assumption].
    intros y Hy. apply H. now right.
Qed.

Lemma find_decompose cid cs clip :
  find (has_id cid) cs = Some clip ->
  exists l1 l2,
    cs = l1 ++ clip :: l2 /\ has_id cid clip = true /\ id_absent cid l1.
Proof.
  induction cs as [|x cs IH]; simpl; [discriminate|].
  destruct (has_id cid x) eqn:Hx.
  - intros [= <-]. exists [], cs. repeat split; [assumption|].
    intros c [].
  - intros H. destruct (IH H) as (l1 & l2 & -> & Hc & Hl1).
    exists (x :: l1), l2. repeat split; [assumption|].
    intros c [<-|Hin]; [assumption|now apply Hl1].
Qed.

Lemma nodup_absent_after cid l1 clip l2 :
  NoDup (map id (l1 ++ clip :: l2)) -> has_id cid clip = true ->
  id_absent cid l2.
Proof.
  intros Hnd Hc c Hin. apply has_id_true in Hc. apply has_id_false.
  intros Heq. rewrite map_app in Hnd. simpl in Hnd.
  apply NoDup_remove_2 in Hnd. apply Hnd.
  apply in_or_app. right. rewrite Hc, <- Heq. now apply in_map.
Qed.

Lemma flat_map_split cid pair l1 clip l2 :
  id_absent cid l1 -> has_id cid clip = true -> id_absent cid l2 ->
  flat_map (fun c => if has_id cid c then pair else [c]) (l1 ++ clip :: l2)
  = l1 ++ pair ++ l2.
Proof.
  intros H1 Hc H2. rewrite flat_map_app. simpl. rewrite Hc.
  now rewrite !flat_map_absent.
Qed.

Lemma contiguous_at l1 c l2 :
  contiguous (l1 ++ c :: l2) ->
  timelinePositionSeconds c == calculateTotalDuration l1.
Proof.
  intros H. specialize (H (List.length l1) c).
  rewrite nth_error_app2, Nat.sub_diag in H by apply Nat.le_refl.
  specialize (H eq_refl).
  rewrite firstn_app, Nat.sub_diag, firstn_all in H. simpl in H.
  now rewrite app_nil_r in H.
Qed.

End ClipLists.

(* ------------------------------------------------------------------ *)
(** ** C7 and C10: splitting *)

Section Split.

Lemma createSplitClips_outside clip t newId :
  t <= timelinePositionSeconds clip
  \/ timelinePositionSeconds clip + getClipDuration clip <= t ->
  createSplitClips clip t newId = None.
Proof.
  intros H. unfold createSplitClips.
  destruct (_ || _)%bool eqn:E; [reflexivity|].
  js_reflect. destruct H; lra.
Qed.

Lemma createSplitClips_inside clip t newId :
  timelinePositionSeconds clip < t ->
  t < timelinePositionSeconds clip + getClipDuration clip ->
  createSplitClips clip t newId
  = Some (mkClip (id clip) (sourceId clip) (sourceInPointSeconds clip)
                 (sourceInPointSeconds clip
                  + (t - timelinePositionSeconds clip))
                 (timelinePositionSeconds clip)
                 (mkTrimmed (startSeconds (trimmed clip)) 0),
          mkClip newId (sourceId clip)
                 (sourceInPointSeconds clip
                  + (t - timelinePositionSeconds clip))
                 (sourceOutPointSeconds clip) t
                 (mkTrimmed 0 (endSeconds (trimmed clip)))).
Proof.
  intros H1 H2. unfold createSplitClips.
  destruct (_ || _)%bool eqn:E; [|reflexivity].
  js_reflect. destruct E as [E|E]; js_reflect; lra.
Qed.

End Split.

(** C7.  Take a clip that is the only one with its identifier.  A split at
    a time at or before its timeline start, or at or after its timeline end
    (the end being start plus out-point minus in-point), returns the editor
    unchanged.  A split strictly inside replaces the clip by two clips next
    to each other: the first keeps the identifier, the in-point and the
    start trim memory and ends at in-point + (t - timeline start); the
    second takes the new identifier, begins at that source time, keeps the
    out-point and the end trim memory, and starts on the timeline where the
    first ends; the clips before and after are kept in order.  On a
    contiguous timeline the first starts where the clip started and the
    second starts at [t]. *)
Theorem splitClip_boundary_noop_inside_splits (e : Editor)
    (clipId newId : string) (t : Q)
    (clip : TimelineClip) (before after : list TimelineClip) :
  clips (timeline e) = before ++ clip :: after ->
  id clip = clipId ->
  id_absent clipId before ->
  id_absent clipId after ->
  let start := timelinePositionSeconds clip in
  let stop :=
    timelinePositionSeconds clip
    + (sourceOutPointSeconds clip - sourceInPointSeconds clip) in
  (t <= start \/ stop <= t -> splitClip clipId t newId e = e)
  /\ (start < t /\ t < stop ->
      let sourceSplitTime := sourceInPointSeconds clip + (t - start) in
      let firstClip :=
        mkClip (id clip) (sourceId clip) (sourceInPointSeconds clip)
               sourceSplitTime (calculateTotalDuration before)
               (mkTrimmed (startSeconds (trimmed clip)) 0) in
      let secondClip :=
        mkClip newId (sourceId clip) sourceSplitTime
               (sourceOutPointSeconds clip)
               (timelinePositionSeconds firstClip + getClipDuration firstClip)
               (mkTrimmed 0 (endSeconds (trimmed clip))) in
      clips (timeline (splitClip clipId t newId e))
      = recalculatePositions before
        ++ firstClip :: secondClip
        :: recalculateFrom
             (timelinePositionSeconds secondClip + getClipDuration secondClip)
             after
      /\ (contiguous (clips (timeline e)) ->
          timelinePositionSeconds firstClip == start
          /\ timelinePositionSeconds secondClip == t)).
Proof.
  intros Hcs Hid Hb Ha start stop.
  apply has_id_true in Hid.
  assert (Hfind : find (has_id clipId) (clips (timeline e)) = Some clip)
    by (rewrite Hcs; now apply find_first).
  split.
  - intros Hout. unfold splitClip. rewrite Hfind.
    now rewrite createSplitClips_outside.
  - intros [Hlo Hhi]. cbv zeta. split.
    + unfold splitClip. rewrite Hfind.
      rewrite createSplitClips_inside by assumption.
      cbn [timeline clips set_clips].
      rewrite Hcs, (flat_map_split _ _ _ _ _ Hb Hid Ha).
      unfold recalculatePositions. rewrite recalculateFrom_app.
      reflexivity.
    + intros Hc. rewrite Hcs in Hc. apply contiguous_at in Hc.
      unfold getClipDuration. simpl. subst start. split; lra.
Qed.

Lemma splitClip_boundary_noop_inside_splits_witness :
  splitClip "a" 10 "n" Sample.twoClips = Sample.twoClips.
Proof.
  refine (proj1 (splitClip_boundary_noop_inside_splits
                   Sample.twoClips "a" "n" 10
                   (mkClip "a" "s10" 0 10 0 (mkTrimmed 0 0)) []
                   [mkClip "b" "s20" 0 20 (0 + (10 - 0)) (mkTrimmed 0 0)]
                   eq_refl eq_refl _ _) _).
  - intros c [].
  - intros c [<-|[]]. reflexivity.
  - right. simpl. lra.
Defined.

(** C10.  A split strictly inside the timeline span of a clip (the only
    clip with its identifier) puts two clips in the place of the clip, the
    clips before and after kept in order and all positions recomputed.
    Both halves are on the clip's source.  The first keeps the in-point and
    ends at the cut, in-point + (t - timeline start); the second begins at
    the cut and keeps the out-point: the halves meet in the source, and the
    first has no negative length.  The total duration afterwards is the sum
    of the durations, left to right, over the clips before, the two halves
    and the clips after. *)
Theorem split_halves_meet_at_the_cut (e : Editor)
    (clipId newId : string) (t : Q)
    (clip : TimelineClip) (before after : list TimelineClip) :
  clips (timeline e) = before ++ clip :: after ->
  id clip = clipId ->
  id_absent clipId before ->
  id_absent clipId after ->
  timelinePositionSeconds clip < t ->
  t < timelinePositionSeconds clip + getClipDuration clip ->
  exists a b,
    createSplitClips clip t newId = Some (a, b)
    /\ clips (timeline (splitClip clipId t newId e))
       = recalculatePositions (before ++ a :: b :: after)
    /\ sourceId a = sourceId clip
    /\ sourceId b = sourceId clip
    /\ sourceInPointSeconds a = sourceInPointSeconds clip
    /\ sourceOutPointSeconds a
       = sourceInPointSeconds clip + (t - timelinePositionSeconds clip)
    /\ sourceInPointSeconds b = sourceOutPointSeconds a
    /\ sourceOutPointSeconds b = sourceOutPointSeconds clip
    /\ sourceInPointSeconds a <= sourceOutPointSeconds a
    /\ getDuration (splitClip clipId t newId e)
       == calculateTotalDuration (before ++ a :: b :: after).
Proof.
  intros Hcs Hid Hb Ha Hlo Hhi.
  apply has_id_true in Hid.
  assert (Hfind : find (has_id clipId) (clips (timeline e)) = Some clip)
    by (rewrite Hcs; now apply find_first).
  pose proof (createSplitClips_inside clip t newId Hlo Hhi) as E.
  eexists. eexists. split; [exact E|].
  assert (Hclips : clips (timeline (splitClip clipId t newId e))
                   = recalculatePositions
                       (before
                        ++ mkClip (id clip) (sourceId clip)
                             (sourceInPointSeconds clip)
                             (sourceInPointSeconds clip
                              + (t - timelinePositionSeconds clip))
                             (timelinePositionSeconds clip)
                             (mkTrimmed (startSeconds (trimmed clip)) 0)
                        :: mkClip newId (sourceId clip)
                             (sourceInPointSeconds clip
                              + (t - timelinePositionSeconds clip))
                             (sourceOutPointSeconds clip) t
                             (mkTrimmed 0 (endSeconds (trimmed clip)))
                        :: after)).
  { unfold splitClip. rewrite Hfind, E.
    cbn [timeline clips set_clips].
    rewrite Hcs, (flat_map_split _ _ _ _ _ Hb Hid Ha). reflexivity. }
  cbn [sourceId sourceInPointSeconds sourceOutPointSeconds].
  split_and; try reflexivity.
  - exact Hclips.
  - lra.
  - unfold getDuration. rewrite Hclips. unfold recalculatePositions.
    apply total_recalculateFrom.
Qed.

Lemma split_halves_meet_at_the_cut_witness :
  exists a b,
    createSplitClips (mkClip "a" "s10" 0 10 0 (mkTrimmed 0 0)) 4 "n"
    = Some (a, b)
    /\ clips (timeline (splitClip "a" 4 "n" Sample.twoClips))
       = recalculatePositions
           ([] ++ a :: b
               :: [mkClip "b" "s20" 0 20 (0 + (10 - 0)) (mkTrimmed 0 0)]).
Proof.
  destruct (split_halves_meet_at_the_cut Sample.twoClips "a" "n" 4
              (mkClip "a" "s10" 0 10 0 (mkTrimmed 0 0)) []
              [mkClip "b" "s20" 0 20 (0 + (10 - 0)) (mkTrimmed 0 0)]
              eq_refl eq_refl)
    as (a & b & E & Hclips & _).
  - intros c [].
  - intros c [<-|[]]. reflexivity.
  - vm_compute. reflexivity.
  - vm_compute. reflexivity.
  - exists a, b. split; assumption.
Defined.

(** On doubles a split changes the total duration, and a half can be
    empty.  Splitting an untrimmed clip of 29.7 s at 4.1 s gives halves of
    4.1 s and 25.6 s, which add up to 29.700000000000003 s.  Splitting at
    1e-16 s a clip that plays source [8, 10] from timeline time 0 passes
    the guard, 0 < 1e-16 < 2, and cuts at 8 + 1e-16, which is the double 8:
    the first half is the source range [8, 8]. *)
Lemma split_is_inexact_on_doubles :
  PrimFloat.eqb
    (Double.calculateTotalDuration
       (Double.splitClip "a" DoubleSample.fourPointOne "n"
                        DoubleSample.longClip))
    (Double.calculateTotalDuration DoubleSample.longClip)
  = false
  /\ List.length (Double.splitClip "a" DoubleSample.fourPointOne "n"
                        DoubleSample.longClip)
     = 2%nat
  /\ map (fun c => (Double.sourceInPointSeconds c,
                    Double.sourceOutPointSeconds c))
         (Double.splitClip "a" DoubleSample.tiny "n" DoubleSample.lateClip)
     = [(DoubleSample.eight, DoubleSample.eight);
        (DoubleSample.eight, DoubleSample.ten)]
  /\ map Double.getClipDuration
         (Double.splitClip "a" DoubleSample.tiny "n" DoubleSample.lateClip)
     = [DoubleSample.zero; DoubleSample.two].
Proof. repeat split; vm_compute; reflexivity. Qed.

(* ------------------------------------------------------------------ *)
(** ** Trimming one clip *)

Section TrimOne.

Variable getSource : string -> option VideoSource.

Lemma trimStartOf_other cid p c :
  has_id cid c = false -> trimStartOf cid p c = c.
Proof. intros H. unfold trimStartOf. now rewrite H. Qed.

Lemma trimEndOf_other cid p c :
  has_id cid c = false -> trimEndOf getSource cid p c = c.
Proof. intros H. unfold trimEndOf. now rewrite H. Qed.

Lemma trimStartOf_id cid p c : id (trimStartOf cid p c) = id c.
Proof.
  unfold trimStartOf. destruct (negb _); [reflexivity|].
  destruct (_ =? _); reflexivity.
Qed.

Lemma trimEndOf_id cid p c : id (trimEndOf getSource cid p c) = id c.
Proof.
  unfold trimEndOf. destruct (negb _); [reflexivity|].
  destruct (getSource _); [|reflexivity].
  destruct (_ =? _); reflexivity.
Qed.

(** The in-point after a start trim of the addressed clip. *)
Lemma trimStartOf_inPoint cid p c :
  has_id cid c = true ->
  sourceInPointSeconds (trimStartOf cid p c)
  == Qmax (sourceInPointSeconds c - startSeconds (trimmed c))
          (clampTrimStart c p)
  /\ sourceOutPointSeconds (trimStartOf cid p c) = sourceOutPointSeconds c
  /\ sourceId (trimStartOf cid p c) = sourceId c
  /\ endSeconds (trimmed (trimStartOf cid p c)) = endSeconds (trimmed c)
  /\ (0 <= startSeconds (trimmed c) ->
      0 <= startSeconds (trimmed (trimStartOf cid p c))).
Proof.
  intros H. unfold trimStartOf. rewrite H. simpl.
  destruct (_ =? _) eqn:E; js_reflect; simpl.
  - repeat split; auto. lra.
  - repeat split; auto; try reflexivity. intros _. js_minmax; lra.
Qed.

(** The out-point after an end trim of the addressed clip whose source
    is registered. *)
Lemma trimEndOf_outPoint cid p c s :
  has_id cid c = true ->
  getSource (sourceId c) = Some s ->
  sourceOutPointSeconds (trimEndOf getSource cid p c)
  == Qmin (sourceOutPointSeconds c + endSeconds (trimmed c))
          (clampTrimEnd c p (durationInSeconds s))
  /\ sourceInPointSeconds (trimEndOf getSource cid p c)
     = sourceInPointSeconds c
  /\ sourceId (trimEndOf getSource cid p c) = sourceId c
  /\ startSeconds (trimmed (trimEndOf getSource cid p c))
     = startSeconds (trimmed c)
  /\ (0 <= endSeconds (trimmed c) ->
      0 <= endSeconds (trimmed (trimEndOf getSource cid p c))).
Proof.
  intros H Hs. unfold trimEndOf. rewrite H, Hs. simpl.
  destruct (_ =? _) eqn:E; js_reflect; simpl.
  - repeat split; auto. lra.
  - repeat split; auto; try reflexivity. intros _. js_minmax; lra.
Qed.

Lemma trimEndOf_unregistered cid p c :
  getSource (sourceId c) = None -> trimEndOf getSource cid p c = c.
Proof.
  intros H. unfold trimEndOf. rewrite H. now destruct (negb _).
Qed.

Lemma trimStartOf_wf cid p c :
  clip_wf getSource c -> clip_wf getSource (trimStartOf cid p c).
Proof.
  intros Hwf. destruct (has_id cid c) eqn:Hid;
    [|now rewrite trimStartOf_other].
  destruct Hwf as (Hin & (Hlt & Hts & Hte) & Hsrc).
  destruct (trimStartOf_inPoint cid p c Hid) as (Ei & Eo & Es & Ee & Ht).
  unfold clip_wf, clip_shape. rewrite Eo, Es, Ee, Ei.
  unfold clampTrimStart, JsNum.tenth.
  repeat split; auto; js_minmax; lra.
Qed.

Lemma trimEndOf_wf cid p c :
  clip_wf getSource c -> clip_wf getSource (trimEndOf getSource cid p c).
Proof.
  intros Hwf. destruct (has_id cid c) eqn:Hid;
    [|now rewrite trimEndOf_other].
  destruct (getSource (sourceId c)) as [s|] eqn:Hs;
    [|now rewrite trimEndOf_unregistered].
  destruct Hwf as (Hin & (Hlt & Hts & Hte) & Hsrc).
  specialize (Hsrc s Hs).
  destruct (trimEndOf_outPoint cid p c s Hid Hs) as (Eo & Ei & Es & Et & Ht).
  unfold clip_wf, clip_shape. rewrite Ei, Es, Et, Eo.
  unfold clampTrimEnd, JsNum.tenth.
  repeat split; auto.
  - js_minmax; lra.
  - intros s' Hs'. rewrite Hs in Hs'. injection Hs' as <-.
    rewrite Eo. unfold clampTrimEnd. js_minmax; lra.
Qed.

End TrimOne.

(* ------------------------------------------------------------------ *)
(** ** C6: trims keep the minimum clip length *)

Lemma nth_recalculateFrom cs : forall p i c,
  nth_error cs i = Some c ->
  nth_error (recalculateFrom p cs) i
  = Some (with_timelinePosition c
            (fold_left (fun total clip => total + getClipDuration clip)
                       (firstn i cs) p)).
Proof.
  induction cs as [|x cs IH]; intros p i c H.
  - destruct i; discriminate.
  - destruct i as [|i]; simpl in *.
    + now injection H as <-.
    + now apply IH.
Qed.

(** C6.  Take a clip of the store that lies inside its source from 0 on
    and has non-negative trim memory.  The bounds out-point - 0.1 and
    in-point + 0.1 below are the numbers the code computes.

    If the clip's in-point is at most out-point - 0.1, then after
    trimClipStart with any clip identifier and any requested point the
    clip at the same index has the same out-point and an in-point from 0
    to out-point - 0.1.  If the trim addressed the clip, the new in-point
    is the larger of in-point minus the start trim memory and the
    requested point clamped into [0, out-point - 0.1]; a requested point
    inside these bounds is taken as it is.

    If the clip's out-point is at least in-point + 0.1, then after
    trimClipEnd the clip at the same index has the same in-point and an
    out-point from in-point + 0.1 up to the duration of its source.  If the
    trim addressed the clip and its source is registered, the new out-point
    is the smaller of out-point plus the end trim memory and the requested
    point clamped into [in-point + 0.1, source duration]; a requested point
    inside these bounds is taken as it is. *)
Theorem trims_clamp_a_tenth_from_the_other_edge
    (getSource : string -> option VideoSource) (e : Editor) (i : nat)
    (c : TimelineClip) (clipId : string) (p : Q) :
  nth_error (clips (timeline e)) i = Some c ->
  clip_wf getSource c ->
  (sourceInPointSeconds c <= sourceOutPointSeconds c - JsNum.tenth ->
   exists c',
      nth_error (clips (timeline (trimClipStart clipId p e))) i = Some c'
      /\ sourceOutPointSeconds c' = sourceOutPointSeconds c
      /\ 0 <= sourceInPointSeconds c'
      /\ sourceInPointSeconds c' <= sourceOutPointSeconds c - JsNum.tenth
      /\ (id c <> clipId -> sourceInPointSeconds c' = sourceInPointSeconds c)
      /\ (id c = clipId ->
          sourceInPointSeconds c'
          == Qmax (sourceInPointSeconds c - startSeconds (trimmed c))
                  (Qmax 0 (Qmin p (sourceOutPointSeconds c - JsNum.tenth)))
          /\ (0 <= p ->
              sourceInPointSeconds c - startSeconds (trimmed c) <= p ->
              p <= sourceOutPointSeconds c - JsNum.tenth ->
              sourceInPointSeconds c' == p)))
  /\ (sourceInPointSeconds c + JsNum.tenth <= sourceOutPointSeconds c ->
   exists c',
      nth_error (clips (timeline (trimClipEnd getSource clipId p e))) i
      = Some c'
      /\ sourceInPointSeconds c' = sourceInPointSeconds c
      /\ sourceInPointSeconds c + JsNum.tenth <= sourceOutPointSeconds c'
      /\ (forall s, getSource (sourceId c) = Some s ->
            sourceOutPointSeconds c' <= durationInSeconds s)
      /\ (id c <> clipId \/ getSource (sourceId c) = None ->
          sourceOutPointSeconds c' = sourceOutPointSeconds c)
      /\ (id c = clipId ->
          forall s, getSource (sourceId c) = Some s ->
          sourceOutPointSeconds c'
          == Qmin (sourceOutPointSeconds c + endSeconds (trimmed c))
                  (Qmin (durationInSeconds s)
                        (Qmax p (sourceInPointSeconds c + JsNum.tenth)))
          /\ (sourceInPointSeconds c + JsNum.tenth <= p ->
              p <= durationInSeconds s ->
              p <= sourceOutPointSeconds c + endSeconds (trimmed c) ->
              sourceOutPointSeconds c' == p))).
Proof.
  intros Hnth (Hin & (Hlt & Hts & Hte) & Hsrc).
  split; intros Hlen.
  - eexists. split.
    { unfold trimClipStart. cbn [timeline clips set_clips].
      unfold recalculatePositions.
      apply nth_recalculateFrom. rewrite nth_error_map, Hnth. reflexivity. }
    cbn [with_timelinePosition sourceInPointSeconds sourceOutPointSeconds].
    destruct (has_id clipId c) eqn:Hid.
    + destruct (trimStartOf_inPoint clipId p c Hid) as (Ei & Eo & _).
      unfold clampTrimStart, JsNum.tenth in *.
      split_and.
      * exact Eo.
      * rewrite Ei. js_minmax; lra.
      * rewrite Ei. js_minmax; lra.
      * intros Hne. apply has_id_true in Hid. congruence.
      * intros _. split; [exact Ei|]. intros. rewrite Ei. js_minmax; lra.
    + rewrite trimStartOf_other by assumption.
      split_and; auto.
      intros Heq. apply has_id_true in Heq. congruence.
  - eexists. split.
    { unfold trimClipEnd. cbn [timeline clips set_clips].
      unfold recalculatePositions.
      apply nth_recalculateFrom. rewrite nth_error_map, Hnth. reflexivity. }
    cbn [with_timelinePosition sourceInPointSeconds sourceOutPointSeconds].
    destruct (has_id clipId c) eqn:Hid.
    + destruct (getSource (sourceId c)) as [s|] eqn:Hs.
      * specialize (Hsrc s eq_refl).
        destruct (trimEndOf_outPoint getSource clipId p c s Hid Hs)
          as (Eo & Ei & _).
        unfold clampTrimEnd, JsNum.tenth in *.
        split_and.
        -- exact Ei.
        -- rewrite Eo. js_minmax; lra.
        -- intros s' [= <-]. rewrite Eo. js_minmax; lra.
        -- intros [Hne|Hnone]; [|discriminate].
           apply has_id_true in Hid. congruence.
        -- intros _ s' [= <-].
           split; [rewrite Eo; js_minmax; lra|].
           intros. rewrite Eo. js_minmax; lra.
      * rewrite trimEndOf_unregistered by assumption.
        split_and; auto; intros; discriminate.
    + rewrite trimEndOf_other by assumption.
      split_and; auto.
      intros Heq. apply has_id_true in Heq. congruence.
Qed.

Lemma trims_clamp_a_tenth_from_the_other_edge_witness :
  exists c',
    nth_error (clips (timeline (trimClipStart "a" 20 Sample.twoClips))) 0
    = Some c'
    /\ sourceOutPointSeconds c' = 10
    /\ 0 <= sourceInPointSeconds c'
    /\ sourceInPointSeconds c' <= 10 - JsNum.tenth.
Proof.
  assert (Hwf : clip_wf Sample.registry
                  (mkClip "a" "s10" 0 10 0 (mkTrimmed 0 0))).
  { unfold clip_wf, clip_shape; simpl. split_and; try lra.
    intros s [= <-]. simpl. lra. }
  assert (Hlen : 0 <= 10 - JsNum.tenth) by (unfold JsNum.tenth; lra).
  destruct (proj1 (trims_clamp_a_tenth_from_the_other_edge Sample.registry
                     Sample.twoClips 0
                     (mkClip "a" "s10" 0 10 0 (mkTrimmed 0 0)) "a" 20
                     eq_refl Hwf) Hlen)
    as (c' & Hc & Ho & H0 & Hmax & _).
  exists c'. split_and; assumption.
Defined.

(** On doubles a trim can leave less than 0.1 s.  A ten-second clip whose
    start is trimmed to 20 has its in-point clamped to 10 - 0.1, the double
    9.9; its length 10 - 9.9 is then the double 0.09999999999999964, below
    the double 0.1. *)
Lemma start_trim_leaves_less_than_a_tenth_on_doubles :
  map Double.getClipDuration DoubleSample.tenSeconds = [DoubleSample.ten]
  /\ forallb (fun c => PrimFloat.leb Double.tenth (Double.getClipDuration c))
             DoubleSample.tenSeconds
     = true
  /\ forallb (fun c => PrimFloat.ltb (Double.getClipDuration c) Double.tenth)
             (Double.trimClipStart "a" DoubleSample.twenty
                                   DoubleSample.tenSeconds)
     = true
  /\ map Double.sourceInPointSeconds
         (Double.trimClipStart "a" DoubleSample.twenty
                                   DoubleSample.tenSeconds)
     = [PrimFloat.sub DoubleSample.ten Double.tenth].
Proof. repeat split; vm_compute; reflexivity. Qed.

(* ------------------------------------------------------------------ *)
(** ** C5: playhead re-anchoring after a trim *)

Section Reanchor.

Variable getSource : string -> option VideoSource.

Lemma total_nonneg cs :
  Forall (fun c => 0 <= getClipDuration c) cs ->
  0 <= calculateTotalDuration cs.
Proof.
  induction 1 as [|c cs Hc _ IH].
  - unfold calculateTotalDuration. simpl. lra.
  - rewrite total_cons. lra.
Qed.

Lemma wf_duration_nonneg cs :
  Forall (clip_wf getSource) cs ->
  Forall (fun c => 0 <= getClipDuration c) cs.
Proof.
  apply Forall_impl. intros c (_ & (Hlt & _) & _).
  unfold getClipDuration. lra.
Qed.

(** Where the addressed clip is found after a map that keeps identifiers
    followed by position recomputation. *)
Lemma find_after_map (f : TimelineClip -> TimelineClip) cid cs old :
  (forall c, id (f c) = id c) ->
  find (has_id cid) cs = Some old ->
  exists l1 l2,
    cs = l1 ++ old :: l2
    /\ find (has_id cid) (recalculatePositions (map f cs))
       = Some (with_timelinePosition (f old)
                 (calculateTotalDuration (map f l1))).
Proof.
  intros Hf Hfind.
  destruct (find_decompose _ _ _ Hfind) as (l1 & l2 & -> & Hc & Hl1).
  exists l1, l2. split; [reflexivity|].
  unfold recalculatePositions.
  rewrite map_app, recalculateFrom_app. simpl.
  apply find_first.
  - intros c Hin. apply In_nth_error in Hin. destruct Hin as [n Hn].
    destruct (nth_error (map f l1) n) as [c0|] eqn:E0.
    + rewrite (nth_recalculateFrom _ _ _ _ E0) in Hn.
      injection Hn as <-.
      rewrite nth_error_map in E0.
      destruct (nth_error l1 n) as [c1|] eqn:E1; [|discriminate].
      injection E0 as <-.
      unfold has_id. simpl. rewrite Hf.
      apply (Hl1 c1). eapply nth_error_In; eassumption.
    + apply nth_error_None in E0.
      assert (Some c <> None) as Hne by discriminate.
      rewrite <- Hn in Hne. apply nth_error_Some in Hne.
      rewrite recalculateFrom_length in Hne. lia.
  - unfold has_id in *. simpl. now rewrite Hf.
Qed.

Lemma adjustPlayhead_reanchored cid oldClips newClips pb old new :
  find (has_id cid) oldClips = Some old ->
  find (has_id cid) newClips = Some new ->
  0 <= timelinePositionSeconds new ->
  0 <= getClipDuration new ->
  reanchored (currentTime pb) old new
    (currentTime (adjustPlayheadForTrim cid oldClips newClips pb)).
Proof.
  intros Ho Hn Hpos Hdur.
  unfold adjustPlayheadForTrim. rewrite Ho, Hn.
  unfold getSourceTimeForPlayhead, reanchored, translatedPlayhead,
    Playback.setCurrentTime, JsNum.thousandth, getClipDuration in *.
  destruct (_ || _)%bool eqn:E1.
  { js_reflect. split_cases; try reflexivity; exfalso.
    all: destruct E1 as [E1|E1]; js_reflect.
    all: lra. }
  js_reflect.
  destruct (_ && _)%bool eqn:E2.
  { js_reflect.
    destruct (_ <? _) eqn:E3; js_reflect; cbn [currentTime].
    - split_cases; try (exfalso; js_minmax; lra); js_minmax; lra.
    - split_cases; try reflexivity; exfalso; js_minmax; lra. }
  js_reflect.
  destruct (_ <? _) eqn:E3; js_reflect; cbn [currentTime].
  - split_cases; try (exfalso; js_minmax; lra); js_minmax; lra.
  - destruct E2 as [E2|E2]; js_reflect; [lra|].
    split_cases; try (exfalso; js_minmax; lra); js_minmax; lra.
Qed.

End Reanchor.




(* ------------------------------------------------------------------ *)
(** ** C3: visual position and back *)

Lemma list_eq_dec_nil {A} (l : list A) : {l = []} + {l <> []}.
Proof. destruct l; [now left|right; discriminate]. Qed.

Section RoundTrip.

Variable pps : Q.
Hypothesis pps_pos : 0 < pps.

Lemma playheadLoop_scaled cs : forall t off,
  playheadLoop pps t off cs = playheadSeconds t off cs * pps.
Proof.
  induction cs as [|c cs IH]; intros t off; [reflexivity|].
  cbn [playheadLoop playheadSeconds getClipTrimAmounts].
  unfold getClipDuration.
  destruct (_ <=? _); [|destruct (_ <=? _); reflexivity].
  destruct cs; [reflexivity|apply IH].
Qed.

Lemma chained_of_contiguous cs : forall p,
  (forall i c, nth_error cs i = Some c ->
               timelinePositionSeconds c
               == p + calculateTotalDuration (firstn i cs)) ->
  chained p cs.
Proof.
  induction cs as [|x cs IH]; intros p H; simpl; [exact I|].
  split.
  - rewrite (H O x eq_refl). unfold calculateTotalDuration. simpl. lra.
  - apply IH. intros i c Hi. rewrite (H (S i) c Hi).
    simpl. rewrite total_cons. lra.
Qed.

Lemma contiguous_chained cs : contiguous cs -> chained 0 cs.
Proof.
  intros H. apply chained_of_contiguous. intros i c Hi.
  rewrite (H i c Hi). lra.
Qed.

(** The visual position never lies before the visual start of the part
    of the timeline still to be scanned. *)
Lemma playheadSeconds_lower cs : forall p t off,
  chained p cs -> Forall clip_shape cs -> p <= t ->
  p + off <= playheadSeconds t off cs.
Proof.
  induction cs as [|c cs IH]; intros p t off Hch Hsh Hpt.
  - simpl. lra.
  - destruct Hch as [Hp Hch].
    pose proof (Forall_inv Hsh) as (Hlt & Hts & Hte).
    apply Forall_inv_tail in Hsh.
    cbn [playheadSeconds]. unfold getClipDuration in *.
    destruct (_ <=? _) eqn:E1; js_reflect.
    + destruct cs as [|c' cs'] eqn:Ecs; [lra|].
      rewrite <- Ecs in *.
      specialize (IH _ t
                    (off + (startSeconds (trimmed c)
                            + endSeconds (trimmed c)))
                    Hch Hsh).
      lra.
    + destruct (_ <=? _) eqn:E2; js_reflect; lra.
Qed.

Lemma chained_last cs : forall p,
  chained p cs -> cs <> [] ->
  exists lastClip,
    last (map Some cs) None = Some lastClip
    /\ timelinePositionSeconds lastClip + getClipDuration lastClip
       == p + calculateTotalDuration cs.
Proof.
  induction cs as [|c cs IH]; intros p Hch Hne; [congruence|].
  destruct Hch as [Hp Hch].
  destruct cs as [|c' cs'] eqn:Ecs.
  - exists c. split; [reflexivity|].
    unfold calculateTotalDuration. simpl. lra.
  - rewrite <- Ecs in *.
    destruct (IH _ Hch) as (l & Hl & Hend); [subst; discriminate|].
    exists l. split.
    + rewrite Ecs in *. exact Hl.
    + rewrite Hend, total_cons. lra.
Qed.

(** The two loops, clip by clip. *)
Lemma loops_roundtrip cs : forall p t off vs accV accT,
  chained p cs -> Forall clip_shape cs -> cs <> [] ->
  p <= t -> t <= p + calculateTotalDuration cs ->
  accV == p + off ->
  vs == playheadSeconds t off cs ->
  match timeLoop vs accV accT cs with
  | Returned v => v == t
  | FellThrough _ => t == p + calculateTotalDuration cs
  end.
Proof.
  induction cs as [|c cs IH];
    intros p t off vs accV accT Hch Hsh Hne Hlo Hhi Hacc Hvs;
    [congruence|].
  destruct Hch as [Hp Hch].
  pose proof (Forall_inv Hsh) as (Hlt & Hts & Hte).
  apply Forall_inv_tail in Hsh.
  rewrite total_cons in Hhi.
  cbn [playheadSeconds] in Hvs.
  cbn [timeLoop getClipTrimAmounts].
  unfold getClipDuration in *.
  destruct (_ <=? t) eqn:E1; js_reflect.
  - (* at or past the end of this clip *)
    destruct cs as [|c' cs'] eqn:Ecs.
    + (* last clip *)
      unfold calculateTotalDuration in Hhi. simpl in Hhi.
      destruct (vs <? _) eqn:F1; js_reflect; [lra|].
      destruct (_ && _)%bool eqn:F2; js_reflect; [lra|].
      destruct (_ && _)%bool eqn:F3; js_reflect; [lra|].
      simpl. rewrite total_cons. unfold calculateTotalDuration. simpl.
      unfold getClipDuration. lra.
    + rewrite <- Ecs in *.
      assert (Hne' : cs <> []) by (subst; discriminate).
      assert (Hlow := playheadSeconds_lower cs _ t
                        (off + (startSeconds (trimmed c)
                                + endSeconds (trimmed c)))
                        Hch Hsh).
      destruct (vs <? _) eqn:F1; js_reflect; [lra|].
      destruct (_ && _)%bool eqn:F2; js_reflect; [lra|].
      destruct (_ && _)%bool eqn:F3; js_reflect; [lra|].
      assert (Hvs' : vs == playheadSeconds t
                             (off + (startSeconds (trimmed c)
                                     + endSeconds (trimmed c))) cs)
        by (rewrite Hvs, Ecs; reflexivity).
      specialize (IH (p + (sourceOutPointSeconds c
                           - sourceInPointSeconds c))
                     t
                     (off + (startSeconds (trimmed c)
                             + endSeconds (trimmed c)))
                     vs
                     (accV + startSeconds (trimmed c)
                      + (sourceOutPointSeconds c - sourceInPointSeconds c)
                      + endSeconds (trimmed c))
                     (accT + (startSeconds (trimmed c)
                              + endSeconds (trimmed c)))
                     Hch Hsh Hne').
      destruct (timeLoop _ _ _ cs).
      * apply IH; try assumption; lra.
      * rewrite total_cons. unfold getClipDuration.
        rewrite IH; try assumption; lra.
  - (* before the end of this clip, hence inside it *)
    destruct (_ <=? t) eqn:E2; js_reflect; [|lra].
    destruct (vs <? _) eqn:F1; js_reflect; [lra|].
    destruct (_ && _)%bool eqn:F2; js_reflect; [lra|].
    destruct F2 as [F2|F2]; js_reflect; lra.
Qed.

Lemma visualPosition_nonempty cs t :
  cs <> [] ->
  calculatePlayheadVisualPosition pps t cs = playheadSeconds t 0 cs * pps.
Proof.
  intros Hne. destruct cs; [congruence|].
  unfold calculatePlayheadVisualPosition. apply playheadLoop_scaled.
Qed.

Lemma timeFromVisual_nonempty cs v :
  cs <> [] ->
  calculateTimelineTimeFromVisualPosition pps v cs
  = match timeLoop (v / pps) 0 0 cs with
    | Returned time => time
    | FellThrough accumulatedTrimOffset =>
        match last (map Some cs) None with
        | Some lastClip =>
            timelinePositionSeconds lastClip
            + (sourceOutPointSeconds lastClip
               - sourceInPointSeconds lastClip)
        | None => v / pps - accumulatedTrimOffset
        end
    end.
Proof.
  intros Hne. destruct cs; [congruence|].
  unfold calculateTimelineTimeFromVisualPosition.
  destruct (pps =? 0) eqn:E; js_reflect; [lra|reflexivity].
Qed.

End RoundTrip.




(* ------------------------------------------------------------------ *)
(** ** C2: the mask of a frame *)

Section Masks.

Lemma orInto_length combined : forall d,
  List.length (orInto combined d) = List.length combined.
Proof.
  induction combined as [|c cs IH]; intros [|d ds]; simpl; auto.
Qed.

Lemma orInto_nth combined : forall d i,
  (i < List.length combined)%nat ->
  nth i (orInto combined d) 0%Z
  = if (0 <? nth i d 0)%Z then 1%Z else nth i combined 0%Z.
Proof.
  induction combined as [|c cs IH]; intros d i Hi; simpl in Hi; [lia|].
  destruct d as [|x ds]; simpl.
  - now destruct i.
  - destruct i as [|i]; [reflexivity|]. apply IH. lia.
Qed.

Lemma fold_orInto_length masks : forall combined,
  List.length (fold_left (fun c m => orInto c (data m)) masks combined)
  = List.length combined.
Proof.
  induction masks as [|m ms IH]; intros combined; simpl; [reflexivity|].
  now rewrite IH, orInto_length.
Qed.

Lemma fold_orInto_nth masks : forall combined i,
  (i < List.length combined)%nat ->
  nth i (fold_left (fun c m => orInto c (data m)) masks combined) 0%Z
  = if existsb (fun m => (0 <? nth i (data m) 0)%Z) masks
    then 1%Z else nth i combined 0%Z.
Proof.
  induction masks as [|m ms IH]; intros combined i Hi; simpl;
    [reflexivity|].
  rewrite IH by now rewrite orInto_length.
  rewrite orInto_nth by assumption.
  destruct (0 <? nth i (data m) 0)%Z; simpl; [|reflexivity].
  now destruct (existsb _ ms).
Qed.

(** The overlay's combination of two or more masks is the pixelwise OR:
    a pixel of the result is 1 if some mask is set there and 0 if none
    is; the result has the size of the first mask. *)
Lemma combineMasks_is_or m1 m2 rest :
  exists r,
    combineMasks (m1 :: m2 :: rest) = Some r
    /\ width r = width m1 /\ height r = height m1
    /\ List.length (data r) = List.length (data m1)
    /\ forall i, (i < List.length (data m1))%nat ->
         nth i (data r) 0%Z
         = if existsb (fun m => (0 <? nth i (data m) 0)%Z)
                      (m1 :: m2 :: rest)
           then 1%Z else 0%Z.
Proof.
  eexists. split; [reflexivity|]. cbn [width height data].
  split_and; try reflexivity.
  - now rewrite fold_orInto_length, repeat_length.
  - intros i Hi. rewrite fold_orInto_nth by now rewrite repeat_length.
    now rewrite nth_repeat.
Qed.

(** The exporter's mask is the first of the masks the overlay would
    combine. *)
Lemma exporter_takes_first_mask regions t :
  getMaskForClip regions t = hd_error (masksAtTime regions t).
Proof.
  induction regions as [|r rs IH]; simpl; [reflexivity|].
  destruct (0 <? _)%nat; [|assumption].
  destruct (getMaskForTime _ _); [reflexivity|assumption].
Qed.

(** With no region, or no region holding a mask, the exporter finds no
    mask and renders the frame unmodified; with one region it uses that
    region's mask as it is, as the overlay does. *)
Lemma exporter_mask_up_to_one_region t :
  (forall regions,
      Forall (fun r => frameMasks r = []) regions ->
      getMaskForClip regions t = None
      /\ renderWithMask regions t = RenderPassthrough)
  /\ (forall r,
         getMaskForClip [r] t
         = option_map mask (getMaskForTime (frameMasks r) t)
         /\ getMaskForClip [r] t = overlayMask [r] t).
Proof.
  split.
  - intros regions H.
    assert (E : getMaskForClip regions t = None).
    { induction H as [|r rs Hr _ IH]; simpl; [reflexivity|].
      rewrite Hr. simpl. exact IH. }
    split; [exact E|]. unfold renderWithMask. now rewrite E.
  - intros r. unfold overlayMask.
    cbn [getMaskForClip masksAtTime].
    destruct (frameMasks r) as [|fm fms] eqn:E.
    + split; reflexivity.
    + cbn [List.length Nat.ltb Nat.leb].
      destruct (getMaskForTime (fm :: fms) t); split; reflexivity.
Qed.

End Masks.

(** C2 fails on the code.  Two regions of one clip each hold a mask at the
    current source time, one marking the top-left pixel and one the
    bottom-right pixel.  The exporter composites the frame with the first
    region's mask alone, while the pixelwise OR (which the preview overlay
    builds from the same regions) marks both pixels. *)
Theorem exporter_ignores_second_region :
  getMaskForClip Sample.twoRegions 0 = Some Sample.maskTopLeft
  /\ renderWithMask Sample.twoRegions 0 = RenderIsolation Sample.maskTopLeft
  /\ overlayMask Sample.twoRegions 0 = Some (mkMask [1; 0; 0; 1]%Z 2 2)
  /\ getMaskForClip Sample.twoRegions 0 <> overlayMask Sample.twoRegions 0.
Proof.
  split_and; try reflexivity. vm_compute. discriminate.
Qed.

(* ------------------------------------------------------------------ *)
(** ** C8: preconditions of the export *)

Section ExportPreconditions.

Variable browser : Browser.
Variable getSource : string -> option VideoSource.

Lemma truthyZ_some v n : truthyZ v = Some n <-> v = Some n /\ n <> 0%Z.
Proof.
  unfold truthyZ. destruct v as [m|].
  - destruct (m =? 0)%Z eqn:E.
    + apply Z.eqb_eq in E. split; [discriminate|].
      intros [[= ->] H]. contradiction.
    + apply Z.eqb_neq in E. split.
      * intros [= ->]. now split.
      * intros [[= ->] _]. reflexivity.
  - split; [discriminate|]. intros [H _]. discriminate.
Qed.

(** What one step does, in terms of the clip's source. *)
Lemma step_cases a b c :
  (widen getSource (a, b) c = (a, b)
   /\ forall w h, ~ usableDimensions getSource [c] w h)
  \/ (exists w h,
         widen getSource (a, b) c = (Z.max a w, Z.max b h)
         /\ usableDimensions getSource [c] w h
         /\ forall w' h', usableDimensions getSource [c] w' h' ->
                          w' = w /\ h' = h).
Proof.
  unfold widen.
  destruct (getSource (sourceId c)) as [s|] eqn:Hs.
  - destruct (truthyZ (widthInPixels s)) as [w|] eqn:Hw.
    + destruct (truthyZ (heightInPixels s)) as [h|] eqn:Hh.
      * right. exists w, h.
        apply truthyZ_some in Hw. apply truthyZ_some in Hh.
        destruct Hw as [Hw Hw0]. destruct Hh as [Hh Hh0].
        split; [reflexivity|]. split.
        -- exists c, s. repeat split; auto. now left.
        -- intros w' h' (c' & s' & [<-|[]] & Hs' & Hw' & Hh' & _).
           rewrite Hs in Hs'. injection Hs' as <-.
           split; congruence.
      * left. split; [reflexivity|].
        intros w0 h0 (c' & s' & [<-|[]] & Hs' & Hw' & Hh' & Hw0 & Hh0).
        rewrite Hs in Hs'. injection Hs' as <-.
        assert (truthyZ (heightInPixels s) = Some h0)
          by (apply truthyZ_some; now split).
        congruence.
    + left. split; [reflexivity|].
      intros w h (c' & s' & [<-|[]] & Hs' & Hw' & Hh' & Hw0 & Hh0).
      rewrite Hs in Hs'. injection Hs' as <-.
      assert (truthyZ (widthInPixels s) = Some w)
        by (apply truthyZ_some; now split).
      congruence.
  - left. split; [reflexivity|].
    intros w h (c' & s' & [<-|[]] & Hs' & _). congruence.
Qed.

Lemma usable_cons c cs w h :
  usableDimensions getSource (c :: cs) w h
  <-> usableDimensions getSource [c] w h
      \/ usableDimensions getSource cs w h.
Proof.
  split.
  - intros (c' & s & [<-|Hin] & H).
    + left. exists c, s. split; [now left|exact H].
    + right. exists c', s. split; assumption.
  - intros [(c' & s & [<-|[]] & H)|(c' & s & Hin & H)].
    + exists c, s. split; [now left|exact H].
    + exists c', s. split; [now right|exact H].
Qed.

(** The running maxima after the loop: at least the initial values, at
    least every usable dimension, and attained. *)
Lemma fold_step_spec cs : forall a b mw mh,
  fold_left (widen getSource) cs (a, b) = (mw, mh) ->
  (a <= mw /\ b <= mh)%Z
  /\ (forall w h, usableDimensions getSource cs w h ->
                  (w <= mw /\ h <= mh)%Z)
  /\ (mw = a \/ exists w h, usableDimensions getSource cs w h /\ w = mw)
  /\ (mh = b \/ exists w h, usableDimensions getSource cs w h /\ h = mh).
Proof.
  induction cs as [|c cs IH]; intros a b mw mh H; cbn [fold_left] in H.
  - injection H as <- <-. split_and; try lia; auto.
    intros w h (c & s & [] & _).
  - destruct (step_cases a b c) as [[E Hnone]|(w & h & E & Hu & Huniq)];
      rewrite E in H; apply IH in H;
      destruct H as ((Ha & Hb) & Hle & Hw & Hh).
    + split_and; try assumption.
      * intros w h Hu. apply usable_cons in Hu.
        destruct Hu as [Hu|Hu]; [now apply Hnone in Hu|now apply Hle].
      * destruct Hw as [Hw|(w & h & Hu & Hw)]; [now left|].
        right. exists w, h. split; [|assumption].
        apply usable_cons. now right.
      * destruct Hh as [Hh|(w & h & Hu & Hh)]; [now left|].
        right. exists w, h. split; [|assumption].
        apply usable_cons. now right.
    + split_and; try lia.
      * intros w' h' Hu'. apply usable_cons in Hu'.
        destruct Hu' as [Hu'|Hu'].
        -- destruct (Huniq _ _ Hu') as [-> ->]. lia.
        -- now apply Hle.
      * destruct Hw as [Hw|(w' & h' & Hu' & Hw)].
        -- destruct (Z.max_spec a w) as [[_ Em]|[_ Em]]; rewrite Em in Hw.
           ++ right. exists w, h. split; [|now symmetry].
              apply usable_cons. now left.
           ++ now left.
        -- right. exists w', h'. split; [|assumption].
           apply usable_cons. now right.
      * destruct Hh as [Hh|(w' & h' & Hu' & Hh)].
        -- destruct (Z.max_spec b h) as [[_ Em]|[_ Em]]; rewrite Em in Hh.
           ++ right. exists w, h. split; [|now symmetry].
              apply usable_cons. now left.
           ++ now left.
        -- right. exists w', h'. split; [|assumption].
           apply usable_cons. now right.
Qed.

Lemma maxDimensions_fold cs :
  maxDimensions getSource cs
  = fold_left (widen getSource) cs (0%Z, 0%Z).
Proof. reflexivity. Qed.

Lemma round_down_even_zero n : (0 <= n)%Z -> (n / 2 * 2 = 0 <-> n < 2)%Z.
Proof.
  intros Hn. split; intros H.
  - assert (n / 2 = 0)%Z as E by lia.
    apply Z.div_small_iff in E; lia.
  - rewrite Z.div_small by lia. reflexivity.
Qed.

(** When the output resolution has a zero. *)
Lemma resolution_zero cs w h :
  getOutputResolution getSource cs = (w, h) ->
  (w = 0 \/ h = 0)%Z
  <-> (forall w' h', usableDimensions getSource cs w' h' -> (w' < 2)%Z)
      \/ (forall w' h', usableDimensions getSource cs w' h' -> (h' < 2)%Z).
Proof.
  unfold getOutputResolution. rewrite maxDimensions_fold.
  destruct (fold_left (widen getSource) cs (0%Z, 0%Z)) as [mw mh] eqn:E.
  intros [= <- <-].
  destruct (fold_step_spec cs _ _ _ _ E) as ((Ha & Hb) & Hle & Hw & Hh).
  rewrite !round_down_even_zero by assumption.
  split.
  - intros [H|H]; [left|right]; intros w' h' Hu;
      destruct (Hle _ _ Hu); lia.
  - intros [H|H]; [left|right].
    + destruct Hw as [->|(w' & h' & Hu & <-)]; [lia|].
      exact (H _ _ Hu).
    + destruct Hh as [->|(w' & h' & Hu & <-)]; [lia|].
      exact (H _ _ Hu).
Qed.

(** Failures of the resource setup are its own: a video that does not
    load, or no recordable format; and it begins by taking the canvas. *)
Lemma loadEach_errors ids : forall log,
  match snd (loadEach browser getSource ids log) with
  | inl NoClipsToExport | inl NoValidVideoSources => False
  | _ => True
  end.
Proof.
  induction ids as [|sid ids IH]; intros log; simpl; [exact I|].
  destruct (getSource sid) as [s|]; [|apply IH].
  unfold loadVideoElement, ExportM.bind, ExportM.acquire. simpl.
  destruct (videoLoads browser s); simpl; [|exact I].
  specialize (IH (log ++ [AcquireVideoElement (vs_id s)])).
  destruct (loadEach _ _ ids _) as [log' [e|els]]; simpl in *;
    [exact IH|exact I].
Qed.

Lemma setup_errors cs w h rate log :
  match snd (setupExportResources browser getSource cs w h rate log) with
  | inl NoClipsToExport | inl NoValidVideoSources => False
  | _ => True
  end.
Proof.
  unfold setupExportResources, prepareVideoElements, createRenderer,
    ExportM.bind, ExportM.acquire, ExportM.throw, getSupportedMimeType.
  destruct (rendererError browser) as [message|]; cbn [snd fst];
    [exact I|].
  pose proof (loadEach_errors (uniqueInOrder [] (map sourceId cs))
                ((log ++ [AcquireCanvas w h]) ++ [AcquireRenderer])) as H.
  destruct (loadEach _ _ _ _) as [log' [e|els]]; cbn [snd fst] in *;
    [exact H|].
  destruct (find (isTypeSupported browser) _); exact I.
Qed.

End ExportPreconditions.

(** C8, as the code has it.  Run from an empty log of acquired resources,
    [exportVideo] fails with the no-clips error exactly when the clip list
    is empty.  For a non-empty clip list it fails with the
    no-valid-source error exactly when the output width or the output
    height is 0 after rounding down to an even number: that is, when every
    referenced source with known non-zero dimensions is less than 2 pixels
    wide, or every such source is less than 2 pixels high (in particular
    when there is no such source).  In both failures nothing has been
    acquired. *)
Theorem export_preconditions
    (browser : Browser) (getSource : string -> option VideoSource)
    (cs : list TimelineClip) (regions : list ColorRegion) :
  let outcome := ExportM.exec (exportVideo browser getSource cs regions) in
  (snd outcome = inl NoClipsToExport <-> cs = [])
  /\ (cs <> [] ->
      (snd outcome = inl NoValidVideoSources
       <-> (forall w h, usableDimensions getSource cs w h -> (w < 2)%Z)
           \/ (forall w h, usableDimensions getSource cs w h -> (h < 2)%Z)))
  /\ (snd outcome = inl NoClipsToExport
      \/ snd outcome = inl NoValidVideoSources ->
      fst outcome = []).
Proof.
  cbv zeta. destruct cs as [|c cs'] eqn:Ecs.
  - split_and.
    + split; reflexivity.
    + congruence.
    + reflexivity.
  - rewrite <- Ecs.
    assert (Hne : cs <> []) by (subst; discriminate).
    destruct (getOutputResolution getSource cs) as [w h] eqn:Eres.
    pose proof (resolution_zero getSource cs w h Eres) as Hzero.
    assert (Hrun :
              ExportM.exec (exportVideo browser getSource cs regions)
              = if ((w =? 0) || (h =? 0))%Z
                then ([], inl NoValidVideoSources)
                else
                  match setupExportResources browser getSource cs w h
                          (getMaxFrameRate getSource cs) [] with
                  | (log, inl e) => (log, inl e)
                  | (log, inr resources) =>
                      (log,
                       inr (mkJob (snd resources) (fst resources)
                              (precomputeClipBoundaries cs regions)
                              (exportTotalDuration cs)))
                  end).
    { clear Hzero Hne. subst cs.
      unfold ExportM.exec, exportVideo, ExportM.bind, validateClips,
        ExportM.ret.
      cbv beta iota. rewrite Eres. cbv beta iota.
      unfold validateResolution, ExportM.throw, ExportM.ret.
      destruct ((w =? 0) || (h =? 0))%Z; [reflexivity|].
      destruct (setupExportResources _ _ _ _ _ _ _) as [log [e|r]];
        reflexivity. }
    rewrite Hrun.
    pose proof (setup_errors browser getSource cs w h
                  (getMaxFrameRate getSource cs) []) as Hsetup.
    destruct ((w =? 0) || (h =? 0))%Z eqn:Ez.
    + assert (Hz : (w = 0 \/ h = 0)%Z).
      { apply orb_true_iff in Ez. destruct Ez as [E|E];
          apply Z.eqb_eq in E; auto. }
      split_and.
      * split; [discriminate|congruence].
      * intros _. split; [intros _; now apply Hzero|reflexivity].
      * reflexivity.
    + assert (Hz : ~ (w = 0 \/ h = 0)%Z).
      { apply orb_false_iff in Ez. destruct Ez as [E1 E2].
        apply Z.eqb_neq in E1. apply Z.eqb_neq in E2. tauto. }
      destruct (setupExportResources _ _ _ _ _ _ _) as [log [e|r]];
        cbn [snd fst] in *.
      * split_and.
        -- split; [intros [= ->]; contradiction|congruence].
        -- intros _. split; [intros [= ->]; contradiction|].
           intros H. apply Hzero in H. contradiction.
        -- intros [[= ->]|[= ->]]; contradiction.
      * split_and.
        -- split; [discriminate|congruence].
        -- intros _. split; [discriminate|].
           intros H. apply Hzero in H. contradiction.
        -- intros [H|H]; discriminate.
Qed.

Lemma export_preconditions_witness :
  snd (ExportM.exec
         (exportVideo Sample.browser Sample.registry [Sample.sliverClip] []))
  = inl NoValidVideoSources.
Proof.
  apply (proj1 (proj2 (export_preconditions Sample.browser Sample.registry
                         [Sample.sliverClip] []))).
  - discriminate.
  - left. intros w h (c & s & [<-|[]] & Hs & Hw & _).
    injection Hs as <-. injection Hw as <-. reflexivity.
Defined.

(** C8 fails as stated: the only clip refers to a source 1 pixel wide and
    1080 pixels high, so a referenced source has non-zero width and height,
    and the export still fails with the no-valid-source error. *)
Lemma one_pixel_wide_source_is_rejected :
  ExportM.exec
    (exportVideo Sample.browser Sample.registry [Sample.sliverClip] [])
  = ([], inl NoValidVideoSources)
  /\ usableDimensions Sample.registry [Sample.sliverClip] 1 1080.
Proof.
  split; [reflexivity|].
  exists Sample.sliverClip, Sample.sliver.
  split_and; try reflexivity; try discriminate. now left.
Qed.

(* ------------------------------------------------------------------ *)
(** ** C9: what the undo history compares *)

Section SnapshotEquality.

Lemma clipJsonEqual_refl c : clipJsonEqual c c = true.
Proof.
  unfold clipJsonEqual, JsNum.eqb.
  now rewrite !String.eqb_refl, !Qeq_bool_refl.
Qed.

Lemma clipsJsonEqual_refl cs : clipsJsonEqual cs cs = true.
Proof.
  induction cs as [|c cs IH]; simpl; [reflexivity|].
  now rewrite clipJsonEqual_refl, IH.
Qed.

Lemma regionsLoop_same a b :
  Forall2 same_identity a b ->
  regionsLoop (map summary a) (map summary b) = true.
Proof.
  induction 1 as [|x y a b (Hi & Hc & Hp) _ IH]; simpl; [reflexivity|].
  rewrite Hi, Hc, Hp, !String.eqb_refl, Bool.eqb_reflx. exact IH.
Qed.

Lemma same_identity_refl r : same_identity r r.
Proof. repeat split. Qed.

(** Progress reports change no identity. *)
Lemma progress_same_identity regionId processed frameMask rs :
  Forall2 same_identity rs
    (map (fun r =>
            if negb (String.eqb (cr_id r) regionId) then r
            else
              mkRegion (cr_id r) (clipId r)
                       (match frameMask with
                        | Some fm => frameMasks r ++ [fm]
                        | None => frameMasks r
                        end)
                       (isProcessing r) (totalFrames r) processed)
         rs).
Proof.
  induction rs as [|r rs IH]; simpl; constructor; [|exact IH].
  destruct (negb _); repeat split.
Qed.

End SnapshotEquality.

(** C9.  Two states of the timeline store with equal clips and with colour
    region lists that agree, position by position, on id, clipId and
    isProcessing are equal for the history's comparison, whatever their
    frameMasks, totalFrames and processedFrames are; so a change from one
    to the other adds no history entry. *)
Theorem history_ignores_mask_payloads (before after : TimelineStore) :
  clips before = clips after ->
  Forall2 same_identity (colorRegions before) (colorRegions after) ->
  shallowEqualColorRegions (partialize before) (partialize after) = true
  /\ forall h, Temporal.temporalHandleSet before after h = h.
Proof.
  intros Hclips Hregions.
  assert (E : shallowEqualColorRegions (partialize before) (partialize after)
              = true).
  { unfold shallowEqualColorRegions, partialize.
    cbn [snap_clips snap_colorRegions].
    rewrite Hclips, clipsJsonEqual_refl. cbn [negb].
    rewrite !length_map, (Forall2_length Hregions), Nat.eqb_refl.
    cbn [negb]. apply (regionsLoop_same _ _ Hregions). }
  split; [exact E|].
  intros h. unfold Temporal.temporalHandleSet. now rewrite E.
Qed.

Lemma history_ignores_mask_payloads_witness :
  Temporal.temporalHandleSet Sample.tracking
    (ColorSlice.updateColorRegionProgress "r1" 1
       (Some (mkFrameMask 0 Sample.maskTopLeft)) Sample.tracking)
    (Temporal.mkHistory [] [])
  = Temporal.mkHistory [] [].
Proof.
  apply (proj2 (history_ignores_mask_payloads Sample.tracking
                  (ColorSlice.updateColorRegionProgress "r1" 1
                     (Some (mkFrameMask 0 Sample.maskTopLeft))
                     Sample.tracking)
                  eq_refl
                  (progress_same_identity "r1" 1
                     (Some (mkFrameMask 0 Sample.maskTopLeft))
                     (colorRegions Sample.tracking)))).
Defined.

(* ------------------------------------------------------------------ *)
(** ** The data model is what the store holds

    The hypotheses of the theorems above on the shape of clips are the
    invariants of the store: over a registry whose sources have positive
    duration (the source store rejects any other), every timeline reached
    from the empty one by the mutation API consists of well-formed clips. *)

Section StoreInvariant.

Variable getSource : string -> option VideoSource.

Hypothesis sources_positive :
  forall sourceId s, getSource sourceId = Some s -> 0 < durationInSeconds s.

Lemma wf_with_position c p :
  clip_wf getSource c -> clip_wf getSource (with_timelinePosition c p).
Proof. intros H. exact H. Qed.

Lemma wf_recalculateFrom cs : forall p,
  Forall (clip_wf getSource) cs ->
  Forall (clip_wf getSource) (recalculateFrom p cs).
Proof.
  induction cs as [|c cs IH]; intros p H; simpl; constructor.
  - apply wf_with_position. exact (Forall_inv H).
  - apply IH. exact (Forall_inv_tail H).
Qed.

Lemma wf_split clip t newId a b :
  clip_wf getSource clip ->
  createSplitClips clip t newId = Some (a, b) ->
  clip_wf getSource a /\ clip_wf getSource b.
Proof.
  intros (Hin & (Hlt & Hts & Hte) & Hsrc). unfold createSplitClips.
  destruct (_ || _)%bool eqn:E; [discriminate|].
  intros [= <- <-]. js_reflect. unfold getClipDuration in *.
  split; unfold clip_wf, clip_shape; simpl; split_and; try lra.
  - intros s Hs. specialize (Hsrc s Hs). lra.
  - exact Hsrc.
Qed.

Lemma in_spliced {A} (l : list A) i j moved x :
  nth_error l i = Some moved ->
  In x (spliceIn j moved (spliceOut i l)) -> In x l.
Proof.
  intros Hm. unfold spliceIn, spliceOut. intros H.
  assert (Hsub : forall y, In y (firstn i l ++ skipn (S i) l) -> In y l).
  { intros y Hy. apply in_app_or in Hy.
    rewrite <- (firstn_skipn i l). apply in_or_app.
    destruct Hy as [Hy|Hy]; [now left|right].
    rewrite <- (firstn_skipn 1 (skipn i l)), skipn_skipn.
    apply in_or_app. now right. }
  apply in_app_or in H. destruct H as [H|[<-|H]].
  - apply Hsub. rewrite <- (firstn_skipn j (firstn i l ++ skipn (S i) l)).
    apply in_or_app. now left.
  - eapply nth_error_In. exact Hm.
  - apply Hsub. rewrite <- (firstn_skipn j (firstn i l ++ skipn (S i) l)).
    apply in_or_app. now right.
Qed.

Lemma apply_mutation_wf m e :
  Forall (clip_wf getSource) (clips (timeline e)) ->
  Forall (clip_wf getSource) (clips (timeline (apply_mutation getSource m e))).
Proof.
  intros H. destruct m; simpl.
  - unfold addClip. destruct (getSource sourceId0) as [s|] eqn:Hs;
      [|assumption].
    apply wf_recalculateFrom, Forall_app. split; [assumption|].
    constructor; [|constructor].
    unfold clip_wf, clip_shape. simpl.
    pose proof (sources_positive _ _ Hs).
    split_and; try lra. intros s' Hs'. rewrite Hs in Hs'.
    injection Hs' as <-. lra.
  - apply wf_recalculateFrom. apply Forall_forall. intros c Hc.
    apply filter_In in Hc. rewrite Forall_forall in H. now apply H.
  - unfold reorderClips.
    destruct (String.eqb activeId overId); [assumption|].
    destruct (findIndex _ _) as [oldIndex|]; [|assumption].
    destruct (findIndex _ _) as [newIndex|]; [|assumption].
    destruct (nth_error _ _) as [moved|] eqn:Hm; [|assumption].
    apply wf_recalculateFrom. apply Forall_forall. intros c Hc.
    rewrite Forall_forall in H. apply H.
    eapply in_spliced; eassumption.
  - unfold splitClip.
    destruct (find _ _) as [clip|] eqn:Hfind; [|assumption].
    destruct (createSplitClips _ _ _) as [[a b]|] eqn:E; [|assumption].
    apply wf_recalculateFrom. apply Forall_flat_map.
    rewrite Forall_forall in H |- *. intros c Hc.
    destruct (has_id clipId0 c).
    + apply find_some in Hfind. destruct Hfind as [Hin _].
      destruct (wf_split _ _ _ _ _ (H _ Hin) E) as [Ha Hb].
      constructor; [exact Ha|]. constructor; [exact Hb|constructor].
    + constructor; [now apply H|constructor].
  - apply wf_recalculateFrom, Forall_map.
    revert H. apply Forall_impl. intros c. apply trimStartOf_wf.
  - apply wf_recalculateFrom, Forall_map.
    revert H. apply Forall_impl. intros c. apply trimEndOf_wf.
  - constructor.
Qed.

(** With the arithmetic carried out exactly, on rationals: every timeline
    the mutation API can produce is contiguous and made of well-formed
    clips. *)
Lemma reachable_timelines_are_wellformed ms :
  contiguous (clips (timeline (run getSource ms initialEditor)))
  /\ Forall (clip_wf getSource)
            (clips (timeline (run getSource ms initialEditor)))
  /\ Forall clip_shape (clips (timeline (run getSource ms initialEditor))).
Proof.
  assert (Hwf : forall e,
             Forall (clip_wf getSource) (clips (timeline e)) ->
             Forall (clip_wf getSource)
                    (clips (timeline (run getSource ms e)))).
  { induction ms as [|m ms' IH]; intros e He; simpl; [assumption|].
    apply IH. now apply apply_mutation_wf. }
  split_and.
  - apply run_contiguous, nil_contiguous.
  - apply Hwf. constructor.
  - eapply Forall_impl; [|apply Hwf; constructor].
    intros c (_ & Hs & _). exact Hs.
Qed.

End StoreInvariant.

(* ------------------------------------------------------------------ *)
(** * Further properties of the embedded code *)

(* ------------------------------------------------------------------ *)
(** ** The clip slice: adding, removing, reordering *)

Section ClipSliceFacts.

Variable getSource : string -> option VideoSource.

Lemma ids_recalculateFrom cs : forall p,
  map id (recalculateFrom p cs) = map id cs.
Proof.
  induction cs as [|c cs IH]; intros p; simpl; [reflexivity|].
  now rewrite IH.
Qed.

Lemma unplaced_recalculateFrom cs : forall p,
  map unplaced (recalculateFrom p cs) = map unplaced cs.
Proof.
  induction cs as [|c cs IH]; intros p; simpl; [reflexivity|].
  now rewrite IH.
Qed.

Lemma id_absent_filter cid cs :
  id_absent cid (filter (fun c => negb (has_id cid c)) cs).
Proof.
  intros c Hc. apply filter_In in Hc. destruct Hc as [_ H].
  now apply negb_true_iff in H.
Qed.

Lemma filter_absent cid cs :
  id_absent cid cs -> filter (fun c => negb (has_id cid c)) cs = cs.
Proof.
  induction cs as [|c cs IH]; intros H; simpl; [reflexivity|].
  rewrite (H c (or_introl eq_refl)). simpl. f_equal.
  apply IH. intros x Hx. apply H. now right.
Qed.

Lemma id_absent_recalculateFrom cid cs p :
  id_absent cid cs -> id_absent cid (recalculateFrom p cs).
Proof.
  intros H c Hc. apply has_id_false. intros Heq.
  assert (Hin : In cid (map id (recalculateFrom p cs)))
    by (rewrite <- Heq; now apply in_map).
  rewrite ids_recalculateFrom in Hin. apply in_map_iff in Hin.
  destruct Hin as (c0 & Hid & Hc0). apply H in Hc0.
  apply has_id_false in Hc0. contradiction.
Qed.

Lemma findIndex_some {A} (f : A -> bool) l : forall i,
  findIndex f l = Some i ->
  exists a, nth_error l i = Some a /\ f a = true.
Proof.
  induction l as [|a l IH]; intros i H; simpl in H; [discriminate|].
  destruct (f a) eqn:Ea.
  - injection H as <-. exists a. now split.
  - destruct (findIndex f l) as [j|]; [|discriminate].
    injection H as <-. simpl. now apply IH.
Qed.

Lemma spliceOut_middle {A} (l1 : list A) m l2 :
  spliceOut (List.length l1) (l1 ++ m :: l2) = l1 ++ l2.
Proof.
  unfold spliceOut.
  rewrite firstn_app, Nat.sub_diag, firstn_all.
  change (firstn 0 (m :: l2)) with (@nil A). rewrite app_nil_r. f_equal.
  change (S (List.length l1)) with (1 + List.length l1)%nat.
  rewrite <- skipn_skipn, skipn_app, skipn_all, Nat.sub_diag.
  reflexivity.
Qed.

Lemma spliced_permutation {A} (l : list A) i j moved :
  nth_error l i = Some moved ->
  Permutation (spliceIn j moved (spliceOut i l)) l.
Proof.
  intros Hm. unfold spliceIn.
  set (l' := spliceOut i l).
  transitivity (moved :: l').
  - symmetry. rewrite <- (firstn_skipn j l') at 1.
    apply Permutation_middle.
  - subst l'.
    apply nth_error_split in Hm. destruct Hm as (l1 & l2 & -> & <-).
    rewrite spliceOut_middle. apply Permutation_middle.
Qed.

Lemma spliceIn_nth {A} (l : list A) j moved :
  (j <= List.length l)%nat ->
  nth_error (spliceIn j moved l) j = Some moved.
Proof.
  intros Hj. unfold spliceIn.
  rewrite nth_error_app2; rewrite length_firstn, Nat.min_l by assumption;
    [|lia].
  now rewrite Nat.sub_diag.
Qed.

Lemma spliceOut_length {A} (l : list A) i :
  (i < List.length l)%nat ->
  List.length (spliceOut i l) = (List.length l - 1)%nat.
Proof.
  intros Hi. unfold spliceOut.
  rewrite length_app, length_firstn, length_skipn. lia.
Qed.

End ClipSliceFacts.

(** addClip with an unregistered source changes nothing.  With a
    registered source it appends one clip: the new clip has the drawn
    identifier, spans the whole source untrimmed and starts at the old
    total duration; the total duration grows by the source's duration;
    the playback store and the selection are untouched. *)
Theorem addClip_appends_full_source
    (getSource : string -> option VideoSource) (sourceId newId : string)
    (e : Editor) :
  (getSource sourceId = None -> addClip getSource sourceId newId e = e)
  /\ (forall s, getSource sourceId = Some s ->
        clips (timeline (addClip getSource sourceId newId e))
        = recalculatePositions (clips (timeline e))
          ++ [mkClip newId sourceId 0 (durationInSeconds s)
                     (getDuration e) (mkTrimmed 0 0)]
        /\ getDuration (addClip getSource sourceId newId e)
           == getDuration e + durationInSeconds s
        /\ playback (addClip getSource sourceId newId e) = playback e
        /\ selectedClipId (timeline (addClip getSource sourceId newId e))
           = selectedClipId (timeline e)).
Proof.
  split.
  - intros H. unfold addClip. now rewrite H.
  - intros s Hs. unfold addClip. rewrite Hs.
    cbn [timeline clips set_clips playback selectedClipId].
    split_and; try reflexivity.
    + unfold recalculatePositions. rewrite recalculateFrom_app. reflexivity.
    + unfold getDuration. cbn [timeline clips set_clips].
      unfold recalculatePositions.
      rewrite total_recalculateFrom, total_app, total_cons.
      change (calculateTotalDuration []) with 0.
      unfold getClipDuration.
      cbn [sourceOutPointSeconds sourceInPointSeconds]. lra.
Qed.

Lemma addClip_appends_full_source_witness :
  getDuration (addClip Sample.registry "s20" "b" Sample.oneClip)
  == getDuration Sample.oneClip + 20.
Proof.
  exact (proj1 (proj2 (proj2 (addClip_appends_full_source Sample.registry
                                "s20" "b" Sample.oneClip)
                         Sample.source20 eq_refl))).
Defined.



(** reorderClips does nothing when the two identifiers are equal or one
    of them is not on the timeline.  Otherwise the clips, positions aside,
    are permuted, and the moved clip sits at the index the other clip
    had. *)
Theorem reorderClips_permutes (activeId overId : string) (e : Editor) :
  (activeId = overId
   \/ findIndex (has_id activeId) (clips (timeline e)) = None
   \/ findIndex (has_id overId) (clips (timeline e)) = None ->
   reorderClips activeId overId e = e)
  /\ (forall oldIndex newIndex,
         activeId <> overId ->
         findIndex (has_id activeId) (clips (timeline e)) = Some oldIndex ->
         findIndex (has_id overId) (clips (timeline e)) = Some newIndex ->
         Permutation
           (map unplaced (clips (timeline (reorderClips activeId overId e))))
           (map unplaced (clips (timeline e)))
         /\ option_map id
              (nth_error (clips (timeline (reorderClips activeId overId e)))
                         newIndex)
            = Some activeId).
Proof.
  unfold reorderClips. split.
  - intros [H|[H|H]].
    + apply String.eqb_eq in H. now rewrite H.
    + rewrite H. now destruct (String.eqb activeId overId).
    + rewrite H. destruct (String.eqb activeId overId); [reflexivity|].
      now destruct (findIndex (has_id activeId) _).
  - intros oldIndex newIndex Hne Ho Hn.
    apply String.eqb_neq in Hne. rewrite Hne, Ho, Hn.
    destruct (findIndex_some _ _ _ Ho) as (moved & Hm & Hida).
    destruct (findIndex_some _ _ _ Hn) as (over & Hover & _).
    rewrite Hm. cbn [timeline clips set_clips].
    unfold getDuration, recalculatePositions. cbn [timeline clips set_clips].
    pose proof (spliced_permutation (clips (timeline e)) oldIndex newIndex
                  moved Hm) as Hperm.
    split_and.
    + rewrite unplaced_recalculateFrom. now apply Permutation_map.
    + assert (Hlen : (newIndex
                      <= List.length (spliceOut oldIndex (clips (timeline e))))%nat).
      { assert (oldIndex < List.length (clips (timeline e)))%nat
          by (apply nth_error_Some; congruence).
        assert (newIndex < List.length (clips (timeline e)))%nat
          by (apply nth_error_Some; congruence).
        rewrite spliceOut_length by assumption. lia. }
      pose proof (spliceIn_nth _ newIndex moved Hlen) as Hnth.
      rewrite (nth_recalculateFrom _ _ _ _ Hnth). simpl.
      apply has_id_true in Hida. now rewrite Hida.
Qed.

Lemma reorderClips_permutes_witness :
  option_map id
    (nth_error (clips (timeline (reorderClips "b" "a" Sample.twoClips))) 0)
  = Some "b"%string.
Proof.
  refine (proj2 (proj2 (reorderClips_permutes "b" "a" Sample.twoClips)
                   1%nat 0%nat _ eq_refl eq_refl)).
  discriminate.
Defined.

(* ------------------------------------------------------------------ *)
(** ** The clip slice: trim memory *)

Section TrimMemory.

Variable getSource : string -> option VideoSource.

Lemma nth_trimClipStart e cid p i c :
  nth_error (clips (timeline e)) i = Some c ->
  exists pos,
    nth_error (clips (timeline (trimClipStart cid p e))) i
    = Some (with_timelinePosition (trimStartOf cid p c) pos).
Proof.
  intros H. eexists. unfold trimClipStart, recalculatePositions.
  cbn [timeline clips set_clips].
  apply nth_recalculateFrom. rewrite nth_error_map, H. reflexivity.
Qed.

Lemma nth_trimClipEnd e cid p i c :
  nth_error (clips (timeline e)) i = Some c ->
  exists pos,
    nth_error (clips (timeline (trimClipEnd getSource cid p e))) i
    = Some (with_timelinePosition (trimEndOf getSource cid p c) pos).
Proof.
  intros H. eexists. unfold trimClipEnd, recalculatePositions.
  cbn [timeline clips set_clips].
  apply nth_recalculateFrom. rewrite nth_error_map, H. reflexivity.
Qed.

Lemma trimStartOf_position cid p c pos :
  trimStartOf cid p (with_timelinePosition c pos)
  = with_timelinePosition (trimStartOf cid p c) pos.
Proof.
  unfold trimStartOf, has_id, clampTrimStart. simpl.
  destruct (negb _); [reflexivity|]. destruct (_ =? _); reflexivity.
Qed.

Lemma trimEndOf_position cid p c pos :
  trimEndOf getSource cid p (with_timelinePosition c pos)
  = with_timelinePosition (trimEndOf getSource cid p c) pos.
Proof.
  unfold trimEndOf, has_id, clampTrimEnd. simpl.
  destruct (negb _); [reflexivity|].
  destruct (getSource _); [|reflexivity].
  destruct (_ =? _); reflexivity.
Qed.

(** What a start trim keeps of any clip. *)
Lemma trimStartOf_memory cid p c :
  sourceInPointSeconds (trimStartOf cid p c)
  - startSeconds (trimmed (trimStartOf cid p c))
  == sourceInPointSeconds c - startSeconds (trimmed c)
  /\ sourceOutPointSeconds (trimStartOf cid p c) = sourceOutPointSeconds c
  /\ endSeconds (trimmed (trimStartOf cid p c)) = endSeconds (trimmed c)
  /\ id (trimStartOf cid p c) = id c
  /\ sourceId (trimStartOf cid p c) = sourceId c.
Proof.
  unfold trimStartOf. destruct (negb _).
  { split_and; reflexivity. }
  destruct (_ =? _) eqn:E.
  { split_and; reflexivity. }
  cbn [sourceInPointSeconds sourceOutPointSeconds trimmed startSeconds
       endSeconds id sourceId].
  split_and; try reflexivity. js_minmax; lra.
Qed.

(** What an end trim keeps of any clip. *)
Lemma trimEndOf_memory cid p c :
  sourceOutPointSeconds (trimEndOf getSource cid p c)
  + endSeconds (trimmed (trimEndOf getSource cid p c))
  == sourceOutPointSeconds c + endSeconds (trimmed c)
  /\ sourceInPointSeconds (trimEndOf getSource cid p c)
     = sourceInPointSeconds c
  /\ startSeconds (trimmed (trimEndOf getSource cid p c))
     = startSeconds (trimmed c)
  /\ id (trimEndOf getSource cid p c) = id c
  /\ sourceId (trimEndOf getSource cid p c) = sourceId c.
Proof.
  unfold trimEndOf. destruct (negb _).
  { split_and; reflexivity. }
  destruct (getSource _).
  2:{ split_and; reflexivity. }
  destruct (_ =? _) eqn:E.
  { split_and; reflexivity. }
  cbn [sourceInPointSeconds sourceOutPointSeconds trimmed startSeconds
       endSeconds id sourceId].
  split_and; try reflexivity. js_minmax; lra.
Qed.

End TrimMemory.

(** A trim touches one edge of the clip it addresses.  After
    trimClipStart the clip at any index has the same out-point, end trim
    memory, identifier and source as before, and its start trim memory
    records how far the in-point moved: it is max(0, memory + (new
    in-point - old in-point)).  After trimClipEnd it has the same in-point,
    start trim memory, identifier and source, and its end trim memory is
    max(0, memory + (old out-point - new out-point)).  A clip with another
    identifier is changed in its timeline position at most, and no clip is
    added or lost. *)
Theorem trims_touch_one_edge
    (getSource : string -> option VideoSource) (e : Editor) (i : nat)
    (c : TimelineClip) (clipId : string) (p : Q) :
  nth_error (clips (timeline e)) i = Some c ->
  (exists c',
      nth_error (clips (timeline (trimClipStart clipId p e))) i = Some c'
      /\ List.length (clips (timeline (trimClipStart clipId p e)))
         = List.length (clips (timeline e))
      /\ sourceOutPointSeconds c' = sourceOutPointSeconds c
      /\ endSeconds (trimmed c') = endSeconds (trimmed c)
      /\ id c' = id c /\ sourceId c' = sourceId c
      /\ (0 <= startSeconds (trimmed c) ->
          startSeconds (trimmed c')
          == Qmax 0 (startSeconds (trimmed c)
                     + (sourceInPointSeconds c' - sourceInPointSeconds c)))
      /\ (id c <> clipId -> unplaced c' = unplaced c))
  /\ (exists c',
      nth_error (clips (timeline (trimClipEnd getSource clipId p e))) i
      = Some c'
      /\ List.length (clips (timeline (trimClipEnd getSource clipId p e)))
         = List.length (clips (timeline e))
      /\ sourceInPointSeconds c' = sourceInPointSeconds c
      /\ startSeconds (trimmed c') = startSeconds (trimmed c)
      /\ id c' = id c /\ sourceId c' = sourceId c
      /\ (0 <= endSeconds (trimmed c) ->
          endSeconds (trimmed c')
          == Qmax 0 (endSeconds (trimmed c)
                     + (sourceOutPointSeconds c - sourceOutPointSeconds c')))
      /\ (id c <> clipId -> unplaced c' = unplaced c)).
Proof.
  intros H. split.
  - destruct (nth_trimClipStart e clipId p i c H) as [pos Hn].
    eexists. split; [exact Hn|].
    destruct (trimStartOf_memory clipId p c) as (_ & H2 & H3 & H4 & H5).
    cbn [with_timelinePosition sourceInPointSeconds sourceOutPointSeconds
         trimmed id sourceId].
    split_and; try assumption.
    + unfold trimClipStart, recalculatePositions.
      cbn [timeline clips set_clips].
      now rewrite recalculateFrom_length, length_map.
    + intros Hts. unfold trimStartOf. destruct (negb _).
      { setoid_replace (sourceInPointSeconds c - sourceInPointSeconds c)
          with 0 by ring.
        js_minmax; lra. }
      destruct (_ =? _) eqn:E; cbn [trimmed startSeconds sourceInPointSeconds].
      { setoid_replace (sourceInPointSeconds c - sourceInPointSeconds c)
          with 0 by ring.
        js_minmax; lra. }
      reflexivity.
    + intros Hne. apply has_id_false in Hne.
      now rewrite trimStartOf_other.
  - destruct (nth_trimClipEnd getSource e clipId p i c H) as [pos Hn].
    eexists. split; [exact Hn|].
    destruct (trimEndOf_memory getSource clipId p c)
      as (_ & H2 & H3 & H4 & H5).
    cbn [with_timelinePosition sourceInPointSeconds sourceOutPointSeconds
         trimmed id sourceId].
    split_and; try assumption.
    + unfold trimClipEnd, recalculatePositions.
      cbn [timeline clips set_clips].
      now rewrite recalculateFrom_length, length_map.
    + intros Hte. unfold trimEndOf. destruct (negb _).
      { setoid_replace (sourceOutPointSeconds c - sourceOutPointSeconds c)
          with 0 by ring.
        js_minmax; lra. }
      destruct (getSource (sourceId c)) as [s|].
      2:{ setoid_replace (sourceOutPointSeconds c - sourceOutPointSeconds c)
            with 0 by ring.
          js_minmax; lra. }
      destruct (_ =? _) eqn:E; cbn [trimmed endSeconds sourceOutPointSeconds].
      { setoid_replace (sourceOutPointSeconds c - sourceOutPointSeconds c)
          with 0 by ring.
        js_minmax; lra. }
      reflexivity.
    + intros Hne. apply has_id_false in Hne.
      now rewrite trimEndOf_other.
Qed.

Lemma trims_touch_one_edge_witness :
  exists c',
    nth_error (clips (timeline (trimClipStart "a" 3 Sample.twoClips))) 0
    = Some c'
    /\ List.length (clips (timeline (trimClipStart "a" 3 Sample.twoClips)))
       = List.length (clips (timeline Sample.twoClips))
    /\ sourceOutPointSeconds c' = 10.
Proof.
  destruct (proj1 (trims_touch_one_edge Sample.registry
                     Sample.twoClips 0
                     (mkClip "a" "s10" 0 10 0 (mkTrimmed 0 0)) "a" 3
                     eq_refl))
    as (c' & Hc & Hl & Ho & _).
  exists c'. split_and; assumption.
Defined.

(* ------------------------------------------------------------------ *)
(** ** The playhead is never negative *)

Section Playhead.

Variable getSource : string -> option VideoSource.

Lemma adjustPlayhead_nonneg cid oldClips newClips pb :
  0 <= currentTime pb ->
  0 <= currentTime (adjustPlayheadForTrim cid oldClips newClips pb).
Proof.
  intros H. unfold adjustPlayheadForTrim.
  destruct (find _ oldClips); [|assumption].
  destruct (find _ newClips); [|assumption].
  destruct (getSourceTimeForPlayhead _ _); [|assumption].
  unfold Playback.setCurrentTime.
  destruct (_ && _)%bool.
  - destruct (_ <? _); [|assumption]. simpl. js_minmax; lra.
  - destruct (_ <? _); simpl; js_minmax; lra.
Qed.

Lemma apply_call_nonneg c e :
  0 <= currentTime (playback e) ->
  0 <= currentTime (playback (apply_call getSource c e)).
Proof.
  intros H. destruct c as [m|c]; simpl.
  - destruct m; simpl; try assumption.
    + unfold addClip. destruct (getSource _); assumption.
    + unfold reorderClips. destruct (String.eqb _ _); [assumption|].
      destruct (findIndex _ _); [|assumption].
      destruct (findIndex _ _); [|assumption].
      destruct (nth_error _ _); assumption.
    + unfold splitClip. destruct (find _ _); [|assumption].
      destruct (createSplitClips _ _ _) as [[a b]|]; assumption.
    + now apply adjustPlayhead_nonneg.
    + now apply adjustPlayhead_nonneg.
  - destruct c; simpl; try assumption; js_minmax; lra.
Qed.

End Playhead.

(** Whatever calls are made on the timeline store and the playback store,
    in whatever order, starting from the initial stores, the playhead time
    is never negative. *)
Theorem playhead_never_negative
    (getSource : string -> option VideoSource) (calls : list EditorCall) :
  0 <= currentTime (playback (run_calls getSource calls initialEditor)).
Proof.
  unfold run_calls.
  assert (H : 0 <= currentTime (playback initialEditor)) by (simpl; lra).
  revert H. generalize initialEditor.
  induction calls as [|c calls IH]; intros e He; simpl; [assumption|].
  apply IH. now apply apply_call_nonneg.
Qed.

Section Floor.

Variable getSource : string -> option VideoSource.

Lemma floor_recalculateFrom cs : forall p,
  Forall clip_floor cs -> Forall clip_floor (recalculateFrom p cs).
Proof.
  induction cs as [|c cs IH]; intros p H; simpl; constructor.
  - exact (Forall_inv H).
  - apply IH. exact (Forall_inv_tail H).
Qed.

Lemma floor_split clip t newId a b :
  clip_floor clip ->
  createSplitClips clip t newId = Some (a, b) ->
  clip_floor a /\ clip_floor b.
Proof.
  intros (Hin & Hts & Hte). unfold createSplitClips.
  destruct (_ || _)%bool eqn:E; [discriminate|].
  intros [= <- <-]. js_reflect.
  split; unfold clip_floor; simpl; split_and; lra.
Qed.

Lemma floor_trimStart cid p c :
  clip_floor c -> clip_floor (trimStartOf cid p c).
Proof.
  intros (Hin & Hts & Hte). unfold trimStartOf.
  destruct (negb _); [repeat split; assumption|].
  destruct (_ =? _); [repeat split; assumption|].
  unfold clip_floor, clampTrimStart. simpl.
  split_and; try assumption; js_minmax; lra.
Qed.

Lemma floor_trimEnd cid p c :
  clip_floor c -> clip_floor (trimEndOf getSource cid p c).
Proof.
  intros (Hin & Hts & Hte). unfold trimEndOf.
  destruct (negb _); [repeat split; assumption|].
  destruct (getSource _); [|repeat split; assumption].
  destruct (_ =? _); [repeat split; assumption|].
  unfold clip_floor. simpl.
  split_and; try assumption; js_minmax; lra.
Qed.

Lemma apply_mutation_floor m e :
  Forall clip_floor (clips (timeline e)) ->
  Forall clip_floor (clips (timeline (apply_mutation getSource m e))).
Proof.
  intros H. destruct m; simpl.
  - unfold addClip. destruct (getSource sourceId0) as [s|]; [|assumption].
    apply floor_recalculateFrom, Forall_app. split; [assumption|].
    constructor; [|constructor].
    unfold clip_floor. simpl. split_and; lra.
  - apply floor_recalculateFrom. apply Forall_forall. intros c Hc.
    apply filter_In in Hc. rewrite Forall_forall in H. now apply H.
  - unfold reorderClips.
    destruct (String.eqb activeId overId); [assumption|].
    destruct (findIndex _ _) as [oldIndex|]; [|assumption].
    destruct (findIndex _ _) as [newIndex|]; [|assumption].
    destruct (nth_error _ _) as [moved|] eqn:Hm; [|assumption].
    apply floor_recalculateFrom. apply Forall_forall. intros c Hc.
    rewrite Forall_forall in H. apply H.
    eapply in_spliced; eassumption.
  - unfold splitClip.
    destruct (find _ _) as [clip|] eqn:Hfind; [|assumption].
    destruct (createSplitClips _ _ _) as [[a b]|] eqn:E; [|assumption].
    apply floor_recalculateFrom. apply Forall_flat_map.
    rewrite Forall_forall in H |- *. intros c Hc.
    destruct (has_id clipId0 c).
    + apply find_some in Hfind. destruct Hfind as [Hin _].
      destruct (floor_split _ _ _ _ _ (H _ Hin) E) as [Ha Hb].
      constructor; [exact Ha|]. constructor; [exact Hb|constructor].
    + constructor; [now apply H|constructor].
  - apply floor_recalculateFrom, Forall_map.
    revert H. apply Forall_impl. intros c. apply floor_trimStart.
  - apply floor_recalculateFrom, Forall_map.
    revert H. apply Forall_impl. intros c. apply floor_trimEnd.
  - constructor.
Qed.

End Floor.

(** Whatever the registry holds and whatever mutations are applied, in
    whatever order, starting from the empty timeline: no clip has a
    negative in-point or a negative trim memory. *)
Theorem reachable_clips_stay_above_zero
    (getSource : string -> option VideoSource) (ms : list Mutation) :
  Forall clip_floor (clips (timeline (run getSource ms initialEditor))).
Proof.
  assert (H : forall e,
             Forall clip_floor (clips (timeline e)) ->
             Forall clip_floor (clips (timeline (run getSource ms e)))).
  { induction ms as [|m ms' IH]; intros e He; simpl; [assumption|].
    apply IH. now apply apply_mutation_floor. }
  apply H. constructor.
Qed.

(* ------------------------------------------------------------------ *)
(** ** The active clip *)

Section ActiveClip.

Variable getSource : string -> option VideoSource.

Lemma spansTime_iff t c :
  spansTime t c = true
  <-> timelinePositionSeconds c <= t
      /\ t <= timelinePositionSeconds c + getClipDuration c.
Proof.
  unfold spansTime, getClipDuration. rewrite andb_true_iff.
  now rewrite !JsNumFacts.leb_le.
Qed.

Lemma total_shapes_nonneg cs :
  Forall clip_shape cs -> 0 <= calculateTotalDuration cs.
Proof.
  intros H. apply total_nonneg. revert H. apply Forall_impl.
  intros c (Hlt & _). unfold getClipDuration. lra.
Qed.

(** Every clip of a chained list lies inside the list's span. *)
Lemma chained_bounds cs : forall p c,
  chained p cs -> Forall clip_shape cs -> In c cs ->
  p <= timelinePositionSeconds c
  /\ timelinePositionSeconds c + getClipDuration c
     <= p + calculateTotalDuration cs.
Proof.
  induction cs as [|x cs IH]; intros p c Hch Hsh Hin; [destruct Hin|].
  destruct Hch as [Hp Hch].
  pose proof (Forall_inv Hsh) as (Hlt & _).
  apply Forall_inv_tail in Hsh.
  pose proof (total_shapes_nonneg cs Hsh) as Hnn.
  rewrite total_cons. unfold getClipDuration in *.
  destruct Hin as [<-|Hin].
  - lra.
  - destruct (IH _ c Hch Hsh Hin). unfold getClipDuration in *. lra.
Qed.

(** A time inside the span of a chained list has a first clip spanning
    it, and that clip starts before the time unless the time is the start
    of the list. *)
Lemma chained_find cs : forall p t,
  chained p cs -> Forall clip_shape cs -> cs <> [] ->
  p <= t -> t <= p + calculateTotalDuration cs ->
  exists clip,
    find (spansTime t) cs = Some clip
    /\ (timelinePositionSeconds clip < t \/ t == p).
Proof.
  induction cs as [|c cs IH]; intros p t Hch Hsh Hne Hlo Hhi; [congruence|].
  destruct Hch as [Hp Hch].
  pose proof (Forall_inv Hsh) as (Hlt & _).
  apply Forall_inv_tail in Hsh.
  rewrite total_cons in Hhi. simpl.
  destruct (spansTime t c) eqn:E.
  - exists c. split; [reflexivity|]. lra.
  - assert (Hpast : timelinePositionSeconds c + getClipDuration c < t).
    { destruct (Qlt_le_dec (timelinePositionSeconds c + getClipDuration c) t)
        as [H|H]; [assumption|].
      assert (spansTime t c = true) by (apply spansTime_iff; split; lra).
      congruence. }
    destruct cs as [|c' cs'] eqn:Ecs.
    + change (calculateTotalDuration []) with 0 in Hhi. lra.
    + rewrite <- Ecs in *.
      destruct (IH (p + getClipDuration c) t Hch Hsh) as (clip & Hf & Hs);
        [subst; discriminate|lra|lra|].
      exists clip. split; [assumption|]. left.
      destruct Hs as [Hs|Hs]; [assumption|lra].
Qed.

End ActiveClip.

(** On a contiguous timeline of well-shaped clips whose sources are all
    registered: at every time from 0 to the total duration of a non-empty
    timeline there is an active clip; it is a clip of the timeline whose
    span contains the time, the source time reported is its in-point plus
    the time passed since its start, which is not before the in-point, and
    it starts strictly before the time unless the time is 0 (on the
    boundary of two clips the earlier clip is the active one).  At a
    negative time and beyond the total duration there is none. *)
Theorem active_clip_lookup
    (getSource : string -> option VideoSource) (cs : list TimelineClip)
    (t : Q) :
  contiguous cs ->
  Forall clip_shape cs ->
  (forall c, In c cs -> getSource (sourceId c) <> None) ->
  (cs <> [] -> 0 <= t -> t <= calculateTotalDuration cs ->
   exists info,
     getActiveClipAtTime t cs getSource = Some info
     /\ In (ac_clip info) cs
     /\ getSource (sourceId (ac_clip info)) = Some (ac_source info)
     /\ timelinePositionSeconds (ac_clip info) <= t
     /\ t <= timelinePositionSeconds (ac_clip info)
             + getClipDuration (ac_clip info)
     /\ currentSourceTimeSeconds info
        = sourceInPointSeconds (ac_clip info)
          + (t - timelinePositionSeconds (ac_clip info))
     /\ sourceInPointSeconds (ac_clip info) <= currentSourceTimeSeconds info
     /\ (timelinePositionSeconds (ac_clip info) < t \/ t == 0))
  /\ (t < 0 \/ calculateTotalDuration cs < t ->
      getActiveClipAtTime t cs getSource = None).
Proof.
  intros Hc Hsh Hreg.
  pose proof (contiguous_chained cs Hc) as Hch.
  split.
  - intros Hne Hlo Hhi.
    destruct (chained_find cs 0 t Hch Hsh Hne Hlo) as (clip & Hf & Hs);
      [lra|].
    pose proof (find_some _ _ Hf) as [Hin Hspan].
    apply spansTime_iff in Hspan. destruct Hspan as [H1 H2].
    unfold getActiveClipAtTime. rewrite Hf.
    destruct (getSource (sourceId clip)) as [s|] eqn:Hsrc;
      [|exfalso; exact (Hreg clip Hin Hsrc)].
    eexists. split; [reflexivity|].
    cbn [ac_clip ac_source currentSourceTimeSeconds].
    unfold getClipDuration in *.
    split_and; try assumption; try reflexivity; try lra.
  - intros Hout. unfold getActiveClipAtTime.
    destruct (find (spansTime t) cs) as [clip|] eqn:Hf; [|reflexivity].
    exfalso. apply find_some in Hf. destruct Hf as [Hin Hspan].
    apply spansTime_iff in Hspan.
    destruct (chained_bounds cs 0 clip Hch Hsh Hin).
    destruct Hout; lra.
Qed.

Lemma active_clip_lookup_witness :
  getActiveClipAtTime 31 (clips (timeline Sample.twoClips)) Sample.registry
  = None.
Proof.
  refine (proj2 (active_clip_lookup Sample.registry
                   (clips (timeline Sample.twoClips)) 31 _ _ _) _).
  - apply run_contiguous, nil_contiguous.
  - repeat constructor; vm_compute; congruence.
  - intros c [<-|[<-|[]]]; discriminate.
  - right. vm_compute. reflexivity.
Defined.

(* ------------------------------------------------------------------ *)
(** ** Visual positions: range and clamping *)

Section VisualRange.

Variable pps : Q.
Hypothesis pps_pos : 0 < pps.

(** Whatever the loop returns lies inside the span of the clips it
    scanned. *)
Lemma timeLoop_range cs : forall p vs accV accT,
  chained p cs -> Forall clip_shape cs ->
  match timeLoop vs accV accT cs with
  | Returned v => p <= v /\ v <= p + calculateTotalDuration cs
  | FellThrough _ => True
  end.
Proof.
  induction cs as [|c cs IH]; intros p vs accV accT Hch Hsh; [exact I|].
  destruct Hch as [Hp Hch].
  pose proof (Forall_inv Hsh) as (Hlt & Hts & Hte).
  apply Forall_inv_tail in Hsh.
  pose proof (total_shapes_nonneg cs Hsh) as Hnn.
  pose proof (total_cons c cs) as Htot.
  cbn [timeLoop getClipTrimAmounts].
  unfold getClipDuration in *.
  destruct (vs <? _) eqn:F1; js_reflect; [lra|].
  destruct (_ && _)%bool eqn:F2; js_reflect; [lra|].
  destruct (_ && _)%bool eqn:F3; js_reflect; [lra|].
  specialize (IH (p + (sourceOutPointSeconds c - sourceInPointSeconds c)) vs
                 (accV + startSeconds (trimmed c)
                  + (sourceOutPointSeconds c - sourceInPointSeconds c)
                  + endSeconds (trimmed c))
                 (accT + (startSeconds (trimmed c) + endSeconds (trimmed c)))
                 Hch Hsh).
  destruct (timeLoop _ _ _ cs); [lra|exact I].
Qed.

(** Past the end of the clips, the visual position no longer depends on
    the time. *)
Lemma playheadSeconds_past_end cs : forall p t t' off,
  chained p cs -> Forall clip_shape cs -> cs <> [] ->
  p + calculateTotalDuration cs <= t ->
  p + calculateTotalDuration cs <= t' ->
  playheadSeconds t off cs == playheadSeconds t' off cs.
Proof.
  induction cs as [|c cs IH]; intros p t t' off Hch Hsh Hne Ht Ht';
    [congruence|].
  destruct Hch as [Hp Hch].
  pose proof (Forall_inv Hsh) as (Hlt & Hts & Hte).
  apply Forall_inv_tail in Hsh.
  pose proof (total_shapes_nonneg cs Hsh) as Hnn.
  rewrite total_cons in Ht, Ht'.
  cbn [playheadSeconds]. unfold getClipDuration in *.
  destruct (_ <=? t) eqn:E1; js_reflect; [|lra].
  destruct (_ <=? t') eqn:E2; js_reflect; [|lra].
  destruct cs as [|c' cs'] eqn:Ecs; [reflexivity|].
  rewrite <- Ecs in *.
  apply (IH (p + (sourceOutPointSeconds c - sourceInPointSeconds c)));
    try assumption; [subst; discriminate|lra|lra].
Qed.

(** Trim indicators only push the playhead to the right. *)
Lemma playheadSeconds_at_least cs : forall p t off,
  chained p cs -> Forall clip_shape cs ->
  t <= p + calculateTotalDuration cs ->
  t + off <= playheadSeconds t off cs.
Proof.
  induction cs as [|c cs IH]; intros p t off Hch Hsh Ht.
  - simpl. lra.
  - destruct Hch as [Hp Hch].
    pose proof (Forall_inv Hsh) as (Hlt & Hts & Hte).
    apply Forall_inv_tail in Hsh.
    rewrite total_cons in Ht.
    cbn [playheadSeconds]. unfold getClipDuration in *.
    destruct (_ <=? t) eqn:E1; js_reflect.
    + destruct cs as [|c' cs'] eqn:Ecs.
      * change (calculateTotalDuration []) with 0 in Ht. lra.
      * rewrite <- Ecs in *.
        specialize (IH (p + (sourceOutPointSeconds c - sourceInPointSeconds c))
                       t
                       (off + (startSeconds (trimmed c)
                               + endSeconds (trimmed c)))
                       Hch Hsh).
        lra.
    + destruct (_ <=? t) eqn:E2; js_reflect; lra.
Qed.

End VisualRange.

(** On a non-empty contiguous timeline of well-shaped clips and at any
    scale above 0, every visual position, also one inside a trim indicator
    or off the timeline, is converted to a time between 0 and the total
    duration. *)
Theorem visual_position_maps_into_timeline
    (cs : list TimelineClip) (pixelsPerSecond visualPixels : Q) :
  contiguous cs ->
  Forall clip_shape cs ->
  cs <> [] ->
  0 < pixelsPerSecond ->
  0 <= calculateTimelineTimeFromVisualPosition pixelsPerSecond visualPixels cs
  /\ calculateTimelineTimeFromVisualPosition pixelsPerSecond visualPixels cs
     <= calculateTotalDuration cs.
Proof.
  intros Hc Hsh Hne Hpps.
  pose proof (contiguous_chained cs Hc) as Hch.
  rewrite (timeFromVisual_nonempty pixelsPerSecond Hpps cs _ Hne).
  pose proof (timeLoop_range cs 0 (visualPixels / pixelsPerSecond) 0 0
                Hch Hsh) as Hr.
  destruct (timeLoop _ _ _ cs).
  - lra.
  - destruct (chained_last cs 0 Hch Hne) as (l & Hl & Hend).
    rewrite Hl. unfold getClipDuration in Hend. rewrite Hend.
    pose proof (total_shapes_nonneg cs Hsh). lra.
Qed.

Lemma visual_position_maps_into_timeline_witness :
  0 <= calculateTimelineTimeFromVisualPosition 50 100000
         (clips (timeline Sample.trimmedPair))
  /\ calculateTimelineTimeFromVisualPosition 50 100000
       (clips (timeline Sample.trimmedPair))
     <= calculateTotalDuration (clips (timeline Sample.trimmedPair)).
Proof.
  apply visual_position_maps_into_timeline.
  - apply run_contiguous, nil_contiguous.
  - repeat constructor; vm_compute; congruence.
  - discriminate.
  - lra.
Defined.

(** On a non-empty contiguous timeline of well-shaped clips and at any
    scale above 0: the playhead is drawn at or to the right of its
    untrimmed position for every time up to the total duration, and for
    every time at or past the total duration it is drawn where it is drawn
    at the total duration. *)
Theorem playhead_visual_position_clamps
    (cs : list TimelineClip) (pixelsPerSecond t : Q) :
  contiguous cs ->
  Forall clip_shape cs ->
  cs <> [] ->
  0 < pixelsPerSecond ->
  (t <= calculateTotalDuration cs ->
   t * pixelsPerSecond
   <= calculatePlayheadVisualPosition pixelsPerSecond t cs)
  /\ (calculateTotalDuration cs <= t ->
      calculatePlayheadVisualPosition pixelsPerSecond t cs
      == calculatePlayheadVisualPosition pixelsPerSecond
           (calculateTotalDuration cs) cs).
Proof.
  intros Hc Hsh Hne Hpps.
  pose proof (contiguous_chained cs Hc) as Hch.
  rewrite !(visualPosition_nonempty pixelsPerSecond cs _ Hne).
  split.
  - intros Ht.
    pose proof (playheadSeconds_at_least cs 0 t 0 Hch Hsh) as H.
    assert (t <= playheadSeconds t 0 cs) by lra.
    apply Qmult_le_compat_r; lra.
  - intros Ht.
    rewrite (playheadSeconds_past_end cs 0 t (calculateTotalDuration cs) 0
               Hch Hsh Hne); [reflexivity|lra|lra].
Qed.

Lemma playhead_visual_position_clamps_witness :
  calculatePlayheadVisualPosition 50 1000
    (clips (timeline Sample.trimmedPair))
  == calculatePlayheadVisualPosition 50
       (calculateTotalDuration (clips (timeline Sample.trimmedPair)))
       (clips (timeline Sample.trimmedPair)).
Proof.
  refine (proj2 (playhead_visual_position_clamps
                   (clips (timeline Sample.trimmedPair)) 50 1000 _ _ _ _) _).
  - apply run_contiguous, nil_contiguous.
  - repeat constructor; vm_compute; congruence.
  - discriminate.
  - lra.
  - vm_compute. congruence.
Defined.



(* ------------------------------------------------------------------ *)
(** ** The exporter: output geometry and frame rate *)

(** The output resolution has even, non-negative width and height; it
    falls short of no referenced source with known non-zero dimensions by
    more than one pixel in either direction; and it exceeds the largest
    such width and the largest such height in neither. *)
Theorem output_resolution_is_even_and_covers
    (getSource : string -> option VideoSource) (cs : list TimelineClip) :
  Z.even (fst (getOutputResolution getSource cs)) = true
  /\ Z.even (snd (getOutputResolution getSource cs)) = true
  /\ (0 <= fst (getOutputResolution getSource cs))%Z
  /\ (0 <= snd (getOutputResolution getSource cs))%Z
  /\ (forall w h, usableDimensions getSource cs w h ->
        (w - 1 <= fst (getOutputResolution getSource cs))%Z
        /\ (h - 1 <= snd (getOutputResolution getSource cs))%Z)
  /\ (fst (getOutputResolution getSource cs) = 0%Z
      \/ exists w h, usableDimensions getSource cs w h
                     /\ (fst (getOutputResolution getSource cs) <= w)%Z)
  /\ (snd (getOutputResolution getSource cs) = 0%Z
      \/ exists w h, usableDimensions getSource cs w h
                     /\ (snd (getOutputResolution getSource cs) <= h)%Z).
Proof.
  unfold getOutputResolution. rewrite maxDimensions_fold.
  destruct (fold_left (widen getSource) cs (0%Z, 0%Z)) as [mw mh] eqn:E.
  destruct (fold_step_spec getSource cs _ _ _ _ E)
    as ((Ha & Hb) & Hle & Hw & Hh).
  cbn [fst snd].
  assert (Heven : forall n, Z.even (n / 2 * 2) = true).
  { intros n. rewrite Z.even_mul. apply orb_true_r. }
  assert (Hround : forall n, (0 <= n -> 0 <= n / 2 * 2 <= n
                                        /\ n - 1 <= n / 2 * 2)%Z).
  { intros n Hn. pose proof (Z.div_mod n 2 ltac:(lia)).
    pose proof (Z.mod_pos_bound n 2 ltac:(lia)). lia. }
  destruct (Hround mw Ha) as [[W0 W1] W2].
  destruct (Hround mh Hb) as [[H0 H1] H2].
  split_and; auto.
  - intros w h Hu. destruct (Hle w h Hu). lia.
  - destruct Hw as [->|(w & h & Hu & <-)]; [left; reflexivity|].
    right. exists w, h. split; [assumption|lia].
  - destruct Hh as [->|(w & h & Hu & <-)]; [left; reflexivity|].
    right. exists w, h. split; [assumption|lia].
Qed.

Section FrameRate.

Variable getSource : string -> option VideoSource.

(** The loop of [getMaxFrameRate] from a running maximum [acc]. *)
Lemma frame_rate_fold cs : forall acc,
  let r :=
    fold_left
      (fun maxFrameRate clip =>
         match getSource (sourceId clip) with
         | Some source =>
             if frameRate source =? 0 then maxFrameRate
             else Qmax maxFrameRate (frameRate source)
         | None => maxFrameRate
         end) cs acc in
  acc <= r
  /\ (forall c s, In c cs -> getSource (sourceId c) = Some s ->
                  frameRate s <= r \/ frameRate s == 0)
  /\ (r == acc
      \/ exists c s, In c cs /\ getSource (sourceId c) = Some s
                     /\ r == frameRate s).
Proof.
  induction cs as [|c cs IH]; intros acc; cbn [fold_left].
  - split_and; [lra|intros c s []|left; reflexivity].
  - match goal with
    | |- context [fold_left ?f cs ?a] =>
        specialize (IH a); cbv zeta in IH;
        set (r := fold_left f cs a) in *;
        assert (Hacc : acc <= a
                       /\ (forall s, getSource (sourceId c) = Some s ->
                                     frameRate s <= a \/ frameRate s == 0)
                       /\ (a == acc
                           \/ exists s, getSource (sourceId c) = Some s
                                        /\ a == frameRate s))
    end.
    { destruct (getSource (sourceId c)) as [s|] eqn:Hs.
      - destruct (frameRate s =? 0) eqn:E; js_reflect.
        + split_and; [lra| |left; reflexivity].
          intros s' [= <-]. now right.
        + split_and.
          * js_minmax; lra.
          * intros s' [= <-]. left. js_minmax; lra.
          * destruct (JsNumFacts.max_cases acc (frameRate s))
              as [[_ Em]|[_ Em]].
            -- right. exists s. now split.
            -- now left.
      - split_and; [lra|discriminate|left; reflexivity]. }
    destruct Hacc as (A1 & A2 & A3). destruct IH as (I1 & I2 & I3).
    split_and.
    + lra.
    + intros c' s [<-|Hin] Hs.
      * destruct (A2 s Hs); [left; lra|now right].
      * now apply (I2 c' s).
    + destruct I3 as [I3|(c' & s & Hin & Hs & Hr)].
      * destruct A3 as [A3|(s & Hs & Ha)].
        -- left. lra.
        -- right. exists c, s. split_and; [now left|assumption|lra].
      * right. exists c', s. split_and; [now right|assumption|assumption].
Qed.

End FrameRate.

(** The export frame rate is positive and at least the frame rate of
    every referenced registered source; it is the frame rate of one of
    them, or the default of 30 when none has a positive frame rate. *)
Theorem export_frame_rate_is_the_maximum
    (getSource : string -> option VideoSource) (cs : list TimelineClip) :
  0 < getMaxFrameRate getSource cs
  /\ (forall c s, In c cs -> getSource (sourceId c) = Some s ->
                  frameRate s <= getMaxFrameRate getSource cs)
  /\ (getMaxFrameRate getSource cs == DEFAULT_FRAME_RATE
      \/ exists c s, In c cs /\ getSource (sourceId c) = Some s
                     /\ getMaxFrameRate getSource cs == frameRate s).
Proof.
  unfold getMaxFrameRate, DEFAULT_FRAME_RATE.
  pose proof (frame_rate_fold getSource cs 0) as H. cbv zeta in H.
  match goal with
  | |- context [fold_left ?f cs 0] => set (r := fold_left f cs 0) in *
  end.
  destruct H as (H1 & H2 & H3).
  destruct (0 <? r) eqn:E; js_reflect.
  - split_and; [assumption| |].
    + intros c s Hin Hs. destruct (H2 c s Hin Hs); lra.
    + destruct H3 as [H3|H3]; [lra|now right].
  - split_and; [lra| |left; reflexivity].
    intros c s Hin Hs. destruct (H2 c s Hin Hs); lra.
Qed.

(* ------------------------------------------------------------------ *)
(** ** The exporter: one decoder per source, format negotiation *)

Lemma uniqueInOrder_spec ids : forall seen,
  NoDup (uniqueInOrder seen ids)
  /\ forall x, In x (uniqueInOrder seen ids)
               <-> In x ids /\ ~ In x seen.
Proof.
  induction ids as [|a ids IH]; intros seen; simpl.
  - split; [constructor|]. intros x. tauto.
  - destruct (existsb (String.eqb a) seen) eqn:E.
    + destruct (IH seen) as [Hnd Hin]. split; [assumption|].
      intros x. rewrite Hin. apply existsb_exists in E.
      destruct E as (y & Hy & Ey). apply String.eqb_eq in Ey. subst y.
      split; [tauto|]. intros [[<-|H] Hn]; [contradiction|tauto].
    + destruct (IH (a :: seen)) as [Hnd Hin].
      assert (Ha : ~ In a seen).
      { intros Ha. assert (existsb (String.eqb a) seen = true).
        { apply existsb_exists. exists a. split; [assumption|].
          apply String.eqb_refl. }
        congruence. }
      split.
      * constructor; [|assumption]. rewrite Hin. simpl. tauto.
      * intros x. simpl. rewrite Hin. simpl.
        destruct (string_dec a x) as [->|Hne]; tauto.
Qed.

Section Acquisition.

Variable browser : Browser.
Variable getSource : string -> option VideoSource.

(** The elements [loadEach] returns are the registered identifiers it
    was given, in order, and it logs one video element for each. *)
Lemma loadEach_success ids : forall log log' els,
  loadEach browser getSource ids log = (log', inr els) ->
  els = registeredIds getSource ids
  /\ log' = log ++ map (fun s => AcquireVideoElement (vs_id s))
                       (registeredSources getSource ids).
Proof.
  induction ids as [|sid ids IH]; intros log log' els; simpl.
  - unfold ExportM.ret. intros [= <- <-]. now rewrite app_nil_r.
  - destruct (getSource sid) as [s|] eqn:Hs.
    + unfold loadVideoElement, ExportM.bind, ExportM.acquire.
      destruct (videoLoads browser s); [|discriminate].
      unfold ExportM.ret at 1.
      destruct (loadEach _ _ ids _) as [l [e|r]] eqn:E; [discriminate|].
      unfold ExportM.ret. intros [= <- <-].
      destruct (IH _ _ _ E) as [-> ->].
      split; [reflexivity|]. simpl. now rewrite <- app_assoc.
    + apply IH.
Qed.

Lemma loadEach_all_load ids : forall log,
  (forall s, videoLoads browser s = true) ->
  loadEach browser getSource ids log
  = (log ++ map (fun s => AcquireVideoElement (vs_id s))
                (registeredSources getSource ids),
     inr (registeredIds getSource ids)).
Proof.
  intros log Hload. revert log.
  induction ids as [|sid ids IH]; intros log; simpl.
  - now rewrite app_nil_r.
  - destruct (getSource sid) as [s|] eqn:Hs; [|apply IH].
    unfold loadVideoElement, ExportM.bind, ExportM.acquire.
    rewrite Hload. unfold ExportM.ret at 1. rewrite IH.
    unfold ExportM.ret. simpl. now rewrite <- app_assoc.
Qed.

Lemma registered_lengths ids :
  List.length (registeredSources getSource ids)
  = List.length (registeredIds getSource ids).
Proof.
  unfold registeredSources, registeredIds.
  induction ids as [|sid ids IH]; simpl; [reflexivity|].
  destruct (getSource sid); simpl; now rewrite IH.
Qed.

End Acquisition.

(** When [prepareVideoElements] succeeds it has opened exactly one video
    element per distinct registered source the clips refer to: the keys it
    returns are pairwise distinct, a key is returned exactly for the
    registered source identifiers of the clips, and the log has grown by
    as many video elements as there are keys. *)
Theorem one_video_element_per_source
    (browser : Browser) (getSource : string -> option VideoSource)
    (cs : list TimelineClip) (log log' : list Acquisition)
    (elements : list string) :
  prepareVideoElements browser getSource cs log = (log', inr elements) ->
  NoDup elements
  /\ (forall sid, In sid elements
                  <-> (exists c, In c cs /\ sourceId c = sid)
                      /\ getSource sid <> None)
  /\ exists opened,
       log' = log ++ opened
       /\ List.length opened = List.length elements
       /\ Forall (fun a => match a with
                           | AcquireVideoElement _ => True
                           | _ => False
                           end) opened.
Proof.
  unfold prepareVideoElements. intros H.
  apply loadEach_success in H. destruct H as [-> ->].
  destruct (uniqueInOrder_spec (map sourceId cs) []) as [Hnd Hin].
  split_and.
  - unfold registeredIds. now apply NoDup_filter.
  - intros sid. unfold registeredIds. rewrite filter_In, Hin, in_map_iff.
    split.
    + intros [[(c & Hc & Hcin) _] Hreg]. split.
      * exists c. now split.
      * destruct (getSource sid); [discriminate|discriminate].
    + intros [(c & Hcin & Hc) Hreg]. split.
      * split; [exists c; now split|intros []].
      * destruct (getSource sid); [reflexivity|contradiction].
  - eexists. split; [reflexivity|]. split.
    + rewrite length_map. apply registered_lengths.
    + apply Forall_map, Forall_forall. intros s _. exact I.
Qed.

Lemma one_video_element_per_source_witness :
  NoDup ["s10"; "s20"]%string.
Proof.
  refine (proj1 (one_video_element_per_source Sample.browser Sample.registry
                   [mkClip "a" "s10" 0 10 0 (mkTrimmed 0 0);
                    mkClip "b" "s20" 0 20 10 (mkTrimmed 0 0);
                    mkClip "c" "s10" 2 5 30 (mkTrimmed 2 5)]
                   [] [AcquireVideoElement "s10"; AcquireVideoElement "s20"]
                   ["s10"; "s20"]%string eq_refl)).
Defined.

(** The setup of an export whose preconditions hold and whose videos all
    load.  With [w] x [h] the output resolution, it takes the canvas first
    and then creates the renderer on it; if creating the renderer throws (no
    WebGL2 context, or a shader that does not compile or link), the export
    fails with that error and only the canvas taken.  Otherwise it goes on
    to take one video element per distinct registered source, the canvas
    stream at the export frame rate and the audio context, in this order.
    Only then is the format chosen: the first of the three formats the
    browser can record, for which the recorder is created and the
    recording job is handed on; if the browser can record none, the export
    fails at this point, with everything above already taken. *)
Theorem export_setup_outcome
    (browser : Browser) (getSource : string -> option VideoSource)
    (cs : list TimelineClip) (regions : list ColorRegion) :
  cs <> [] ->
  fst (getOutputResolution getSource cs) <> 0%Z ->
  snd (getOutputResolution getSource cs) <> 0%Z ->
  (forall s, videoLoads browser s = true) ->
  let ids := uniqueInOrder [] (map sourceId cs) in
  let canvas :=
    AcquireCanvas (fst (getOutputResolution getSource cs))
                  (snd (getOutputResolution getSource cs)) in
  let taken :=
    [canvas; AcquireRenderer]
    ++ map (fun s => AcquireVideoElement (vs_id s))
           (registeredSources getSource ids)
    ++ [AcquireCanvasStream (getMaxFrameRate getSource cs);
        AcquireAudioContext] in
  ExportM.exec (exportVideo browser getSource cs regions)
  = match rendererError browser with
    | Some message => ([canvas], inl (RendererFailed message))
    | None =>
        match find (isTypeSupported browser) mimeTypePreference with
        | Some mimeType =>
            (taken ++ [AcquireRecorder mimeType],
             inr (mkJob mimeType (registeredIds getSource ids)
                        (precomputeClipBoundaries cs regions)
                        (exportTotalDuration cs)))
        | None => (taken, inl NoSupportedFormat)
        end
    end.
Proof.
  intros Hne Hw Hh Hload ids canvas taken. subst ids canvas taken.
  assert (Hv : validateClips cs = ExportM.ret tt)
    by (destruct cs; [congruence|reflexivity]).
  unfold ExportM.exec, exportVideo, ExportM.bind. rewrite Hv.
  unfold ExportM.ret at 1. cbv beta iota.
  destruct (getOutputResolution getSource cs) as [w h] eqn:Eres.
  cbn [fst snd] in *.
  unfold validateResolution, ExportM.throw, ExportM.ret.
  apply Z.eqb_neq in Hw, Hh. rewrite Hw, Hh. cbn [orb].
  unfold setupExportResources, prepareVideoElements, createRenderer,
    ExportM.bind, ExportM.acquire, ExportM.throw, getSupportedMimeType.
  destruct (rendererError browser) as [message|]; [reflexivity|].
  rewrite (loadEach_all_load browser getSource _ _ Hload).
  change (find (isTypeSupported browser)
            ["video/webm;codecs=vp9,opus"%string;
             "video/webm;codecs=vp8,opus"%string; "video/webm"%string])
    with (find (isTypeSupported browser) mimeTypePreference).
  destruct (find (isTypeSupported browser) mimeTypePreference) as [m|].
  - unfold ExportM.ret. cbn [fst snd app].
    repeat rewrite <- app_assoc. reflexivity.
  - cbn [fst snd app].
    repeat rewrite <- app_assoc. reflexivity.
Qed.

Lemma export_setup_outcome_witness :
  ExportM.exec
    (exportVideo (mkBrowser (fun _ => true) (fun _ => true)
                            (Some "WebGL2 not supported"%string))
       Sample.registry (clips (timeline Sample.twoClips)) [])
  = ([AcquireCanvas 1920 1080],
     inl (RendererFailed "WebGL2 not supported")).
Proof.
  refine (export_setup_outcome
            (mkBrowser (fun _ => true) (fun _ => true)
                       (Some "WebGL2 not supported"%string))
            Sample.registry (clips (timeline Sample.twoClips)) [] _ _ _ _).
  - discriminate.
  - discriminate.
  - discriminate.
  - reflexivity.
Defined.

(* ------------------------------------------------------------------ *)
(** ** The exporter: the render loop *)

Section RenderLoop.

Lemma advanceFrom_spec elapsed rest : forall index,
  (index <= advanceFrom rest index elapsed)%nat
  /\ (advanceFrom rest index elapsed <= index + List.length rest)%nat
  /\ (forall k b,
         (k < advanceFrom rest index elapsed - index)%nat ->
         nth_error rest k = Some b -> cb_end b <= elapsed)
  /\ (forall b,
         nth_error rest (advanceFrom rest index elapsed - index) = Some b ->
         elapsed < cb_end b)
  /\ (forall later,
         elapsed <= later ->
         advanceFrom (skipn (advanceFrom rest index elapsed - index) rest)
                     (advanceFrom rest index elapsed) later
         = advanceFrom rest index later).
Proof.
  induction rest as [|b rest IH]; intros index; cbn [advanceFrom].
  - rewrite Nat.sub_diag. split_and.
    + lia.
    + lia.
    + intros k b Hk. lia.
    + intros b H. discriminate.
    + intros later _. reflexivity.
  - destruct (cb_end b <=? elapsed) eqn:E; js_reflect.
    + destruct (IH (S index)) as (I1 & I2 & I3 & I4 & I5).
      assert (Hsub : (advanceFrom rest (S index) elapsed - index
                      = S (advanceFrom rest (S index) elapsed - S index))%nat)
        by lia.
      rewrite Hsub. cbn [List.length nth_error skipn].
      split_and.
      * lia.
      * lia.
      * intros [|k] b' Hk Hb; simpl in Hb.
        -- injection Hb as <-. assumption.
        -- apply (I3 k b'); [lia|assumption].
      * exact I4.
      * intros later Hl. rewrite (I5 later Hl). cbn [advanceFrom].
        assert ((cb_end b <=? later) = true)
          by (apply JsNumFacts.leb_le; lra).
        now rewrite H.
    + rewrite Nat.sub_diag. split_and.
      * lia.
      * lia.
      * intros k b' Hk. lia.
      * intros b' [= <-]. exact E.
      * intros later _. reflexivity.
Qed.

Lemma advance_composes bs i elapsed later :
  elapsed <= later ->
  advanceClipIndex (advanceClipIndex i bs elapsed) bs later
  = advanceClipIndex i bs later.
Proof.
  intros Hl. unfold advanceClipIndex.
  destruct (advanceFrom_spec elapsed (skipn i bs) i)
    as (I1 & _ & _ & _ & I5).
  rewrite <- (I5 later Hl). f_equal.
  rewrite skipn_skipn. f_equal. lia.
Qed.

(** The cursor on the boundaries of a chained list of clips. *)
Lemma advanceFrom_chained regions elapsed cs : forall p index,
  chained p cs -> Forall clip_shape cs -> p <= elapsed ->
  (elapsed < p + calculateTotalDuration cs ->
   exists k clip,
     advanceFrom (precomputeClipBoundaries cs regions) index elapsed
     = (index + k)%nat
     /\ nth_error cs k = Some clip
     /\ timelinePositionSeconds clip <= elapsed
     /\ elapsed < timelinePositionSeconds clip + getClipDuration clip)
  /\ (p + calculateTotalDuration cs <= elapsed ->
      advanceFrom (precomputeClipBoundaries cs regions) index elapsed
      = (index + List.length cs)%nat).
Proof.
  induction cs as [|c cs IH]; intros p index Hch Hsh Hlo.
  - change (calculateTotalDuration []) with 0. split.
    + intros H. lra.
    + intros _. simpl. lia.
  - destruct Hch as [Hp Hch].
    pose proof (Forall_inv Hsh) as (Hlt & _).
    apply Forall_inv_tail in Hsh.
    pose proof (total_cons c cs) as Htot.
    pose proof (total_shapes_nonneg cs Hsh) as Hnn.
    cbn [precomputeClipBoundaries map advanceFrom cb_end].
    fold (precomputeClipBoundaries cs regions).
    unfold getClipDuration in *.
    destruct (_ <=? elapsed) eqn:E; js_reflect.
    + destruct (IH (p + (sourceOutPointSeconds c - sourceInPointSeconds c))
                   (S index) Hch Hsh) as [I1 I2]; [lra|].
      split.
      * intros H. destruct I1 as (k & clip & Hk & Hn & H1 & H2); [lra|].
        exists (S k), clip. split_and; try assumption.
        rewrite Hk. lia.
      * intros H. rewrite I2 by lra. simpl. lia.
    + split.
      * intros _. exists 0%nat, c. split_and; try reflexivity; try lra.
        lia.
      * intros H. lra.
Qed.

End RenderLoop.

(** The clip cursor of the render loop only moves forward and never past
    the end of the boundaries; every boundary it skips has ended by the
    elapsed time and the boundary it stops at has not; and moving it on in
    steps, at times that do not decrease, leaves it where a single move at
    the last time leaves it. *)
Theorem clip_cursor_advances_monotonically
    (boundaries : list ClipBoundary) (index : nat) (elapsed : Q) :
  (index <= advanceClipIndex index boundaries elapsed)%nat
  /\ (advanceClipIndex index boundaries elapsed
      <= Nat.max index (List.length boundaries))%nat
  /\ (forall j b,
         (index <= j < advanceClipIndex index boundaries elapsed)%nat ->
         nth_error boundaries j = Some b -> cb_end b <= elapsed)
  /\ (forall b,
         nth_error boundaries (advanceClipIndex index boundaries elapsed)
         = Some b ->
         elapsed < cb_end b)
  /\ (forall later,
         elapsed <= later ->
         advanceClipIndex (advanceClipIndex index boundaries elapsed)
                          boundaries later
         = advanceClipIndex index boundaries later).
Proof.
  pose proof (advanceFrom_spec elapsed (skipn index boundaries) index)
    as (I1 & I2 & I3 & I4 & _).
  fold (advanceClipIndex index boundaries elapsed) in I1, I2, I3, I4.
  rewrite length_skipn in I2.
  split_and.
  - exact I1.
  - lia.
  - intros j b Hj Hb. apply (I3 (j - index)%nat b); [lia|].
    rewrite nth_error_skipn. rewrite <- Hb. f_equal. lia.
  - intros b Hb. apply I4. rewrite nth_error_skipn. rewrite <- Hb.
    f_equal. lia.
  - intros later Hl. now apply advance_composes.
Qed.

(** Rendering over a contiguous timeline of well-shaped clips whose
    sources all have a video element, whatever those elements are showing,
    with the cursor left where an earlier frame put it.  At an elapsed time
    inside the timeline the frame is never blank: the cursor is on the clip
    whose span holds the elapsed time; the target source time is the clip's
    in-point plus the time elapsed in the clip, never before the in-point;
    the frame drawn is the current frame of that clip's source element,
    sought to the target only if it had drifted more than 0.1 s from it, so
    at most 0.1 s from the target, and set playing; the masks are looked up
    at the target time in that clip's regions only; and the loop goes on.
    From the total duration on the frame is blank and the loop stops. *)
Theorem export_renders_every_instant
    (cs : list TimelineClip) (regions : list ColorRegion)
    (mimeType : string) (videoElements : list string)
    (element : string -> VideoElement)
    (earlier elapsed : Q) :
  contiguous cs ->
  Forall clip_shape cs ->
  (forall c, In c cs -> In (sourceId c) videoElements) ->
  0 <= earlier ->
  earlier <= elapsed ->
  let job :=
    mkJob mimeType videoElements (precomputeClipBoundaries cs regions)
          (exportTotalDuration cs) in
  let cursor := advanceClipIndex 0 (job_clipBoundaries job) earlier in
  let step := renderFrame job element cursor elapsed in
  (elapsed < calculateTotalDuration cs ->
   exists clip video,
     nth_error cs (fs_index step) = Some clip
     /\ timelinePositionSeconds clip <= elapsed
     /\ elapsed < timelinePositionSeconds clip + getClipDuration clip
     /\ fs_action step
        = DrawFrame (sourceId clip) video
            (renderWithMask
               (filter (fun r => String.eqb (clipId r) (id clip)) regions)
               (sourceInPointSeconds clip
                + (elapsed - timelinePositionSeconds clip)))
     /\ video
        = syncVideoPlayback (element (sourceId clip))
            (sourceInPointSeconds clip
             + (elapsed - timelinePositionSeconds clip))
     /\ sourceInPointSeconds clip
        <= sourceInPointSeconds clip
           + (elapsed - timelinePositionSeconds clip)
     /\ Qabs (ve_currentTime video
              - (sourceInPointSeconds clip
                 + (elapsed - timelinePositionSeconds clip)))
        <= SEEK_THRESHOLD_SECONDS
     /\ (Qabs (ve_currentTime (element (sourceId clip))
               - (sourceInPointSeconds clip
                  + (elapsed - timelinePositionSeconds clip)))
         <= SEEK_THRESHOLD_SECONDS ->
         ve_currentTime video = ve_currentTime (element (sourceId clip)))
     /\ ve_paused video = false
     /\ fs_stop step = false)
  /\ (calculateTotalDuration cs <= elapsed ->
      fs_action step = ClearFrame /\ fs_stop step = true).
Proof.
  intros Hc Hsh Hvid H0 Hle job cursor step. subst step cursor job.
  unfold renderFrame. cbn [job_clipBoundaries job_totalDuration
                           job_videoElements fs_index fs_action fs_stop].
  rewrite advance_composes by assumption.
  unfold advanceClipIndex. cbn [skipn].
  pose proof (contiguous_chained cs Hc) as Hch.
  destruct (advanceFrom_chained regions elapsed cs 0 0%nat Hch Hsh)
    as [Hin Hout]; [lra|].
  change (exportTotalDuration cs) with (calculateTotalDuration cs).
  split.
  - intros Hlt.
    destruct Hin as (k & clip & Hk & Hn & H1 & H2); [lra|].
    rewrite Hk. cbn [Nat.add].
    exists clip.
    exists (syncVideoPlayback (element (sourceId clip))
              (sourceInPointSeconds clip
               + (elapsed - timelinePositionSeconds clip))).
    split; [assumption|].
    unfold precomputeClipBoundaries. rewrite nth_error_map, Hn.
    cbn [option_map renderCurrentFrame cb_start cb_end cb_clip cb_regions].
    unfold getClipDuration in *.
    assert (E1 : (elapsed <? timelinePositionSeconds clip) = false)
      by (apply JsNumFacts.ltb_ge; lra).
    assert (E2 : (timelinePositionSeconds clip
                  + (sourceOutPointSeconds clip - sourceInPointSeconds clip)
                  <=? elapsed) = false)
      by (apply JsNumFacts.leb_gt; lra).
    assert (E3 : existsb (String.eqb (sourceId clip)) videoElements = true).
    { apply existsb_exists. exists (sourceId clip). split.
      - apply Hvid. eapply nth_error_In; eassumption.
      - apply String.eqb_refl. }
    rewrite E1, E2, E3. cbn [orb].
    unfold calculateSourceTime. cbn [cb_start cb_clip].
    set (target := sourceInPointSeconds clip
                   + (elapsed - timelinePositionSeconds clip)).
    clear E1 E2 E3.
    assert (Hstop : (calculateTotalDuration cs <=? elapsed) = false)
      by (apply JsNumFacts.leb_gt; lra).
    assert (Htarget : sourceInPointSeconds clip <= target)
      by (subst target; lra).
    clearbody target.
    unfold syncVideoPlayback.
    destruct (SEEK_THRESHOLD_SECONDS
              <? Qabs (ve_currentTime (element (sourceId clip)) - target))
      eqn:E;
      [apply JsNumFacts.ltb_lt in E | apply JsNumFacts.ltb_ge in E];
      cbn [ve_paused ve_currentTime];
      destruct (ve_paused (element (sourceId clip))) eqn:Ep;
      cbn [ve_paused ve_currentTime];
      split_and; try reflexivity; try assumption; try lra;
      try (intros Hnear; lra);
      try (setoid_replace (target - target) with 0 by ring;
           vm_compute; discriminate).
  - intros Hge. rewrite Hout by lra. cbn [Nat.add].
    assert (E : nth_error (precomputeClipBoundaries cs regions)
                          (List.length cs) = None).
    { apply nth_error_None. unfold precomputeClipBoundaries.
      rewrite length_map. lia. }
    rewrite E. split; [reflexivity|].
    apply JsNumFacts.leb_le. lra.
Qed.

Lemma export_renders_every_instant_witness :
  fs_stop
    (renderFrame
       (mkJob "video/webm" ["s10"; "s20"]%string
          (precomputeClipBoundaries (clips (timeline Sample.twoClips))
                                    Sample.twoRegions)
          (exportTotalDuration (clips (timeline Sample.twoClips))))
       (fun _ => mkVideoElement 0 true)
       (advanceClipIndex 0
          (precomputeClipBoundaries (clips (timeline Sample.twoClips))
                                    Sample.twoRegions) 12)
       30)
  = true.
Proof.
  refine (proj2 (proj2 (export_renders_every_instant
                          (clips (timeline Sample.twoClips))
                          Sample.twoRegions "video/webm" ["s10"; "s20"]%string
                          (fun _ => mkVideoElement 0 true)
                          12 30 _ _ _ _ _) _)).
  - apply run_contiguous, nil_contiguous.
  - repeat constructor; vm_compute; congruence.
  - intros c [<-|[<-|[]]]; simpl; auto.
  - lra.
  - lra.
  - vm_compute. congruence.
Defined.



(* ------------------------------------------------------------------ *)
(** ** Choosing the best of a list *)

Section FirstBest.

Context {A : Type}.
Variable key : A -> Q.

Lemma firstMin_one a : firstMin key [a] a.
Proof.
  exists 0%nat. split_and.
  - reflexivity.
  - intros o [<-|[]]. lra.
  - intros j o Hj. lia.
Qed.

Lemma firstMin_keep pre a x :
  firstMin key pre a -> key a <= key x -> firstMin key (pre ++ [x]) a.
Proof.
  intros (i & Hi & Hmin & Hfirst) Hx. exists i.
  assert (Hlt : (i < List.length pre)%nat)
    by (apply nth_error_Some; congruence).
  split_and.
  - rewrite nth_error_app1; assumption.
  - intros o Ho. apply in_app_or in Ho as [Ho|[<-|[]]]; auto.
  - intros j o Hj Ho. rewrite nth_error_app1 in Ho by lia. eauto.
Qed.

Lemma firstMin_take pre a x :
  firstMin key pre a -> key x < key a -> firstMin key (pre ++ [x]) x.
Proof.
  intros (i & Hi & Hmin & Hfirst) Hx. exists (List.length pre).
  split_and.
  - rewrite nth_error_app2, Nat.sub_diag by lia. reflexivity.
  - intros o Ho. apply in_app_or in Ho as [Ho|[<-|[]]]; [|lra].
    pose proof (Hmin o Ho). lra.
  - intros j o Hj Ho. rewrite nth_error_app1 in Ho by lia.
    apply nth_error_In in Ho. pose proof (Hmin o Ho). lra.
Qed.

Lemma firstMax_one a : firstMax key [a] a.
Proof.
  exists 0%nat. split_and.
  - reflexivity.
  - intros o [<-|[]]. lra.
  - intros j o Hj. lia.
Qed.

Lemma firstMax_keep pre a x :
  firstMax key pre a -> key x <= key a -> firstMax key (pre ++ [x]) a.
Proof.
  intros (i & Hi & Hmax & Hfirst) Hx. exists i.
  assert (Hlt : (i < List.length pre)%nat)
    by (apply nth_error_Some; congruence).
  split_and.
  - rewrite nth_error_app1; assumption.
  - intros o Ho. apply in_app_or in Ho as [Ho|[<-|[]]]; auto.
  - intros j o Hj Ho. rewrite nth_error_app1 in Ho by lia. eauto.
Qed.

Lemma firstMax_take pre a x :
  firstMax key pre a -> key a < key x -> firstMax key (pre ++ [x]) x.
Proof.
  intros (i & Hi & Hmax & Hfirst) Hx. exists (List.length pre).
  split_and.
  - rewrite nth_error_app2, Nat.sub_diag by lia. reflexivity.
  - intros o Ho. apply in_app_or in Ho as [Ho|[<-|[]]]; [|lra].
    pose proof (Hmax o Ho). lra.
  - intros j o Hj Ho. rewrite nth_error_app1 in Ho by lia.
    apply nth_error_In in Ho. pose proof (Hmax o Ho). lra.
Qed.

End FirstBest.

(* ------------------------------------------------------------------ *)
(** ** Mask lookup *)

Section NearestMask.

Variable timeSeconds : Q.

Lemma closerMask_fold l : forall pre closest,
  firstMin (fun fm => Qabs (timeSeconds - frameTimeSeconds fm)) pre closest ->
  firstMin (fun fm => Qabs (timeSeconds - frameTimeSeconds fm)) (pre ++ l)
    (fst (fold_left (closerMask timeSeconds) l
            (closest, Qabs (timeSeconds - frameTimeSeconds closest)))).
Proof.
  induction l as [|fm l IH]; intros pre closest Hinv.
  - rewrite app_nil_r. exact Hinv.
  - cbn [fold_left closerMask].
    replace (pre ++ fm :: l) with ((pre ++ [fm]) ++ l)
      by (rewrite <- app_assoc; reflexivity).
    destruct (_ <? _) eqn:E; js_reflect; apply IH.
    + apply firstMin_take with (a := closest); assumption.
    + apply firstMin_keep; assumption.
Qed.

End NearestMask.

(** The mask looked up for a time is the first of the masks that are
    nearest to that time; nothing is found only in an empty list. *)
Theorem mask_lookup_returns_first_nearest
    (frameMasks : list FrameMask) (timeSeconds : Q) :
  match getMaskForTime frameMasks timeSeconds with
  | Some found =>
      firstMin (fun fm => Qabs (timeSeconds - frameTimeSeconds fm))
               frameMasks found
  | None => frameMasks = []
  end.
Proof.
  destruct frameMasks as [|first [|second rest]]; cbn [getMaskForTime].
  - reflexivity.
  - apply firstMin_one.
  - cbn [fold_left closerMask].
    assert (E : (Qabs (timeSeconds - frameTimeSeconds first)
                 <? Qabs (timeSeconds - frameTimeSeconds first)) = false)
      by (apply JsNumFacts.ltb_ge; lra).
    rewrite E.
    apply (closerMask_fold timeSeconds (second :: rest) [first] first).
    apply firstMin_one.
Qed.

(* ------------------------------------------------------------------ *)
(** ** Object tracking *)

Section Tracking.

Import ObjectTracker.

Lemma betterMatch_fold previousBox iouThreshold l : forall pre bestMatch bestIoU,
  match bestMatch with
  | Some o =>
      bestIoU = calculateIoU previousBox (box o)
      /\ iouThreshold < bestIoU
      /\ firstMax (fun o => calculateIoU previousBox (box o)) pre o
  | None =>
      bestIoU = iouThreshold
      /\ forall o, In o pre -> calculateIoU previousBox (box o) <= iouThreshold
  end ->
  match fst (fold_left (betterMatch previousBox) l (bestMatch, bestIoU)) with
  | Some o =>
      iouThreshold < calculateIoU previousBox (box o)
      /\ firstMax (fun o => calculateIoU previousBox (box o)) (pre ++ l) o
  | None =>
      forall o, In o (pre ++ l) ->
                calculateIoU previousBox (box o) <= iouThreshold
  end.
Proof.
  induction l as [|obj l IH]; intros pre bestMatch bestIoU Hinv.
  - rewrite app_nil_r. cbn [fold_left fst].
    destruct bestMatch as [o|].
    + destruct Hinv as (-> & H1 & H2). split; assumption.
    + apply Hinv.
  - cbn [fold_left betterMatch].
    replace (pre ++ obj :: l) with ((pre ++ [obj]) ++ l)
      by (rewrite <- app_assoc; reflexivity).
    destruct (_ <? _) eqn:E; js_reflect; apply IH.
    + split_and; [reflexivity| |].
      * destruct bestMatch as [o|].
        -- destruct Hinv as (-> & H1 & _). lra.
        -- destruct Hinv as (-> & _). assumption.
      * destruct bestMatch as [o|].
        -- destruct Hinv as (-> & _ & H2).
           apply firstMax_take with (a := o); assumption.
        -- destruct Hinv as (-> & H2).
           exists (List.length pre). split_and.
           ++ rewrite nth_error_app2, Nat.sub_diag by lia. reflexivity.
           ++ intros o Ho. apply in_app_or in Ho as [Ho|[<-|[]]]; [|lra].
              pose proof (H2 o Ho). lra.
           ++ intros j o Hj Ho. rewrite nth_error_app1 in Ho by lia.
              apply nth_error_In in Ho. pose proof (H2 o Ho). lra.
    + destruct bestMatch as [o|].
      * destruct Hinv as (-> & H1 & H2). split_and; try assumption.
        -- reflexivity.
        -- apply firstMax_keep; assumption.
      * destruct Hinv as (-> & H2). split; [reflexivity|].
        intros o Ho. apply in_app_or in Ho as [Ho|[<-|[]]]; auto.
Qed.

Lemma smaller_fold l : forall pre smallest,
  firstMin (fun o => boxArea (box o)) pre smallest ->
  firstMin (fun o => boxArea (box o)) (pre ++ l)
           (fold_left smaller l smallest).
Proof.
  induction l as [|obj l IH]; intros pre smallest Hinv.
  - rewrite app_nil_r. exact Hinv.
  - cbn [fold_left]. unfold smaller at 2.
    replace (pre ++ obj :: l) with ((pre ++ [obj]) ++ l)
      by (rewrite <- app_assoc; reflexivity).
    destruct (_ <? _) eqn:E; js_reflect; apply IH.
    + apply firstMin_take with (a := smallest); assumption.
    + apply firstMin_keep; assumption.
Qed.

End Tracking.

(** Tracking from one frame to the next returns the first of the detected
    objects whose overlap with the previous box is largest, and only when
    that overlap is above the threshold; it returns nothing exactly when
    no detected object overlaps the previous box by more than the
    threshold. *)
Theorem tracking_takes_the_best_overlap
    (previousBox : ObjectTracker.BoundingBox)
    (currentFrameObjects : list ObjectTracker.DetectedObject)
    (iouThreshold : Q) :
  match ObjectTracker.trackObject previousBox currentFrameObjects
                                  iouThreshold with
  | Some tracked =>
      iouThreshold
      < ObjectTracker.calculateIoU previousBox (ObjectTracker.box tracked)
      /\ firstMax
           (fun o => ObjectTracker.calculateIoU previousBox
                       (ObjectTracker.box o))
           currentFrameObjects tracked
  | None =>
      forall o, In o currentFrameObjects ->
        ObjectTracker.calculateIoU previousBox (ObjectTracker.box o)
        <= iouThreshold
  end.
Proof.
  unfold ObjectTracker.trackObject.
  destruct currentFrameObjects as [|obj objs].
  - intros o [].
  - apply (betterMatch_fold previousBox iouThreshold (obj :: objs) [] None
                            iouThreshold).
    split; [reflexivity|]. intros o [].
Qed.

(** The object picked at a clicked point is the first of the smallest
    among the detected objects whose box holds the point; nothing is
    picked exactly when no box holds the point. *)
Theorem click_picks_smallest_containing_object
    (objects : list ObjectTracker.DetectedObject) (px py : Q) :
  match ObjectTracker.findObjectAtPoint objects px py with
  | Some picked =>
      In picked objects
      /\ ObjectTracker.isPointInBox px py (ObjectTracker.box picked) = true
      /\ firstMin (fun o => boxArea (ObjectTracker.box o))
           (filter (fun o => ObjectTracker.isPointInBox px py
                               (ObjectTracker.box o)) objects)
           picked
      /\ (forall o, In o objects ->
            ObjectTracker.isPointInBox px py (ObjectTracker.box o) = true ->
            boxArea (ObjectTracker.box picked)
            <= boxArea (ObjectTracker.box o))
  | None =>
      forall o, In o objects ->
        ObjectTracker.isPointInBox px py (ObjectTracker.box o) = false
  end.
Proof.
  unfold ObjectTracker.findObjectAtPoint.
  destruct (filter _ objects) as [|first rest] eqn:E.
  - intros o Ho.
    destruct (ObjectTracker.isPointInBox px py (ObjectTracker.box o)) eqn:Ei;
      [|reflexivity].
    assert (Hin : In o (filter (fun o => ObjectTracker.isPointInBox px py
                                           (ObjectTracker.box o)) objects))
      by (apply filter_In; split; assumption).
    rewrite E in Hin. destruct Hin.
  - pose proof (smaller_fold rest [first] first (firstMin_one _ first))
      as Hmin.
    cbn [app] in Hmin.
    pose proof Hmin as (i & Hi & Hle & _).
    apply nth_error_In in Hi. rewrite <- E in Hi.
    apply filter_In in Hi as [Hi1 Hi2].
    split_and; try assumption.
    intros o Ho Hp. apply Hle. rewrite <- E. apply filter_In. now split.
Qed.

(** The overlap measure of two boxes does not depend on the order of the
    boxes, and it is 0 whenever one box ends, as computed, at or before the
    other begins, horizontally or vertically. *)
Theorem overlap_is_symmetric_and_zero_apart
    (box1 box2 : ObjectTracker.BoundingBox) :
  ObjectTracker.calculateIoU box1 box2
  == ObjectTracker.calculateIoU box2 box1
  /\ (ObjectTracker.x box1 + ObjectTracker.width box1 <= ObjectTracker.x box2
      \/ ObjectTracker.x box2 + ObjectTracker.width box2
         <= ObjectTracker.x box1
      \/ ObjectTracker.y box1 + ObjectTracker.height box1
         <= ObjectTracker.y box2
      \/ ObjectTracker.y box2 + ObjectTracker.height box2
         <= ObjectTracker.y box1 ->
      ObjectTracker.calculateIoU box1 box2 == 0).
Proof.
  destruct box1 as [xa ya wa ha], box2 as [xb yb wb hb].
  unfold ObjectTracker.calculateIoU.
  cbn [ObjectTracker.x ObjectTracker.y ObjectTracker.width
       ObjectTracker.height] in *.
  split.
  - unfold JsNum.leb.
    rewrite (Q.max_comm xb xa), (Q.max_comm yb ya),
            (Q.min_comm (xb + wb) (xa + wa)), (Q.min_comm (yb + hb) (ya + ha)).
    destruct (_ || _); [reflexivity|].
    rewrite (Q.max_comm xb xa), (Q.max_comm yb ya),
            (Q.min_comm (xb + wb) (xa + wa)), (Q.min_comm (yb + hb) (ya + ha)).
    apply Qdiv_comp; ring.
  - intros Hapart.
    destruct (_ || _) eqn:E; [reflexivity|]. js_reflect.
    destruct Hapart as [Ha|[Ha|[Ha|Ha]]]; js_minmax; lra.
Qed.

(* ------------------------------------------------------------------ *)
(** ** Clip processing *)

Section Sampling.

Import ObjectTracker.

Variable Frame : Type.
Variable extractFrame : Q -> Frame.
Variable detectObjects : Frame -> option (list DetectedObject).
Variable runSegment : Frame -> Q -> Q -> SegmentOutcome.

Variables startTimeSeconds fps clickX clickY : Q.

(** A mask pushed for frame [i] is what the model returned on the frame
    extracted at that frame's instant. *)
Lemma processFrame_pushed previousBox i previousBox' fm :
  processFrame Frame extractFrame detectObjects runSegment
               startTimeSeconds (1 / fps) clickX clickY previousBox i
  = (previousBox', Some fm) ->
  frameTimeSeconds fm = frameInstant startTimeSeconds fps i
  /\ exists px py,
       runSegment (extractFrame (frameInstant startTimeSeconds fps i)) px py
       = Segmented (mask fm).
Proof.
  unfold processFrame, frameInstant.
  destruct (detectObjects _); [|discriminate].
  destruct (runSegment _ _ _) eqn:E; try discriminate.
  intros [= _ <-]. split; [reflexivity|]. eauto.
Qed.

Lemma processFrames_grid n : forall i previousBox,
  exists indices,
    StronglySorted lt indices
    /\ Forall (fun k => (i <= k < i + n)%nat) indices
    /\ Forall2 (fun fm k =>
                  frameTimeSeconds fm = frameInstant startTimeSeconds fps k
                  /\ exists px py,
                       runSegment
                         (extractFrame (frameInstant startTimeSeconds fps k))
                         px py
                       = Segmented (mask fm))
               (processFrames Frame extractFrame detectObjects runSegment
                              startTimeSeconds (1 / fps) clickX clickY
                              n i previousBox)
               indices.
Proof.
  induction n as [|n IH]; intros i previousBox; cbn [processFrames].
  - exists []. split_and; constructor.
  - destruct (processFrame _ _ _ _ _ _ _ _ _ _) as [previousBox' [fm|]] eqn:E.
    + destruct (IH (S i) previousBox') as (ks & Hs & Hr & Hf).
      exists (i :: ks). split_and.
      * constructor; [assumption|].
        revert Hr. apply Forall_impl. intros k Hk. lia.
      * constructor; [lia|].
        revert Hr. apply Forall_impl. intros k Hk. lia.
      * constructor; [|assumption].
        now apply processFrame_pushed in E.
    + destruct (IH (S i) previousBox') as (ks & Hs & Hr & Hf).
      exists ks. split_and; try assumption.
      revert Hr. apply Forall_impl. intros k Hk. lia.
Qed.

Lemma processFrames_length n : forall i previousBox,
  (List.length
     (processFrames Frame extractFrame detectObjects runSegment
                    startTimeSeconds (1 / fps) clickX clickY n i previousBox)
   <= n)%nat.
Proof.
  induction n as [|n IH]; intros i previousBox; cbn [processFrames].
  - simpl. lia.
  - destruct (processFrame _ _ _ _ _ _ _ _ _ _) as [previousBox' [fm|]].
    + cbn [List.length]. specialize (IH (S i) previousBox'). lia.
    + specialize (IH (S i) previousBox'). lia.
Qed.

(** With a detector that never throws and a model that always returns a
    mask, every frame is pushed. *)
Lemma processFrames_complete n : forall i previousBox,
  (forall frame, detectObjects frame <> None) ->
  (forall frame px py, exists m, runSegment frame px py = Segmented m) ->
  map frameTimeSeconds
    (processFrames Frame extractFrame detectObjects runSegment
                   startTimeSeconds (1 / fps) clickX clickY n i previousBox)
  = map (frameInstant startTimeSeconds fps) (seq i n).
Proof.
  intros i previousBox Hdetect Hsegment. revert i previousBox.
  induction n as [|n IH]; intros i previousBox; cbn [processFrames].
  - reflexivity.
  - unfold processFrame.
    destruct (detectObjects _) as [objects|] eqn:Ed;
      [|exfalso; eapply Hdetect; eassumption].
    match goal with
    | |- context [runSegment ?f ?px ?py] =>
        destruct (Hsegment f px py) as [m Hm]; rewrite Hm
    end.
    cbn [map seq frameTimeSeconds]. rewrite IH. reflexivity.
Qed.

End Sampling.



(* ------------------------------------------------------------------ *)
(** ** The colour slice and the undo history's comparison *)

Section ColourCalls.

Lemma regionsLoop_refl rs : regionsLoop rs rs = true.
Proof.
  induction rs as [|r rs IH]; simpl; [reflexivity|].
  now rewrite !String.eqb_refl, Bool.eqb_reflx.
Qed.

Lemma filter_removes regionId rs :
  existsb (fun r => String.eqb (cr_id r) regionId) rs = true ->
  (List.length (filter (fun r => negb (String.eqb (cr_id r) regionId)) rs)
   < List.length rs)%nat.
Proof.
  induction rs as [|r rs IH]; simpl; [discriminate|].
  destruct (String.eqb (cr_id r) regionId); simpl.
  - intros _.
    pose proof (filter_length_le
                  (fun r => negb (String.eqb (cr_id r) regionId)) rs).
    lia.
  - intros H. specialize (IH H). lia.
Qed.

Lemma filter_keeps regionId rs :
  existsb (fun r => String.eqb (cr_id r) regionId) rs = false ->
  filter (fun r => negb (String.eqb (cr_id r) regionId)) rs = rs.
Proof.
  induction rs as [|r rs IH]; simpl; [reflexivity|].
  destruct (String.eqb (cr_id r) regionId); simpl; [discriminate|].
  intros H. now rewrite IH.
Qed.

Lemma regionsLoop_complete regionId rs :
  regionsLoop (map summary rs)
    (map summary
       (map (fun r =>
               if negb (String.eqb (cr_id r) regionId) then r
               else
                 mkRegion (cr_id r) (clipId r) (frameMasks r) false
                          (totalFrames r) (processedFrames r))
            rs))
  = negb (existsb (fun r => String.eqb (cr_id r) regionId && isProcessing r)
                  rs).
Proof.
  induction rs as [|r rs IH]; [reflexivity|].
  cbn [map regionsLoop existsb].
  destruct (String.eqb (cr_id r) regionId); cbn [negb andb orb].
  - cbn [summary rs_id rs_clipId rs_isProcessing cr_id clipId isProcessing].
    rewrite !String.eqb_refl. cbn [negb orb].
    destruct (isProcessing r); cbn [Bool.eqb negb orb]; [reflexivity|].
    exact IH.
  - rewrite !String.eqb_refl, Bool.eqb_reflx. cbn [negb orb]. exact IH.
Qed.

End ColourCalls.

(** Which calls on the colour slice the undo history's comparison tells
    from no change at all.  A progress report never differs, whatever
    region it names and whatever mask it carries.  Adding a region always
    differs.  Removing differs exactly when a region has the id.
    Completing differs exactly when a region that has the id is still
    processing. *)
Theorem history_comparison_of_colour_calls (state : TimelineStore) :
  (forall regionId processed frameMask,
     shallowEqualColorRegions
       (partialize state)
       (partialize (ColorSlice.updateColorRegionProgress
                      regionId processed frameMask state))
     = true)
  /\ (forall region,
        shallowEqualColorRegions
          (partialize state)
          (partialize (ColorSlice.addColorRegion region state))
        = false)
  /\ (forall regionId,
        shallowEqualColorRegions
          (partialize state)
          (partialize (ColorSlice.removeColorRegion regionId state))
        = negb (existsb (fun r => String.eqb (cr_id r) regionId)
                        (colorRegions state)))
  /\ (forall regionId,
        shallowEqualColorRegions
          (partialize state)
          (partialize (ColorSlice.setColorRegionComplete regionId state))
        = negb (existsb (fun r => String.eqb (cr_id r) regionId
                                  && isProcessing r)
                        (colorRegions state))).
Proof.
  unfold shallowEqualColorRegions, partialize,
    ColorSlice.updateColorRegionProgress, ColorSlice.addColorRegion,
    ColorSlice.removeColorRegion, ColorSlice.setColorRegionComplete,
    ColorSlice.set_colorRegions.
  cbn [snap_clips snap_colorRegions clips colorRegions].
  rewrite clipsJsonEqual_refl. cbn [negb].
  split_and.
  - intros regionId processed frameMask.
    rewrite !length_map, Nat.eqb_refl. cbn [negb].
    apply regionsLoop_same, progress_same_identity.
  - intros region.
    rewrite !length_map, length_app. cbn [List.length].
    assert (E : (List.length (colorRegions state)
                 =? List.length (colorRegions state) + 1)%nat = false)
      by (apply Nat.eqb_neq; lia).
    now rewrite E.
  - intros regionId.
    destruct (existsb _ (colorRegions state)) eqn:E; cbn [negb].
    + apply filter_removes in E. rewrite !length_map.
      assert (E' : (List.length (colorRegions state)
                    =? List.length
                         (filter (fun r => negb (String.eqb (cr_id r) regionId))
                                 (colorRegions state)))%nat = false)
        by (apply Nat.eqb_neq; lia).
      now rewrite E'.
    + rewrite (filter_keeps _ _ E), Nat.eqb_refl. cbn [negb].
      apply regionsLoop_refl.
  - intros regionId.
    rewrite !length_map, Nat.eqb_refl. cbn [negb].
    apply regionsLoop_complete.
Qed.

(* ------------------------------------------------------------------ *)
(** ** Dragging a trim handle *)

(** What a drag of a trim handle shows and what releasing it commits.
    For a well-formed clip of a registered source, grabbed at either
    handle and dragged anywhere: the in-point committed by a drag of the
    start handle is the in-point shown, unless that lies left of what was
    trimmed off before, where the commit stops; the out-point committed by
    a drag of the end handle is the out-point shown, unless that lies right
    of what was trimmed off before.  Within those limits the trimmed
    margins committed are the margins shown. *)
Theorem trim_drag_commits_what_it_shows
    (getSource : string -> option VideoSource) (e : Editor) (i : nat)
    (clip : TimelineClip) (source : VideoSource) (mode : TrimMode)
    (grabbedAt clientX : Q) :
  nth_error (clips (timeline e)) i = Some clip ->
  clip_wf getSource clip ->
  getSource (sourceId clip) = Some source ->
  0 < pixelsPerSecond (timeline e) ->
  let trimState := fst (handleTrimPointerDown clip grabbedAt mode) in
  let pendingTrim :=
    handleTrimPointerMove (pixelsPerSecond (timeline e)) (Some trimState)
      (Some (snd (handleTrimPointerDown clip grabbedAt mode)))
      clientX (durationInSeconds source) in
  exists committed,
    nth_error
      (clips (timeline (finishTrim getSource clip (Some trimState)
                                   pendingTrim e))) i
    = Some committed
    /\ match mode with
       | TrimStartMode =>
           sourceInPointSeconds committed
           == Qmax (sourceInPointSeconds clip - startSeconds (trimmed clip))
                   (displayInPoint clip pendingTrim)
           /\ sourceOutPointSeconds committed
              = displayOutPoint clip pendingTrim
           /\ (sourceInPointSeconds clip - startSeconds (trimmed clip)
               <= displayInPoint clip pendingTrim ->
               startSeconds (trimmed committed)
               == displayTrimmedStart clip pendingTrim)
           /\ endSeconds (trimmed committed)
              == displayTrimmedEnd clip pendingTrim
       | TrimEndMode =>
           sourceOutPointSeconds committed
           == Qmin (sourceOutPointSeconds clip + endSeconds (trimmed clip))
                   (Qmin (durationInSeconds source)
                         (displayOutPoint clip pendingTrim))
           /\ sourceInPointSeconds committed
              = displayInPoint clip pendingTrim
           /\ (displayOutPoint clip pendingTrim
               <= sourceOutPointSeconds clip + endSeconds (trimmed clip) ->
               displayOutPoint clip pendingTrim <= durationInSeconds source ->
               endSeconds (trimmed committed)
               == displayTrimmedEnd clip pendingTrim)
           /\ (sourceInPointSeconds clip + JsNum.tenth
               <= durationInSeconds source ->
               displayOutPoint clip pendingTrim <= durationInSeconds source)
           /\ startSeconds (trimmed committed)
              == displayTrimmedStart clip pendingTrim
       end.
Proof.
  intros Hn (Hin0 & (Hlt & Hts & Hte) & Hdur) Hsrc Hpps trimState pendingTrim.
  specialize (Hdur source Hsrc).
  assert (Hid : has_id (id clip) clip = true) by apply String.eqb_refl.
  subst trimState pendingTrim.
  unfold handleTrimPointerDown, handleTrimPointerMove, finishTrim.
  cbn [fst snd ts_mode startX originalInPoint originalOutPoint].
  set (deltaSeconds := (clientX - grabbedAt) / pixelsPerSecond (timeline e)).
  clearbody deltaSeconds.
  destruct mode;
    unfold displayInPoint, displayOutPoint, displayTrimmedStart,
      displayTrimmedEnd; cbn [inPoint outPoint].
  - match goal with
    | |- context [trimClipStart _ ?p e] => set (shown := p)
    end.
    destruct (nth_trimClipStart e (id clip) shown i clip Hn) as [pos Hc].
    eexists. split; [exact Hc|].
    destruct (trimStartOf_inPoint (id clip) shown clip Hid)
      as (H1 & H2 & _ & H4 & _).
    destruct (trimStartOf_memory (id clip) shown clip) as (M1 & _).
    cbn [with_timelinePosition sourceInPointSeconds sourceOutPointSeconds
         trimmed].
    assert (Hclamp : clampTrimStart clip shown == shown).
    { unfold clampTrimStart, shown, JsNum.tenth. js_minmax; lra. }
    rewrite Hclamp in H1.
    assert (Hrange : 0 <= shown)
      by (unfold shown, JsNum.tenth; js_minmax; lra).
    clearbody shown.
    split_and.
    + exact H1.
    + exact H2.
    + intros Hok. revert H1 M1. js_minmax; lra.
    + rewrite H4. js_minmax; lra.
  - match goal with
    | |- context [trimClipEnd _ _ ?p e] => set (shown := p)
    end.
    destruct (nth_trimClipEnd getSource e (id clip) shown i clip Hn)
      as [pos Hc].
    eexists. split; [exact Hc|].
    destruct (trimEndOf_outPoint getSource (id clip) shown clip source
                                 Hid Hsrc)
      as (H1 & H2 & _ & H4 & _).
    destruct (trimEndOf_memory getSource (id clip) shown clip) as (M1 & _).
    cbn [with_timelinePosition sourceInPointSeconds sourceOutPointSeconds
         trimmed].
    assert (Hclamp : clampTrimEnd clip shown (durationInSeconds source)
                     == Qmin (durationInSeconds source) shown).
    { unfold clampTrimEnd, shown, JsNum.tenth. js_minmax; lra. }
    rewrite Hclamp in H1.
    assert (Hrange : sourceInPointSeconds clip + JsNum.tenth
                     <= durationInSeconds source ->
                     shown <= durationInSeconds source)
      by (unfold shown, JsNum.tenth; js_minmax; lra).
    clearbody shown.
    split_and.
    + exact H1.
    + exact H2.
    + intros Hok Hfit. revert H1 M1. js_minmax; lra.
    + exact Hrange.
    + rewrite H4. js_minmax; lra.
Qed.

Lemma trim_drag_commits_what_it_shows_witness :
  exists committed,
    nth_error
      (clips (timeline
         (finishTrim Sample.registry
            (mkClip "a" "s10" 0 10 0 (mkTrimmed 0 0))
            (Some (fst (handleTrimPointerDown
                          (mkClip "a" "s10" 0 10 0 (mkTrimmed 0 0))
                          100 TrimStartMode)))
            (handleTrimPointerMove 50
               (Some (fst (handleTrimPointerDown
                             (mkClip "a" "s10" 0 10 0 (mkTrimmed 0 0))
                             100 TrimStartMode)))
               (Some (snd (handleTrimPointerDown
                             (mkClip "a" "s10" 0 10 0 (mkTrimmed 0 0))
                             100 TrimStartMode)))
               250 10)
            Sample.twoClips))) 0
    = Some committed
    /\ sourceInPointSeconds committed == 3.
Proof.
  destruct (trim_drag_commits_what_it_shows Sample.registry Sample.twoClips 0
              (mkClip "a" "s10" 0 10 0 (mkTrimmed 0 0)) Sample.source10
              TrimStartMode 100 250 eq_refl)
    as (committed & Hc & Hi & _).
  - unfold clip_wf, clip_shape. cbn. split_and; try lra.
    intros s [= <-]. cbn. lra.
  - reflexivity.
  - vm_compute. reflexivity.
  - exists committed. split; [exact Hc|].
    rewrite Hi. vm_compute. reflexivity.
Defined.

(* ------------------------------------------------------------------ *)
(** ** Preview playback *)

(** One tick of preview playback on a contiguous timeline of well-shaped
    clips, for a clip of the timeline whose video is running, wherever the
    video is.  The tick leaves the timeline alone and puts the playhead at
    0 or later and never past the end of the timeline; if the video is at
    or after the clip's in-point, the playhead is at or after the start of
    the clip.  The tick asks for another frame exactly while the video is
    more than 0.05 s before the clip's out-point, and then the playhead is
    where the video is, at the clip's start + (video time - in-point), or
    at 0 if that is negative.  Otherwise it either stops, paused, at the
    end of the timeline, which it does exactly when the clip ends within
    0.05 s of it; or it hands over, still playing if it was, at 0.01 s
    past the end of the clip. *)
Theorem playback_tick_stays_on_timeline
    (e : Editor) (clip : TimelineClip) (videoCurrentTime : Q) :
  contiguous (clips (timeline e)) ->
  Forall clip_shape (clips (timeline e)) ->
  In clip (clips (timeline e)) ->
  let tick := updateTime clip false videoCurrentTime e in
  let playhead := currentTime (playback (tick_editor tick)) in
  let clipEnd := timelinePositionSeconds clip + getClipDuration clip in
  timeline (tick_editor tick) = timeline e
  /\ 0 <= playhead
  /\ playhead <= getDuration e
  /\ (sourceInPointSeconds clip <= videoCurrentTime ->
      timelinePositionSeconds clip <= playhead)
  /\ (tick_again tick = true ->
      videoCurrentTime < sourceOutPointSeconds clip - END_THRESHOLD_SECONDS
      /\ playhead
         == Qmax 0 (timelinePositionSeconds clip
                    + (videoCurrentTime - sourceInPointSeconds clip))
      /\ tick_ended tick = false
      /\ isPlaying (playback (tick_editor tick)) = isPlaying (playback e))
  /\ (tick_again tick = false ->
      sourceOutPointSeconds clip - END_THRESHOLD_SECONDS <= videoCurrentTime
      /\ ((tick_ended tick = true
           /\ getDuration e - END_THRESHOLD_SECONDS <= clipEnd
           /\ playhead == getDuration e
           /\ isPlaying (playback (tick_editor tick)) = false)
          \/ (tick_ended tick = false
              /\ clipEnd < getDuration e - END_THRESHOLD_SECONDS
              /\ playhead == clipEnd + CLIP_TRANSITION_OFFSET_SECONDS
              /\ isPlaying (playback (tick_editor tick))
                 = isPlaying (playback e)))).
Proof.
  intros Hc Hsh Hin tick playhead clipEnd.
  subst tick playhead clipEnd.
  pose proof (contiguous_chained _ Hc) as Hch.
  destruct (chained_bounds _ 0 clip Hch Hsh Hin) as [Hlo Hhi].
  pose proof (proj1 (Forall_forall _ _) Hsh clip Hin) as (Hlt & _).
  unfold updateTime, getDuration, getClipDuration, END_THRESHOLD_SECONDS,
    CLIP_TRANSITION_OFFSET_SECONDS in *.
  set (total := calculateTotalDuration (clips (timeline e))) in *.
  clearbody total.
  destruct (_ <=? videoCurrentTime) eqn:E1; js_reflect.
  - destruct (_ <=? _) eqn:E2; js_reflect;
      cbn [tick_editor tick_ended tick_again timeline playback
           Playback.setCurrentTime Playback.pause currentTime isPlaying].
    + split_and; try reflexivity.
      * js_minmax; lra.
      * js_minmax; lra.
      * intros _. js_minmax; lra.
      * discriminate.
      * intros _. split; [assumption|]. left.
        split_and; try reflexivity; try lra.
        js_minmax; lra.
    + split_and; try reflexivity.
      * js_minmax; lra.
      * js_minmax; lra.
      * intros _. js_minmax; lra.
      * discriminate.
      * intros _. split; [assumption|]. right.
        split_and; try reflexivity; try lra.
        js_minmax; lra.
  - cbn [tick_editor tick_ended tick_again timeline playback
         Playback.setCurrentTime currentTime isPlaying].
    split_and; try reflexivity.
    + js_minmax; lra.
    + js_minmax; lra.
    + intros Hv. js_minmax; lra.
    + intros _. split_and; try reflexivity; lra.
    + discriminate.
Qed.

Lemma playback_tick_stays_on_timeline_witness :
  currentTime
    (playback (tick_editor
       (updateTime (mkClip "a" "s10" 0 10 0 (mkTrimmed 0 0)) false (199 # 20)
                   Sample.twoClips)))
  <= getDuration Sample.twoClips.
Proof.
  refine (proj1 (proj2 (proj2 (playback_tick_stays_on_timeline
                                 Sample.twoClips
                                 (mkClip "a" "s10" 0 10 0 (mkTrimmed 0 0))
                                 (199 # 20) _ _ _)))).
  - apply run_contiguous, nil_contiguous.
  - repeat constructor; vm_compute; congruence.
  - left. reflexivity.
Defined.

(* ------------------------------------------------------------------ *)
(** ** Play controls *)

Section PlayControls.

Variable getSource : string -> option VideoSource.

Lemma active_on_timeline cs t :
  contiguous cs -> Forall clip_shape cs ->
  (forall c, In c cs -> getSource (sourceId c) <> None) ->
  cs <> [] -> 0 <= t -> t <= calculateTotalDuration cs ->
  getActiveClipAtTime t cs getSource <> None.
Proof.
  intros Hc Hsh Hreg Hne Hlo Hhi.
  pose proof (contiguous_chained cs Hc) as Hch.
  destruct (chained_find cs 0 t Hch Hsh Hne Hlo) as (clip & Hf & _); [lra|].
  pose proof (find_some _ _ Hf) as [Hin _].
  unfold getActiveClipAtTime. rewrite Hf.
  destruct (getSource (sourceId clip)) eqn:Hsrc; [discriminate|].
  exfalso. exact (Hreg clip Hin Hsrc).
Qed.

Lemma inactive_off_timeline cs t :
  contiguous cs -> Forall clip_shape cs ->
  calculateTotalDuration cs < t ->
  getActiveClipAtTime t cs getSource = None.
Proof.
  intros Hc Hsh Hout.
  pose proof (contiguous_chained cs Hc) as Hch.
  unfold getActiveClipAtTime.
  destruct (find (spansTime t) cs) as [clip|] eqn:Hf; [|reflexivity].
  exfalso. apply find_some in Hf. destruct Hf as [Hin Hspan].
  apply spansTime_iff in Hspan.
  destruct (chained_bounds cs 0 clip Hch Hsh Hin). lra.
Qed.

End PlayControls.


(* ------------------------------------------------------------------ *)
(** ** Clip identifiers *)

Section Identifiers.

Variable getSource : string -> option VideoSource.

Lemma createSplitClips_ids clip t newId a b :
  createSplitClips clip t newId = Some (a, b) ->
  id a = id clip /\ id b = newId.
Proof.
  unfold createSplitClips.
  cbv zeta. destruct (_ || _)%bool; [discriminate|].
  intros [= <- <-]. split; reflexivity.
Qed.

Lemma NoDup_ids_filter (f : TimelineClip -> bool) cs :
  NoDup (map id cs) -> NoDup (map id (filter f cs)).
Proof.
  induction cs as [|c cs IH]; intros H; simpl; [constructor|].
  simpl in H. apply NoDup_cons_iff in H as [Hn Hd].
  destruct (f c); simpl; [|now apply IH].
  constructor; [|now apply IH].
  intros Hin. apply Hn. apply in_map_iff in Hin as (x & Hx & Hf).
  apply filter_In in Hf as [Hf _]. rewrite <- Hx. now apply in_map.
Qed.

Lemma ids_trimStart cid p cs :
  map id (map (trimStartOf cid p) cs) = map id cs.
Proof.
  rewrite map_map. apply map_ext. intros c. apply trimStartOf_id.
Qed.

Lemma ids_trimEnd cid p cs :
  map id (map (trimEndOf getSource cid p) cs) = map id cs.
Proof.
  rewrite map_map. apply map_ext. intros c. apply trimEndOf_id.
Qed.

End Identifiers.

(** No mutation of the timeline makes two clips share an identifier, as
    long as the identifier it draws, if it draws one, is carried by no clip
    yet: from a timeline of clips with distinct identifiers every mutation
    leads to a timeline of clips with distinct identifiers. *)
Theorem clip_ids_stay_distinct
    (getSource : string -> option VideoSource) (m : Mutation) (e : Editor) :
  NoDup (map id (clips (timeline e))) ->
  drawsFresh m (clips (timeline e)) ->
  NoDup (map id (clips (timeline (apply_mutation getSource m e)))).
Proof.
  intros Hnd Hfresh.
  destruct m as [sid newId|cid|activeId overId|cid t newId|cid p|cid p|];
    cbn [apply_mutation]; unfold drawsFresh in Hfresh; cbn [drawnId] in Hfresh.
  - unfold addClip. destruct (getSource sid) as [source|]; [|assumption].
    cbn [timeline clips set_clips]. unfold recalculatePositions.
    rewrite ids_recalculateFrom, map_app. cbn [map id].
    apply (Permutation_NoDup (l := newId :: map id (clips (timeline e)))).
    + apply Permutation_cons_append.
    + now constructor.
  - unfold removeClip. cbn [timeline clips].
    unfold recalculatePositions. rewrite ids_recalculateFrom.
    now apply NoDup_ids_filter.
  - unfold reorderClips. destruct (String.eqb activeId overId); [assumption|].
    destruct (findIndex (has_id activeId) _) as [oldIndex|]; [|assumption].
    destruct (findIndex (has_id overId) _) as [newIndex|]; [|assumption].
    destruct (nth_error _ oldIndex) as [moved|] eqn:Hm; [|assumption].
    cbn [timeline clips set_clips]. unfold recalculatePositions.
    rewrite ids_recalculateFrom.
    apply (Permutation_NoDup (l := map id (clips (timeline e))));
      [|assumption].
    apply Permutation_map. symmetry. now apply spliced_permutation.
  - unfold splitClip.
    destruct (find (has_id cid) _) as [clip|] eqn:Hf; [|assumption].
    destruct (createSplitClips clip t newId) as [[a b]|] eqn:Hs; [|assumption].
    cbn [timeline clips set_clips]. unfold recalculatePositions.
    rewrite ids_recalculateFrom.
    destruct (find_decompose _ _ _ Hf) as (l1 & l2 & Hcs & Hc & Hl1).
    rewrite Hcs in *.
    pose proof (nodup_absent_after cid l1 clip l2 Hnd Hc) as Hl2.
    rewrite (flat_map_split cid [a; b] l1 clip l2 Hl1 Hc Hl2).
    destruct (createSplitClips_ids _ _ _ _ _ Hs) as [Ha Hb].
    rewrite map_app in *. cbn [map app] in *. rewrite Ha, Hb.
    apply (Permutation_NoDup
             (l := newId :: map id l1 ++ id clip :: map id l2)).
    + rewrite (Permutation_middle (map id l1) (id clip :: map id l2) newId).
      apply Permutation_app_head. apply perm_swap.
    + now constructor.
  - unfold trimClipStart. cbn [timeline clips set_clips].
    unfold recalculatePositions.
    now rewrite ids_recalculateFrom, ids_trimStart.
  - unfold trimClipEnd. cbn [timeline clips set_clips].
    unfold recalculatePositions.
    now rewrite ids_recalculateFrom, ids_trimEnd.
  - unfold clearClips. cbn [timeline clips map]. constructor.
Qed.

Lemma clip_ids_stay_distinct_witness :
  NoDup (map id (clips (timeline
           (apply_mutation Sample.registry (SplitClip "a" 4 "c")
                           Sample.twoClips)))).
Proof.
  apply (clip_ids_stay_distinct Sample.registry (SplitClip "a" 4 "c")
                                Sample.twoClips).
  - vm_compute. repeat constructor; simpl; intuition congruence.
  - vm_compute. intuition congruence.
Defined.
